(** * langchain_weaviate.vectorstores: a shallow embedding

    The Python module [langchain_weaviate/vectorstores.py] wraps a Weaviate
    client behind LangChain's vector-store interface.  This development
    embeds its functions as Rocq definitions and proves the properties the
    specification states about them.

    Conventions of the embedding:
    - Python values handled dynamically by the module (keyword arguments,
      metadata, JSON responses) are elements of [pyval];
    - Python floats are represented by rationals ([Q]); none of the
      properties below depends on rounding;
    - Python dicts are finite maps ([gmap]); the order of their keys, which
      Python preserves, plays no role in the properties below;
    - a method that may raise is a computation in [M]: it threads the
      [world] (the requests sent to the service so far and the number of
      UUIDs drawn) and yields either an exception or a value;
    - the service, the UUID generator and the few library routines whose
      results the module consumes are the fields of the class [Weaviate];
      every definition and theorem is parametric in them. *)

From Stdlib Require Import QArith Lia.
From stdpp Require Import gmap strings pretty list fin_maps.

Set Warnings "-register-all,-clear-no-such-hyp".
Set Default Proof Using "Type".

(** ** Python values *)

(** A naive [datetime.datetime] value. *)
Record datetime := {
  dt_year : Z; dt_month : Z; dt_day : Z;
  dt_hour : Z; dt_minute : Z; dt_second : Z; dt_microsecond : Z
}.

Inductive pyval :=
| VNone
| VBool (b : bool)
| VInt (z : Z)
| VFloat (q : Q)
| VStr (s : string)
| VList (l : list pyval)
| VDict (d : gmap string pyval)
| VDatetime (d : datetime).

(** Python's truth value testing, [bool(v)]. *)
Definition truthy (v : pyval) : bool :=
  match v with
  | VNone => false
  | VBool b => b
  | VInt z => negb (z =? 0)%Z
  | VFloat q => negb (Qeq_bool q 0)
  | VStr s => negb (String.eqb s "")
  | VList l => negb (Nat.eqb (length l) 0)
  | VDict d => negb (Nat.eqb (size d) 0)
  | VDatetime _ => true
  end.

(** ** Exceptions *)

Inductive exn :=
| ValueError (msg : string)
| QueryError (errors : pyval)
    (* ValueError(f"Error during query: {result['errors']}") *)
| KeyError (key : string)
| IndexError
| TypeError (msg : string)
| AttributeError (msg : string)
| ServiceError (msg : string)
    (* an exception raised by the client library for a failed request *)
| DimensionMismatch.

(** The error kinds of the specification, as the module raises them. *)
Definition NoIdsProvided : exn := ValueError "No ids provided to delete.".
Definition EmbeddingRequired_search : exn :=
  ValueError "_embedding cannot be None for similarity_search".
Definition EmbeddingRequired_mmr : exn :=
  ValueError "max_marginal_relevance_search requires a suitable Embeddings object".
Definition InvalidConfiguration (ty : string) : exn :=
  ValueError ("client should be an instance of weaviate.Client, got " +:+ ty).

Definition is_EmbeddingRequired (e : exn) : Prop :=
  e = EmbeddingRequired_search ∨ e = EmbeddingRequired_mmr.

(** Pure code that may raise. *)
Definition result (A : Type) : Type := exn + A.

#[global] Instance result_ret : MRet result := λ A x, inr x.
#[global] Instance result_bind : MBind result := λ A B f m,
  match m with inl e => inl e | inr x => f x end.

(** ** Subscripting and dictionary operations on [pyval] *)

(** [v[key]] for a string key. *)
Definition py_getitem (v : pyval) (key : string) : result pyval :=
  match v with
  | VDict d => match d !! key with Some x => inr x | None => inl (KeyError key) end
  | _ => inl (TypeError "subscript")
  end.

(** [v[i]] for a non-negative integer index. *)
Definition py_index (v : pyval) (i : nat) : result pyval :=
  match v with
  | VList l => match l !! i with Some x => inr x | None => inl IndexError end
  | VStr s =>
      match String.get i s with
      | Some c => inr (VStr (String c EmptyString))
      | None => inl IndexError
      end
  | VDict _ => inl (KeyError "int")
  | _ => inl (TypeError "subscript")
  end.

(** [v.pop(key)]: the value removed and the dictionary left. *)
Definition py_pop (v : pyval) (key : string) : result (pyval * pyval) :=
  match v with
  | VDict d =>
      match d !! key with
      | Some x => inr (x, VDict (delete key d))
      | None => inl (KeyError key)
      end
  | _ => inl (AttributeError "pop")
  end.

(** Iterating over a value ([for x in v]); only lists occur in responses. *)
Definition py_iter (v : pyval) : result (list pyval) :=
  match v with
  | VList l => inr l
  | _ => inl (TypeError "iter")
  end.

(** A numeric vector read from a JSON list. *)
Definition as_number (v : pyval) : result Q :=
  match v with
  | VFloat q => inr q
  | VInt z => inr (inject_Z z)
  | _ => inl (TypeError "float")
  end.

Fixpoint mapM {A B : Type} (f : A → result B) (l : list A) : result (list B) :=
  match l with
  | [] => inr []
  | x :: l' => y ← f x; ys ← mapM f l'; mret (y :: ys)
  end.

Definition as_vector (v : pyval) : result (list Q) :=
  l ← py_iter v; mapM as_number l.

Definition of_vector (v : list Q) : pyval := VList (VFloat <$> v).

(** ** The boundary to the service *)

(** A Get query under construction: the class (index) name, the requested
    properties, and the builder methods called on it, in call order. *)
Inductive builder_call :=
| with_where (content : pyval)
| with_tenant (tenant : pyval)
| with_additional (properties : pyval)
| with_limit (limit : pyval)
| with_hybrid (kwargs : list (string * pyval))
| with_near_vector (vector : list Q).   (* {"vector": embedding} *)

Record GetBuilder := {
  q_class : string;
  q_properties : list string;
  q_calls : list builder_call
}.

(** The arguments of [batch.add_data_object]. *)
Record data_object := {
  do_uuid : pyval;
  do_properties : gmap string pyval;
  do_class : string;
  do_vector : option (list Q);
  do_tenant : pyval
}.

(** Requests this layer sends through the client. *)
Inductive request :=
| BatchConfigure (batch_size : Z)
| SchemaExists (index_name : string)
| SchemaCreateClass (schema : pyval)
| BatchEnter
| BatchAddDataObject (obj : data_object)
| BatchFlush
| BatchExit
| QueryDo (q : GetBuilder)
| DataObjectDelete (uuid : string).

(** What the module does not implement itself: the service's answers
    (functions of the requests sent so far), the UUID generator, and the
    library routines for formatting and square roots. *)
Class Weaviate := {
  svc_fault : list request → request → option string;
  svc_exists : list request → string → bool;
  svc_do : list request → GetBuilder → gmap string pyval;
  uuid4 : nat → Z;
  get_valid_uuid : Z → string;
  uuid_hex : Z → string;
  isoformat : datetime → string;
  fsqrt : Q → Q
}.

(** An [Embeddings] object. *)
Record Embeddings := {
  embed_documents : list string → list (list Q);
  embed_query : string → list Q
}.

(** ** The monad of methods *)

Record world := {
  calls : list request;     (* requests sent so far, oldest first *)
  uuids_drawn : nat         (* number of uuid4() calls so far *)
}.

Definition M (A : Type) : Type := world → result A * world.

#[global] Instance M_ret : MRet M := λ A x w, (inr x, w).
#[global] Instance M_bind : MBind M := λ A B f m w,
  match m w with
  | (inl e, w') => (inl e, w')
  | (inr x, w') => f x w'
  end.

Definition raise {A : Type} (e : exn) : M A := λ w, (inl e, w).

Definition lift {A : Type} (r : result A) : M A := λ w, (r, w).

(** Send a request: it is recorded whether or not the service fails it. *)
Definition send `{Weaviate} (r : request) : M unit := λ w,
  let w' := {| calls := calls w ++ [r]; uuids_drawn := uuids_drawn w |} in
  match svc_fault (calls w) r with
  | Some msg => (inl (ServiceError msg), w')
  | None => (inr (), w')
  end.

(** [client.schema.exists(index_name)] *)
Definition schema_exists `{Weaviate} (index_name : string) : M bool := λ w,
  match send (SchemaExists index_name) w with
  | (inl e, w') => (inl e, w')
  | (inr _, w') => (inr (svc_exists (calls w) index_name), w')
  end.

(** [query_obj.do()] *)
Definition do `{Weaviate} (q : GetBuilder) : M (gmap string pyval) := λ w,
  match send (QueryDo q) w with
  | (inl e, w') => (inl e, w')
  | (inr _, w') => (inr (svc_do (calls w) q), w')
  end.

(** [uuid4()] *)
Definition draw_uuid4 `{Weaviate} : M Z := λ w,
  (inr (uuid4 (uuids_drawn w)),
   {| calls := calls w; uuids_drawn := S (uuids_drawn w) |}).

(** [with client.batch as batch: body]: the context is left, flushing the
    batch, also when the body raises; an exception of the exit replaces
    the body's. *)
Definition with_batch `{Weaviate} {A : Type} (body : M A) : M A := λ w,
  match send BatchEnter w with
  | (inl e, w') => (inl e, w')
  | (inr _, w1) =>
      let '(r, w2) := body w1 in
      match send BatchExit w2 with
      | (inl e, w3) => (inl e, w3)
      | (inr _, w3) => (r, w3)
      end
  end.

(** The requests a computation adds to the log. *)
Definition sent_since (w w' : world) : list request :=
  drop (length (calls w)) (calls w').

(** ** Maximal marginal relevance ([from .utils import ...]) *)

Definition dot (a b : list Q) : Q := foldr Qplus 0%Q (zip_with Qmult a b).

Definition norm `{Weaviate} (a : list Q) : Q := fsqrt (dot a a).

(** Modelled from the spec: VectorMath.cosineSimilarity, which lives in
    [langchain_weaviate/utils.py] and is not among the sources.  Lengths
    must agree ([DimensionMismatch] otherwise); a vector of zero norm gives
    similarity 0. *)
Definition cosineSimilarity `{Weaviate} (a b : list Q) : result Q :=
  if negb (Nat.eqb (length a) (length b)) then inl DimensionMismatch
  else
    let na := norm a in
    let nb := norm b in
    if Qeq_bool na 0 || Qeq_bool nb 0 then inr 0%Q
    else inr (dot a b / (na * nb))%Q.

(** [argmax] over scored indices; among equal scores the lowest index wins. *)
Definition pick (best cand : nat * Q) : nat * Q :=
  if negb (Qle_bool cand.2 best.2) then cand
  else if Qeq_bool cand.2 best.2 && Nat.ltb cand.1 best.1 then cand
  else best.

Definition argmax (scored : list (nat * Q)) : option nat :=
  match scored with
  | [] => None
  | x :: rest => Some (fold_left pick rest x).1
  end.

Definition max_of (l : list Q) : result Q :=
  match l with
  | [] => inl (ValueError "max() arg is an empty sequence")
  | x :: rest => inr (fold_left (λ m y, if Qle_bool m y then y else m) rest x)
  end.

Definition nth_or_IndexError {A : Type} (l : list A) (i : nat) : result A :=
  match l !! i with Some x => inr x | None => inl IndexError end.

(** Step 4a: the largest similarity of candidate [i] to a selected one. *)
Definition redundancy `{Weaviate} (candidateEmbeddings : list (list Q))
    (selected : list nat) (i : nat) : result Q :=
  ci ← nth_or_IndexError candidateEmbeddings i;
  sims ← mapM (λ j, cj ← nth_or_IndexError candidateEmbeddings j;
                    cosineSimilarity ci cj) selected;
  max_of sims.

(** Step 4b. *)
Definition mmrScore `{Weaviate} (candidateEmbeddings : list (list Q))
    (similarityToQuery : list Q) (lambdaMult : Q)
    (selected : list nat) (i : nat) : result (nat * Q) :=
  r ← redundancy candidateEmbeddings selected i;
  s ← nth_or_IndexError similarityToQuery i;
  mret (i, lambdaMult * s - (1 - lambdaMult) * r)%Q.

(** Step 4, the while loop.  [fuel] bounds the number of iterations; the
    caller passes the pool size, which the loop never exhausts
    ([mmr_loop_fuel] below). *)
Fixpoint mmr_loop `{Weaviate} (fuel : nat) (candidateEmbeddings : list (list Q))
    (similarityToQuery : list Q) (lambdaMult : Q) (k : Z)
    (selected remaining : list nat) : result (list nat) :=
  match fuel with
  | O => inr selected
  | S fuel' =>
      if (Z.of_nat (length selected) <? k)%Z
         && negb (Nat.eqb (length remaining) 0)
      then
        scores ← mapM (mmrScore candidateEmbeddings similarityToQuery
                                lambdaMult selected) remaining;
        match argmax scores with
        | None => inr selected
        | Some best =>
            mmr_loop fuel' candidateEmbeddings similarityToQuery lambdaMult k
                     (selected ++ [best]) (filter (λ j, j ≠ best) remaining)
        end
      else inr selected
  end.

(** Modelled from the spec: MMRSelector.select (section 4.2), the function
    [maximal_marginal_relevance] of [langchain_weaviate/utils.py], which is
    not among the sources.  Arguments are those of the call in
    [max_marginal_relevance_search_by_vector]; the spec's [fetchK] is
    unused by the selector.  The result lists indices into
    [embedding_list] in selection order. *)
Definition maximal_marginal_relevance `{Weaviate} (query_embedding : list Q)
    (embedding_list : list (list Q)) (k : Z) (lambda_mult : Q)
    : result (list nat) :=
  match embedding_list with
  | [] => inr []                                                 (* step 1 *)
  | _ =>
      similarityToQuery ←
        mapM (cosineSimilarity query_embedding) embedding_list;  (* step 2 *)
      if (k <=? 0)%Z then inr []
      else
        let n := length embedding_list in
        match argmax (zip (seq 0 n) similarityToQuery) with      (* step 3 *)
        | None => inr []
        | Some first =>
            mmr_loop n embedding_list similarityToQuery lambda_mult k
                     [first] (filter (λ j, j ≠ first) (seq 0 n)) (* step 4 *)
        end
  end.

(** ** Keyword arguments *)

(** [kwargs.get(name)] *)
Definition kwargs_get (kw : gmap string pyval) (name : string) : pyval :=
  default VNone (kw !! name).

(** A call [f(a, ..., **kwargs)] that also passes the formal parameters
    [formals] of [f] explicitly: a keyword naming one of them is a
    TypeError ("got multiple values").  The [**kwargs] of a method never
    holds one of the method's own parameter names, so only names that can
    reach a call site are listed there. *)
Definition bind_formals (formals : list string) (kw : gmap string pyval)
    : result unit :=
  match List.filter (λ name, bool_decide (is_Some (kw !! name))) formals with
  | [] => inr ()
  | name :: _ => inl (TypeError ("got multiple values for argument " +:+ name))
  end.

(** A call [f(name=v, ..., **kwargs)] into a function that collects all
    keywords: the keywords [f] receives. *)
Definition call_kwargs (explicit : list (string * pyval))
    (kw : gmap string pyval) : result (gmap string pyval) :=
  _ ← bind_formals explicit.*1 kw;
  mret (list_to_map explicit ∪ kw).

Fixpoint foldM {A B : Type} (f : A → B → result A) (a : A) (l : list B)
    : result A :=
  match l with
  | [] => inr a
  | x :: l' => a' ← f a x; foldM f a' l'
  end.

(** ** Module-level functions *)

Definition _default_schema (index_name : string) : pyval :=
  VDict {[ "class" := VStr index_name;
           "properties" :=
             VList [VDict {[ "name" := VStr "text";
                             "dataType" := VList [VStr "text"] ]}] ]}.

Definition _json_serializable `{Weaviate} (value : pyval) : pyval :=
  match value with
  | VDatetime d => VStr (isoformat d)
  | _ => value
  end.

(** ** class WeaviateVectorStore *)

(** The [client] argument: a [weaviate.Client], or an object of another
    type (named by [type(client)]). *)
Inductive client_obj :=
| Client
| NotClient (ty : string).

Record WeaviateVectorStore := {
  _client : client_obj;
  _index_name : string;
  _embedding : option Embeddings;
  _text_key : string;
  _query_attrs : list string;
  relevance_score_fn : option (Q → Q);
  _by_text : bool
}.

Record Document := {
  page_content : pyval;
  metadata : pyval
}.

Definition __init__ (client : client_obj) (index_name text_key : string)
    (embedding : option Embeddings) (attributes : option (list string))
    (relevance_score_fn : option (Q → Q)) (by_text : bool)
    : result WeaviateVectorStore :=
  match client with
  | NotClient ty => inl (InvalidConfiguration ty)
  | Client =>
      let _query_attrs := [text_key] in
      let _query_attrs :=
        match attributes with
        | Some attributes => _query_attrs ++ attributes
        | None => _query_attrs
        end in
      inr {| _client := client; _index_name := index_name;
             _embedding := embedding; _text_key := text_key;
             _query_attrs := _query_attrs;
             relevance_score_fn := relevance_score_fn;
             _by_text := by_text |}
  end.

Definition method_map : list (string * list string) :=
  [ ("with_where", ["where_filter"]);
    ("with_tenant", ["tenant"]);
    ("with_additional", ["additional"]);
    ("with_limit", ["limit"]) ].

Definition hybrid_args : list string :=
  ["query"; "alpha"; "vector"; "properties"; "fusion_type"].

(** [self._client.query.get(index_name, query_attrs)] *)
Definition query_get (index_name : string) (properties : list string)
    : GetBuilder :=
  {| q_class := index_name; q_properties := properties; q_calls := [] |}.

Definition add_call (q : GetBuilder) (c : builder_call) : GetBuilder :=
  {| q_class := q_class q; q_properties := q_properties q;
     q_calls := q_calls q ++ [c] |}.

(** [getattr(query_obj, method)( *args )] for the builder's one-argument
    methods. *)
Definition call_method (q : GetBuilder) (method : string) (args : list pyval)
    : result GetBuilder :=
  match args with
  | [a] =>
      if String.eqb method "with_where" then inr (add_call q (with_where a))
      else if String.eqb method "with_tenant" then inr (add_call q (with_tenant a))
      else if String.eqb method "with_additional"
           then inr (add_call q (with_additional a))
      else if String.eqb method "with_limit" then inr (add_call q (with_limit a))
      else inl (AttributeError method)
  | _ => inl (TypeError method)
  end.

(** One iteration of [for method, kwarg_list in method_map.items()]. *)
Definition apply_method (kw : gmap string pyval) (query_obj : GetBuilder)
    (entry : string * list string) : result GetBuilder :=
  let args :=
    kwargs_get kw <$>
      List.filter (λ kwarg, truthy (kwargs_get kw kwarg)) entry.2 in
  if negb (Nat.eqb (length args) 0) then call_method query_obj entry.1 args
  else inr query_obj.

Definition _build_query_obj (self : WeaviateVectorStore)
    (kw : gmap string pyval) : result GetBuilder :=
  let query_obj := query_get (_index_name self) (_query_attrs self) in
  query_obj ← foldM (apply_method kw) query_obj method_map;
  let hybrid_args_params_and_values :=
    (λ arg, (arg, kwargs_get kw arg)) <$>
      List.filter (λ arg, truthy (kwargs_get kw arg)) hybrid_args in
  if existsb truthy hybrid_args_params_and_values.*2
  then inr (add_call query_obj (with_hybrid hybrid_args_params_and_values))
  else inr query_obj.

#[global] Instance result_fmap : FMap result := λ A B f m,
  match m with inl e => inl e | inr x => inr (f x) end.

(** The loop [for key, val in metadata.items(): data_properties[key] = f(val)]. *)
Definition set_items (f : pyval → pyval) (metadata : gmap string pyval)
    (data_properties : gmap string pyval) : gmap string pyval :=
  map_fold (λ key val dp, <[key := f val]> dp) data_properties metadata.

(** [metadatas[i]] when [metadatas is not None]. *)
Definition metadata_at (metadatas : option (list (gmap string pyval)))
    (i : nat) : result (option (gmap string pyval)) :=
  match metadatas with
  | None => inr None
  | Some ms => Some <$> nth_or_IndexError ms i
  end.

(** The choice of [_id] in [add_texts]: [u] is the value of [uuid4()];
    [uuids] comes before [ids], and both before the generated id. *)
Definition chosen_id `{Weaviate} (kw : gmap string pyval) (i : nat) (u : Z)
    : result pyval :=
  match kw !! "uuids" with
  | Some uuids => py_index uuids i
  | None =>
      match kw !! "ids" with
      | Some ids => py_index ids i
      | None => inr (VStr (get_valid_uuid u))
      end
  end.

(** [data_properties] of [add_texts] once the metadata loop has run. *)
Definition data_properties_for `{Weaviate} (text_key text : string)
    (md : option (gmap string pyval)) : gmap string pyval :=
  let data_properties : gmap string pyval := {[ text_key := VStr text ]} in
  match md with
  | Some m => set_items _json_serializable m data_properties
  | None => data_properties
  end.

(** [embeddings[i] if embeddings else None] *)
Definition vector_at (embeddings : option (list (list Q))) (i : nat)
    : result (option (list Q)) :=
  match embeddings with
  | Some (e :: es) => Some <$> nth_or_IndexError (e :: es) i
  | _ => inr None
  end.

(** The body of the loop of [add_texts] for [(i, text)]; yields [_id]. *)
Definition add_texts_step `{Weaviate} (self : WeaviateVectorStore)
    (metadatas : option (list (gmap string pyval))) (kw : gmap string pyval)
    (embeddings : option (list (list Q))) (i : nat) (text : string)
    : M pyval :=
  md ← lift (metadata_at metadatas i);
  let data_properties := data_properties_for (_text_key self) text md in
  u ← draw_uuid4;
  _id ← lift (chosen_id kw i u);
  vector ← lift (vector_at embeddings i);
  send (BatchAddDataObject
          {| do_uuid := _id; do_properties := data_properties;
             do_class := _index_name self; do_vector := vector;
             do_tenant := kwargs_get kw "tenant" |});;
  mret _id.

Fixpoint add_texts_loop `{Weaviate} (self : WeaviateVectorStore)
    (metadatas : option (list (gmap string pyval))) (kw : gmap string pyval)
    (embeddings : option (list (list Q))) (i : nat) (texts : list string)
    (ids : list pyval) : M (list pyval) :=
  match texts with
  | [] => mret ids
  | text :: rest =>
      _id ← add_texts_step self metadatas kw embeddings i text;
      add_texts_loop self metadatas kw embeddings (S i) rest (ids ++ [_id])
  end.

Definition add_texts `{Weaviate} (self : WeaviateVectorStore)
    (texts : list string) (metadatas : option (list (gmap string pyval)))
    (kw : gmap string pyval) : M (list pyval) :=
  let embeddings :=
    match _embedding self with
    | Some e => Some (embed_documents e texts)
    | None => None
    end in
  with_batch (add_texts_loop self metadatas kw embeddings 0 texts []).

(** [result["data"]["Get"][self._index_name]] *)
Definition response_payload (self : WeaviateVectorStore)
    (response : gmap string pyval) : result pyval :=
  data ← py_getitem (VDict response) "data";
  get ← py_getitem data "Get";
  py_getitem get (_index_name self).

Definition _perform_search `{Weaviate} (self : WeaviateVectorStore)
    (query : string) (k : Z) (kw : gmap string pyval)
    : M (gmap string pyval) :=
  match _embedding self with
  | None => raise EmbeddingRequired_search
  | Some e =>
      let embedding := embed_query e query in
      kw' ← lift (call_kwargs [("query", VStr query); ("limit", VInt k);
                                ("vector", of_vector embedding)] kw);
      query_obj ← lift (_build_query_obj self kw');
      response ← do query_obj;
      match response !! "errors" with
      | Some errors => raise (QueryError errors)
      | None => mret response
      end
  end.

(** The decoding loop shared by the similarity searches. *)
Definition decode (text_key : string) (res : pyval) : result Document :=
  '(text, res') ← py_pop res text_key;
  mret {| page_content := text; metadata := res' |}.

Definition similarity_search `{Weaviate} (self : WeaviateVectorStore)
    (query : string) (k : Z) (kw : gmap string pyval) : M (list Document) :=
  response ← _perform_search self query k kw;
  lift (payload ← response_payload self response;
        records ← py_iter payload;
        mapM (decode (_text_key self)) records).

Definition similarity_search_by_vector `{Weaviate} (self : WeaviateVectorStore)
    (embedding : list Q) (k : Z) (kw : gmap string pyval)
    : M (list Document) :=
  query_obj ← lift (_build_query_obj self kw);
  response ← do (add_call (add_call query_obj (with_near_vector embedding))
                          (with_limit (VInt k)));
  match response !! "errors" with
  | Some errors => raise (QueryError errors)
  | None =>
      lift (payload ← response_payload self response;
            records ← py_iter payload;
            mapM (decode (_text_key self)) records)
  end.

(** The final loop of [max_marginal_relevance_search_by_vector]; [payload]
    is the list it mutates through [payload[idx].pop(...)]. *)
Fixpoint mmr_docs (text_key : string) (payload : list pyval)
    (mmr_selected : list nat) : result (list Document) :=
  match mmr_selected with
  | [] => inr []
  | idx :: rest =>
      rec ← nth_or_IndexError payload idx;
      '(text, rec1) ← py_pop rec text_key;
      '(_, meta) ← py_pop rec1 "_additional";
      docs ← mmr_docs text_key (<[idx := meta]> payload) rest;
      mret ({| page_content := text; metadata := meta |} :: docs)
  end.

Definition max_marginal_relevance_search_by_vector `{Weaviate}
    (self : WeaviateVectorStore) (embedding : list Q) (k fetch_k : Z)
    (lambda_mult : Q) (kw : gmap string pyval) : M (list Document) :=
  query_obj ← lift (_build_query_obj self kw);
  results ← do (add_call
                  (add_call (add_call query_obj (with_additional (VStr "vector")))
                            (with_near_vector embedding))
                  (with_limit (VInt fetch_k)));
  lift (payload ← response_payload self results;
        payload ← py_iter payload;
        embeddings ← mapM (λ r, a ← py_getitem r "_additional";
                                py_getitem a "vector") payload;
        embeddings ← mapM as_vector embeddings;
        mmr_selected ←
          maximal_marginal_relevance embedding embeddings k lambda_mult;
        mmr_docs (_text_key self) payload mmr_selected).

Definition max_marginal_relevance_search `{Weaviate}
    (self : WeaviateVectorStore) (query : string) (k fetch_k : Z)
    (lambda_mult : Q) (kw : gmap string pyval) : M (list Document) :=
  match _embedding self with
  | Some e =>
      let embedding := embed_query e query in
      _ ← lift (bind_formals ["embedding"] kw);
      max_marginal_relevance_search_by_vector self embedding k fetch_k
                                              lambda_mult kw
  | None => raise EmbeddingRequired_mmr
  end.

Definition decode_with_score (text_key : string) (res : pyval)
    : result (Document * pyval) :=
  '(text, res') ← py_pop res text_key;
  additional ← py_getitem res' "_additional";
  score ← py_getitem additional "score";
  mret ({| page_content := text; metadata := res' |}, score).

Definition similarity_search_with_score `{Weaviate}
    (self : WeaviateVectorStore) (query : string) (k : Z)
    (kw : gmap string pyval) : M (list (Document * pyval)) :=
  kw' ← lift (call_kwargs [("additional", VList [VStr "score"])] kw);
  response ← _perform_search self query k kw';
  match response !! "errors" with
  | Some errors => raise (QueryError errors)
  | None =>
      lift (payload ← response_payload self response;
            records ← py_iter payload;
            mapM (decode_with_score (_text_key self)) records)
  end.

(** Attribute access on the [client] argument of [from_texts]. *)
Definition client_attr (client : client_obj) (attr : string) : M unit :=
  match client with
  | Client => mret ()
  | NotClient ty => raise (AttributeError attr)
  end.

(** [[get_valid_uuid(uuid4()) for _ in range(n)]] *)
Fixpoint draw_uuids `{Weaviate} (n : nat) : M (list pyval) :=
  match n with
  | O => mret []
  | S n' =>
      u ← draw_uuid4;
      us ← draw_uuids n';
      mret (VStr (get_valid_uuid u) :: us)
  end.

(** The body of the loop of [from_texts] for [(i, text)]. *)
Definition from_texts_step `{Weaviate} (index_name text_key : string)
    (metadatas : option (list (gmap string pyval))) (uuids : pyval)
    (embeddings : option (list (list Q))) (i : nat) (text : string)
    : M unit :=
  md ← lift (metadata_at metadatas i);
  let data_properties : gmap string pyval := {[ text_key := VStr text ]} in
  let data_properties :=
    match md with
    | Some m => set_items (λ val, val) m data_properties
    | None => data_properties
    end in
  _id ← lift (py_index uuids i);
  vector ← lift (match embeddings with
                 | Some es => Some <$> nth_or_IndexError es i
                 | None => inr None
                 end);
  send (BatchAddDataObject
          {| do_uuid := _id; do_properties := data_properties;
             do_class := index_name; do_vector := vector;
             do_tenant := VNone |}).

Fixpoint from_texts_loop `{Weaviate} (index_name text_key : string)
    (metadatas : option (list (gmap string pyval))) (uuids : pyval)
    (embeddings : option (list (list Q))) (i : nat) (texts : list string)
    : M unit :=
  match texts with
  | [] => mret ()
  | text :: rest =>
      from_texts_step index_name text_key metadatas uuids embeddings i text;;
      from_texts_loop index_name text_key metadatas uuids embeddings (S i) rest
  end.

Definition from_texts `{Weaviate} (texts : list string)
    (embedding : option Embeddings) (client : client_obj)
    (metadatas : option (list (gmap string pyval)))
    (batch_size : option Z) (index_name : option string) (text_key : string)
    (by_text : bool) (relevance_score_fn : option (Q → Q))
    (kw : gmap string pyval) : M WeaviateVectorStore :=
  match batch_size with
  | Some n =>
      if negb (n =? 0)%Z
      then client_attr client "batch";; send (BatchConfigure n)
      else mret ()
  | None => mret ()
  end;;
  index_name ←
    match index_name with
    | Some s =>
        if negb (String.eqb s "") then mret s
        else u ← draw_uuid4; mret ("LangChain_" +:+ uuid_hex u)
    | None => u ← draw_uuid4; mret ("LangChain_" +:+ uuid_hex u)
    end;
  let schema := _default_schema index_name in
  client_attr client "schema";;
  (* check whether the index already exists *)
  exists_ ← schema_exists index_name;
  (if negb exists_ then send (SchemaCreateClass schema) else mret ());;
  let embeddings :=
    match embedding with
    | Some e => Some (embed_documents e texts)
    | None => None
    end in
  let attributes :=
    match metadatas with
    | Some (m :: _) => Some (map_to_list m).*1
    | _ => None
    end in
  uuids ←
    match kw !! "uuids" with
    | Some uuids => mret uuids
    | None => us ← draw_uuids (length texts); mret (VList us)
    end;
  let kw := delete "uuids" kw in
  with_batch
    (from_texts_loop index_name text_key metadatas uuids embeddings 0 texts;;
     send BatchFlush);;
  (* cls(client, index_name, text_key, embedding=..., **kwargs): every
     parameter of __init__ is passed, so a keyword left in kwargs is
     rejected *)
  match map_to_list kw with
  | [] =>
      lift (__init__ client index_name text_key embedding attributes
                     relevance_score_fn by_text)
  | (name, _) :: _ =>
      raise (TypeError ("__init__() got an unexpected keyword argument " +:+ name))
  end.

Module VectorStore.

Fixpoint delete_loop `{Weaviate} (ids : list string) : M unit :=
  match ids with
  | [] => mret ()
  | id :: rest => send (DataObjectDelete id);; delete_loop rest
  end.

(** [WeaviateVectorStore.delete]; [ids = None] is the default of the
    optional argument. *)
Definition delete `{Weaviate} (self : WeaviateVectorStore)
    (ids : option (list string)) (kw : gmap string pyval) : M unit :=
  match ids with
  | None => raise NoIdsProvided
  | Some ids => delete_loop ids
  end.

End VectorStore.

(** ** Vocabulary of the statements *)

(** The requests a computation sends all satisfy [P], and the exceptions
    it raises all satisfy [E]. *)
Definition raises_only {A : Type} (E : exn → Prop) (r : result A) : Prop :=
  ∀ e, r = inl e → E e.

Definition behaves {A : Type} (P : request → Prop) (E : exn → Prop)
    (m : M A) : Prop :=
  ∀ w, (∃ l, calls (m w).2 = calls w ++ l ∧ Forall P l)
       ∧ raises_only E (m w).1.

(** The builder calls [_build_query_obj] makes for given keywords. *)
Definition truthy_arg (kw : gmap string pyval) (name : string) : list pyval :=
  if truthy (kwargs_get kw name) then [kwargs_get kw name] else [].

Definition hybrid_kwargs (kw : gmap string pyval) : list (string * pyval) :=
  (λ arg, (arg, kwargs_get kw arg)) <$>
    List.filter (λ arg, truthy (kwargs_get kw arg)) hybrid_args.

Definition built_calls (kw : gmap string pyval) : list builder_call :=
  (with_where <$> truthy_arg kw "where_filter")
  ++ (with_tenant <$> truthy_arg kw "tenant")
  ++ (with_additional <$> truthy_arg kw "additional")
  ++ (with_limit <$> truthy_arg kw "limit")
  ++ (if existsb truthy (hybrid_kwargs kw).*2
      then [with_hybrid (hybrid_kwargs kw)] else []).

(** The names of the optional query modifiers. *)
Definition modifiers : list string :=
  ["where_filter"; "tenant"; "limit"] ++ hybrid_args.

(** The decoding of a result record [m], in the words of the spec: the
    text field becomes the content, every other field a metadata entry. *)
Definition spec_document (text_key : string) (m : gmap string pyval)
    : Document :=
  {| page_content := default VNone (m !! text_key);
     metadata := VDict (delete text_key m) |}.

(** The same with the [_additional] payload left out. *)
Definition spec_document_mmr (text_key : string) (m : gmap string pyval)
    : Document :=
  {| page_content := default VNone (m !! text_key);
     metadata := VDict (delete "_additional" (delete text_key m)) |}.

(** The object [add_texts] inserts for [(i, text)] when [drawn] UUIDs were
    drawn before, and the objects it inserts for a list of texts. *)
Definition add_texts_object `{Weaviate} (self : WeaviateVectorStore)
    (metadatas : option (list (gmap string pyval))) (kw : gmap string pyval)
    (embeddings : option (list (list Q))) (drawn i : nat) (text : string)
    : result data_object :=
  md ← metadata_at metadatas i;
  _id ← chosen_id kw i (uuid4 drawn);
  vector ← vector_at embeddings i;
  mret {| do_uuid := _id;
          do_properties := data_properties_for (_text_key self) text md;
          do_class := _index_name self; do_vector := vector;
          do_tenant := kwargs_get kw "tenant" |}.

Fixpoint add_texts_objects `{Weaviate} (self : WeaviateVectorStore)
    (metadatas : option (list (gmap string pyval))) (kw : gmap string pyval)
    (embeddings : option (list (list Q))) (drawn i : nat)
    (texts : list string) : result (list data_object) :=
  match texts with
  | [] => inr []
  | text :: rest =>
      obj ← add_texts_object self metadatas kw embeddings drawn i text;
      objs ← add_texts_objects self metadatas kw embeddings (S drawn) (S i) rest;
      mret (obj :: objs)
  end.

(** The embeddings [add_texts] computes for its texts. *)
Definition add_texts_embeddings (self : WeaviateVectorStore)
    (texts : list string) : option (list (list Q)) :=
  match _embedding self with
  | Some e => Some (embed_documents e texts)
  | None => None
  end.

(** The supplied list of ids that takes effect: [uuids] before [ids]. *)
Definition supplied_ids (kw : gmap string pyval) : option pyval :=
  match kw !! "uuids" with
  | Some uuids => Some uuids
  | None => kw !! "ids"
  end.

(** The search operations of the class, with their arguments. *)
Inductive search_call :=
| SimilaritySearch (query : string) (k : Z)
| SimilaritySearchByVector (embedding : list Q) (k : Z)
| SimilaritySearchWithScore (query : string) (k : Z)
| MaxMarginalRelevanceSearch (query : string) (k fetch_k : Z) (lambda_mult : Q)
| MaxMarginalRelevanceSearchByVector
    (embedding : list Q) (k fetch_k : Z) (lambda_mult : Q).

(** Run a search operation, dropping its value. *)
Definition run_search `{Weaviate} (self : WeaviateVectorStore)
    (c : search_call) (kw : gmap string pyval) : M unit :=
  match c with
  | SimilaritySearch query k => similarity_search self query k kw;; mret ()
  | SimilaritySearchByVector embedding k =>
      similarity_search_by_vector self embedding k kw;; mret ()
  | SimilaritySearchWithScore query k =>
      similarity_search_with_score self query k kw;; mret ()
  | MaxMarginalRelevanceSearch query k fetch_k lambda_mult =>
      max_marginal_relevance_search self query k fetch_k lambda_mult kw;;
      mret ()
  | MaxMarginalRelevanceSearchByVector embedding k fetch_k lambda_mult =>
      max_marginal_relevance_search_by_vector self embedding k fetch_k
                                              lambda_mult kw;;
      mret ()
  end.

(** What a search operation called with keywords [kw] may send: a Get
    query for the store's attributes on which the builder calls for some
    [kw'] extending [kw] were made. *)
Definition search_request (self : WeaviateVectorStore)
    (kw : gmap string pyval) (r : request) : Prop :=
  ∀ q, r = QueryDo q →
    q_class q = _index_name self
    ∧ q_properties q = _query_attrs self
    ∧ ∃ kw', built_calls kw' ⊆ q_calls q
             ∧ ∀ name v, kw !! name = Some v → kw' !! name = Some v.

(** The values a builder call passes for modifier [name]: the argument of
    the builder method of that name, or the value given for it among the
    keywords of [with_hybrid]. *)
Definition carried_by (name : string) (c : builder_call) : list pyval :=
  match c with
  | with_where content => if decide (name = "where_filter") then [content] else []
  | with_tenant tenant => if decide (name = "tenant") then [tenant] else []
  | with_additional properties =>
      if decide (name = "additional") then [properties] else []
  | with_limit limit => if decide (name = "limit") then [limit] else []
  | with_hybrid kwargs =>
      (List.filter (λ p, bool_decide (p.1 = name)) kwargs).*2
  | with_near_vector _ => []
  end.

(** Everything the request [q] carries for modifier [name], in call
    order.  The request contains exactly the value [v] for the modifier
    when this list is [[v]]. *)
Definition carried (name : string) (q : GetBuilder) : list pyval :=
  q_calls q ≫= carried_by name.

(** The limit a search method passes to [with_limit] itself, after the
    calls built from the keywords. *)
Definition own_limit (c : search_call) : list pyval :=
  match c with
  | SimilaritySearchByVector _ k => [VInt k]
  | MaxMarginalRelevanceSearch _ _ fetch_k _ => [VInt fetch_k]
  | MaxMarginalRelevanceSearchByVector _ _ fetch_k _ => [VInt fetch_k]
  | SimilaritySearch _ _ | SimilaritySearchWithScore _ _ => []
  end.

(** The keywords a search method passes on explicitly, next to the
    caller's [**kwargs]. *)
Definition keyword_formals (c : search_call) : list string :=
  match c with
  | SimilaritySearch _ _ => ["query"; "limit"; "vector"]
  | SimilaritySearchWithScore _ _ => ["additional"; "query"; "limit"; "vector"]
  | MaxMarginalRelevanceSearch _ _ _ _ => ["embedding"]
  | SimilaritySearchByVector _ _
  | MaxMarginalRelevanceSearchByVector _ _ _ _ => []
  end.

(** The search methods that embed a query text. *)
Definition embeds_query (c : search_call) : bool :=
  match c with
  | SimilaritySearch _ _ | SimilaritySearchWithScore _ _
  | MaxMarginalRelevanceSearch _ _ _ _ => true
  | SimilaritySearchByVector _ _
  | MaxMarginalRelevanceSearchByVector _ _ _ _ => false
  end.

(** What a request sent by the search [c] called with keywords [kw]
    carries for modifier [name]: the value of [name] among the keywords
    [kw'] the builder received, then the method's own limit; [kw'] agrees
    with [kw] on [name] unless the method passes [name] itself, in which
    case the caller did not supply it. *)
Definition carries (c : search_call) (kw : gmap string pyval)
    (name : string) (r : request) : Prop :=
  ∀ q, r = QueryDo q →
    ∃ kw', carried name q
             = truthy_arg kw' name
               ++ (if decide (name = "limit") then own_limit c else [])
           ∧ (name ∈ keyword_formals c → kw !! name = None)
           ∧ (name ∉ keyword_formals c → kw' !! name = kw !! name).

Definition not_EmbeddingRequired (e : exn) : Prop := ¬ is_EmbeddingRequired e.

(** The requests [from_texts] sends before it asks whether the index
    exists, and the index name it asks about. *)
Definition configure_requests (batch_size : option Z) : list request :=
  match batch_size with
  | Some n => if negb (n =? 0)%Z then [BatchConfigure n] else []
  | None => []
  end.

Definition resolved_index_name `{Weaviate} (index_name : option string)
    (w : world) : string :=
  match index_name with
  | Some s =>
      if negb (String.eqb s "") then s
      else "LangChain_" +:+ uuid_hex (uuid4 (uuids_drawn w))
  | None => "LangChain_" +:+ uuid_hex (uuid4 (uuids_drawn w))
  end.

Definition is_SchemaCreateClass (r : request) : bool :=
  match r with SchemaCreateClass _ => true | _ => false end.

(** ** Tactics *)

(** An exception built from a constructor is not EmbeddingRequired. *)
Ltac not_ER := by (intros [?|?]; discriminate).

(** Every exception a primitive raises is not EmbeddingRequired. *)
Ltac prim_not_ER :=
  let e := fresh "e" in
  intros e; repeat (case_match; simpl); intros [= <-]; not_ER.

(** ** Concrete collaborators, used to run the definitions on examples *)

Module Demo.

Definition pad (width : nat) (z : Z) : string :=
  let s := pretty z in
  String.concat "" (replicate (width - String.length s) "0") +:+ s.

(** [datetime.isoformat] for a naive datetime without microseconds. *)
Definition iso8601 (d : datetime) : string :=
  pad 4 (dt_year d) +:+ "-" +:+ pad 2 (dt_month d) +:+ "-" +:+ pad 2 (dt_day d)
  +:+ "T" +:+ pad 2 (dt_hour d) +:+ ":" +:+ pad 2 (dt_minute d) +:+ ":"
  +:+ pad 2 (dt_second d).

(** Square root rounded down to a multiple of [1/den]. *)
Definition sqrt_floor (q : Q) : Q :=
  (Z.sqrt (Qnum q * Z.pos (Qden q)) # Qden q)%Q.

Definition record (text source : string) (vector : list Q) (score : Q)
    : gmap string pyval :=
  {[ "text" := VStr text; "source" := VStr source;
     "_additional" := VDict {[ "vector" := of_vector vector;
                               "score" := VFloat score ]} ]}.

Definition records : list (gmap string pyval) :=
  [ record "alpha" "s0" [1; 0]%Q (9 # 10);
    record "beta" "s1" [3 # 5; 4 # 5]%Q (7 # 10);
    record "gamma" "s2" [-1; 0]%Q (1 # 10) ].

Definition vectors : list (list Q) :=
  [ [1; 0]; [3 # 5; 4 # 5]; [-1; 0] ]%Q.

Definition scores : list pyval :=
  [ VFloat (9 # 10); VFloat (7 # 10); VFloat (1 # 10) ].

Definition response : gmap string pyval :=
  {[ "data" :=
       VDict {[ "Get" := VDict {[ "Docs" := VList (VDict <$> records) ]} ]} ]}.

(** A service that never fails, knows the index ["Docs"], and answers
    every query with the records of that index. *)
Definition weaviate : Weaviate := {|
  svc_fault := λ _ _, None;
  svc_exists := λ _ index_name, String.eqb index_name "Docs";
  svc_do := λ _ _, response;
  uuid4 := Z.of_nat;
  get_valid_uuid := λ u, "uuid-" +:+ pretty u;
  uuid_hex := λ u, pad 32 u;
  isoformat := iso8601;
  fsqrt := sqrt_floor
|}.

Definition embeddings : Embeddings := {|
  embed_documents := λ texts, (λ _, [1; 0]%Q) <$> texts;
  embed_query := λ _, [1; 0]%Q
|}.

Definition world0 : world := {| calls := []; uuids_drawn := 0 |}.

Definition kw_tenant : gmap string pyval :=
  {[ "tenant" := VStr "t1"; "alpha" := VFloat (1 # 2) ]}.

Definition kw_ids : gmap string pyval :=
  {[ "ids" := VList [VStr "id1"; VStr "id2"] ]}.

Definition kw_uuids_ids : gmap string pyval :=
  {[ "uuids" := VList [VStr "u1"]; "ids" := VList [VStr "id1"] ]}.

Definition new_year : datetime :=
  {| dt_year := 2024; dt_month := 1; dt_day := 1;
     dt_hour := 0; dt_minute := 0; dt_second := 0; dt_microsecond := 0 |}.

Definition metadatas : list (gmap string pyval) :=
  [ {[ "created" := VDatetime new_year; "page" := VInt 1 ]};
    {[ "page" := VInt 2 ]} ].

Definition store (embedding : option Embeddings) : WeaviateVectorStore := {|
  _client := Client; _index_name := "Docs"; _embedding := embedding;
  _text_key := "text"; _query_attrs := ["text"; "source"];
  relevance_score_fn := None; _by_text := true
|}.

End Demo.

(** ** Vocabulary of the further properties *)

(** The keywords [_build_query_obj] reads. *)
Definition recognised_kwargs : list string :=
  ["where_filter"; "tenant"; "additional"; "limit"] ++ hybrid_args.

(** A computation that leaves the world as it is. *)
Definition quiet {A : Type} (m : M A) : Prop := ∀ w, (m w).2 = w.

(** A computation that sends nothing, or one query and nothing else. *)
Definition one_query {A : Type} (m : M A) : Prop :=
  ∀ w, (m w).2 = w
       ∨ ∃ q, (m w).2 = {| calls := calls w ++ [QueryDo q];
                           uuids_drawn := uuids_drawn w |}.

(** The object [from_texts] inserts for [(i, text)], and the objects it
    inserts for a list of texts. *)
Definition from_texts_object (index_name text_key : string)
    (metadatas : option (list (gmap string pyval))) (uuids : pyval)
    (embeddings : option (list (list Q))) (i : nat) (text : string)
    : result data_object :=
  md ← metadata_at metadatas i;
  _id ← py_index uuids i;
  vector ← match embeddings with
           | Some es => Some <$> nth_or_IndexError es i
           | None => inr None
           end;
  mret {| do_uuid := _id;
          do_properties :=
            match md with
            | Some m => set_items (λ val, val) m {[ text_key := VStr text ]}
            | None => {[ text_key := VStr text ]}
            end;
          do_class := index_name; do_vector := vector;
          do_tenant := VNone |}.

Fixpoint from_texts_objects (index_name text_key : string)
    (metadatas : option (list (gmap string pyval))) (uuids : pyval)
    (embeddings : option (list (list Q))) (i : nat) (texts : list string)
    : result (list data_object) :=
  match texts with
  | [] => inr []
  | text :: rest =>
      obj ← from_texts_object index_name text_key metadatas uuids embeddings
                              i text;
      objs ← from_texts_objects index_name text_key metadatas uuids embeddings
                                (S i) rest;
      mret (obj :: objs)
  end.

(** The UUIDs [from_texts] generates for [n] texts when [drawn] were drawn
    before. *)
Definition generated_uuids `{Weaviate} (drawn n : nat) : list pyval :=
  (λ j, VStr (get_valid_uuid (uuid4 (drawn + j)))) <$> seq 0 n.

(** The number of UUIDs [from_texts] draws for the index name. *)
Definition index_name_draws (index_name : option string) : nat :=
  match index_name with
  | Some s => if negb (String.eqb s "") then 0 else 1
  | None => 1
  end.

(** The schema creation [from_texts] sends after the existence check. *)
Definition create_requests (exists_ : bool) (index_name : string)
    : list request :=
  if exists_ then [] else [SchemaCreateClass (_default_schema index_name)].

(** The ids of [from_texts]: the [uuids] keyword, or as many generated
    UUIDs as there are texts. *)
Definition from_texts_uuids `{Weaviate} (kw : gmap string pyval)
    (drawn n : nat) : pyval :=
  match kw !! "uuids" with
  | Some uuids => uuids
  | None => VList (generated_uuids drawn n)
  end.

Definition from_texts_uuid_draws (kw : gmap string pyval) (n : nat) : nat :=
  match kw !! "uuids" with Some _ => 0 | None => n end.

(** [embedding.embed_documents(texts) if embedding else None] *)
Definition from_texts_embeddings (embedding : option Embeddings)
    (texts : list string) : option (list (list Q)) :=
  match embedding with
  | Some e => Some (embed_documents e texts)
  | None => None
  end.

(** [list(metadatas[0].keys()) if metadatas else None] *)
Definition from_texts_attributes
    (metadatas : option (list (gmap string pyval))) : option (list string) :=
  match metadatas with
  | Some (m :: _) => Some (map_to_list m).*1
  | _ => None
  end.

(** ** A service in trouble, used to run the error paths *)

Module Outage.

Definition errors : pyval := VList [VStr "no such class"].

(** Deleting the object ["bad"] fails; every query is answered with an
    error report and no data. *)
Definition weaviate : Weaviate := {|
  svc_fault := λ _ r,
    match r with
    | DataObjectDelete uuid =>
        if String.eqb uuid "bad" then Some "500" else None
    | _ => None
    end;
  svc_exists := λ _ _, false;
  svc_do := λ _ _, {[ "errors" := errors ]};
  uuid4 := Z.of_nat;
  get_valid_uuid := λ u, "uuid-" +:+ pretty u;
  uuid_hex := λ u, Demo.pad 32 u;
  isoformat := Demo.iso8601;
  fsqrt := Demo.sqrt_floor
|}.

(** A store whose text key no record of [Demo.records] holds. *)
Definition store_body : WeaviateVectorStore := {|
  _client := Client; _index_name := "Docs";
  _embedding := Some Demo.embeddings;
  _text_key := "body"; _query_attrs := ["body"];
  relevance_score_fn := None; _by_text := true
|}.

(** A service that returns its records without the additional payload. *)
Definition plain_record : gmap string pyval :=
  {[ "text" := VStr "alpha"; "source" := VStr "s0" ]}.

Definition response_plain : gmap string pyval :=
  {[ "data" :=
       VDict {[ "Get" := VDict {[ "Docs" := VList [VDict plain_record] ]} ]} ]}.

Definition plain_weaviate : Weaviate := {|
  svc_fault := λ _ _, None;
  svc_exists := λ _ _, true;
  svc_do := λ _ _, response_plain;
  uuid4 := Z.of_nat;
  get_valid_uuid := λ u, "uuid-" +:+ pretty u;
  uuid_hex := λ u, Demo.pad 32 u;
  isoformat := Demo.iso8601;
  fsqrt := Demo.sqrt_floor
|}.

Definition store_plain : WeaviateVectorStore := {|
  _client := Client; _index_name := "Docs";
  _embedding := Some Demo.embeddings;
  _text_key := "text"; _query_attrs := ["text"; "source"];
  relevance_score_fn := None; _by_text := true
|}.

Definition kw_limit : gmap string pyval := {[ "limit" := VInt 5 ]}.

Definition kw_additional : gmap string pyval :=
  {[ "additional" := VList [VStr "distance"] ]}.

Definition kw_embedding : gmap string pyval :=
  {[ "embedding" := VList [VFloat 1] ]}.

Definition kw_unknown : gmap string pyval :=
  {[ "tenant" := VStr "t1"; "alpha" := VFloat (1 # 2);
     "colour" := VStr "red" ]}.

Definition kw_short_ids : gmap string pyval :=
  {[ "ids" := VList [VStr "id1"] ]}.

End Outage.

(** ** Services that answer with what a query asked for *)

Module Answers.

(** A service that never fails and answers every query with [response]. *)
Definition service (response : gmap string pyval) : Weaviate := {|
  svc_fault := λ _ _, None;
  svc_exists := λ _ _, true;
  svc_do := λ _ _, response;
  uuid4 := Z.of_nat;
  get_valid_uuid := λ u, "uuid-" +:+ pretty u;
  uuid_hex := λ u, Demo.pad 32 u;
  isoformat := Demo.iso8601;
  fsqrt := Demo.sqrt_floor
|}.

Definition response_of (records : list (gmap string pyval))
    : gmap string pyval :=
  {[ "data" :=
       VDict {[ "Get" := VDict {[ "Docs" := VList (VDict <$> records) ]} ]} ]}.

(** Records as a plain query returns them: no [_additional] entry. *)
Definition plain_records : list (gmap string pyval) :=
  [ {[ "text" := VStr "alpha"; "source" := VStr "s0" ]};
    {[ "text" := VStr "beta"; "source" := VStr "s1" ]} ].

(** Records as a query [with_additional(["score"])] returns them. *)
Definition scored_records : list (gmap string pyval) :=
  [ {[ "text" := VStr "alpha"; "source" := VStr "s0";
       "_additional" := VDict {[ "score" := VFloat (9 # 10) ]} ]};
    {[ "text" := VStr "beta"; "source" := VStr "s1";
       "_additional" := VDict {[ "score" := VFloat (7 # 10) ]} ]} ].

Definition scores : list pyval := [ VFloat (9 # 10); VFloat (7 # 10) ].

(** Records as a query [with_additional("vector")] returns them. *)
Definition vector_records : list (gmap string pyval) :=
  [ {[ "text" := VStr "alpha"; "source" := VStr "s0";
       "_additional" := VDict {[ "vector" := of_vector [1; 0]%Q ]} ]};
    {[ "text" := VStr "beta"; "source" := VStr "s1";
       "_additional" := VDict {[ "vector" := of_vector [3 # 5; 4 # 5]%Q ]} ]} ].

Definition vectors : list (list Q) := [ [1; 0]; [3 # 5; 4 # 5] ]%Q.

End Answers.

(** * Lemmas *)

(** ** Facts about the [result] monad *)

Lemma mapM_length {A B : Type} (f : A → result B) (l : list A) (ys : list B) :
  mapM f l = inr ys → length ys = length l.
Proof.
  revert ys. induction l as [|x l IH]; intros ys; simpl.
  - by intros [= <-].
  - destruct (f x) as [e|y]; simpl; [done|].
    destruct (mapM f l) as [e|ys']; simpl; [done|].
    intros [= <-]. simpl. by rewrite (IH ys').
Qed.

Lemma mapM_total {A B : Type} (f : A → result B) (l : list A) :
  (∀ x, x ∈ l → ∃ y, f x = inr y) → ∃ ys, mapM f l = inr ys.
Proof.
  induction l as [|x l IH]; intros Hf; simpl; [by eexists|].
  destruct (Hf x) as [y ->]; [by left|].
  destruct IH as [ys ->]; [intros z Hz; apply Hf; by right|].
  simpl. by eexists.
Qed.

Lemma mapM_lookup {A B : Type} (f : A → result B) (l : list A) (ys : list B) i x :
  mapM f l = inr ys → l !! i = Some x → ∃ y, ys !! i = Some y ∧ f x = inr y.
Proof.
  revert ys i. induction l as [|a l IH]; intros ys i; simpl; [done|].
  destruct (f a) as [e|y] eqn:Hfa; simpl; [done|].
  destruct (mapM f l) as [e|ys'] eqn:Hm; simpl; [done|].
  intros [= <-]. destruct i as [|i]; simpl.
  - intros [= <-]. eauto.
  - intros Hi. by apply IH.
Qed.

Lemma mapM_ext_map {A B : Type} (f : A → result B) (g : A → B) (l : list A) :
  (∀ x, x ∈ l → f x = inr (g x)) → mapM f l = inr (g <$> l).
Proof.
  induction l as [|x l IH]; intros Hf; simpl; [done|].
  rewrite Hf by (by left). simpl. rewrite IH; [done|].
  intros z Hz. apply Hf. by right.
Qed.

Lemma mapM_fmap_inv {A B : Type} (f : A → result B) (g : B → A)
    (l : list A) (ys : list B) :
  (∀ x y, f x = inr y → g y = x) → mapM f l = inr ys → g <$> ys = l.
Proof.
  intros Hg. revert ys. induction l as [|x l IH]; intros ys; simpl.
  - by intros [= <-].
  - destruct (f x) as [e|y] eqn:Hfx; simpl; [done|].
    destruct (mapM f l) as [e|ys']; simpl; [done|].
    intros [= <-]. simpl. f_equal; [by apply Hg | by apply IH].
Qed.

(** ** The selector *)

Section mmr.
Context `{Weaviate}.

Lemma cosineSimilarity_total (a b : list Q) :
  length a = length b → ∃ s, cosineSimilarity a b = inr s.
Proof.
  intros Hab. unfold cosineSimilarity. rewrite Hab, Nat.eqb_refl. simpl.
  destruct (_ || _); by eexists.
Qed.

Lemma cosineSimilarity_mismatch (a b : list Q) :
  length a ≠ length b → cosineSimilarity a b = inl DimensionMismatch.
Proof.
  intros Hab. unfold cosineSimilarity.
  by destruct (Nat.eqb_spec (length a) (length b)).
Qed.

Lemma pick_cases (best cand : nat * Q) :
  pick best cand = best ∨ pick best cand = cand.
Proof. unfold pick. repeat case_match; auto. Qed.

Lemma fold_left_pick_elem (rest : list (nat * Q)) (x : nat * Q) :
  fold_left pick rest x ∈ x :: rest.
Proof.
  revert x. induction rest as [|y rest IH]; intros x; simpl; [by left|].
  destruct (pick_cases x y) as [-> | ->].
  - pose proof (IH x) as [->|?]%elem_of_cons; [by left|by do 2 right].
  - right. apply IH.
Qed.

Lemma argmax_elem (scored : list (nat * Q)) (i : nat) :
  argmax scored = Some i → i ∈ scored.*1.
Proof.
  destruct scored as [|x rest]; simpl; [done|]. intros [= <-].
  apply (list_elem_of_fmap_2 fst (x :: rest)).
  apply fold_left_pick_elem.
Qed.

Lemma argmax_is_Some (scored : list (nat * Q)) :
  scored ≠ [] → is_Some (argmax scored).
Proof. destruct scored; [done|]. intros _. simpl. eauto. Qed.

Lemma mmrScore_fst cands sims lam sel i p :
  mmrScore cands sims lam sel i = inr p → p.1 = i.
Proof.
  unfold mmrScore.
  destruct (redundancy cands sel i) as [e|r]; simpl; [done|].
  destruct (nth_or_IndexError sims i) as [e|s]; simpl; [done|].
  by intros [= <-].
Qed.

Lemma mapM_mmrScore_fst cands sims lam sel rem scores :
  mapM (mmrScore cands sims lam sel) rem = inr scores → scores.*1 = rem.
Proof. apply mapM_fmap_inv. intros i p. apply mmrScore_fst. Qed.

Lemma filter_ne_Permutation (b : nat) (l : list nat) :
  NoDup l → b ∈ l → l ≡ₚ b :: filter (λ j, j ≠ b) l.
Proof.
  induction 1 as [|x l Hx Hl IH]; [by intros ?%elem_of_nil|].
  intros [->|Hb]%elem_of_cons.
  - rewrite filter_cons_False by naive_solver.
    constructor. clear IH Hl. induction l as [|y l IH]; [done|].
    apply not_elem_of_cons in Hx as [Hne Hx].
    rewrite filter_cons_True by done. constructor. by apply IH.
  - assert (x ≠ b) by (intros ->; done).
    rewrite filter_cons_True by done.
    rewrite (IH Hb) at 1. apply perm_swap.
Qed.

Lemma nth_or_IndexError_lt {A : Type} (l : list A) (i : nat) :
  i < length l → ∃ x, nth_or_IndexError l i = inr x ∧ l !! i = Some x.
Proof.
  intros [x Hx]%lookup_lt_is_Some_2. exists x.
  unfold nth_or_IndexError. by rewrite Hx.
Qed.

Lemma redundancy_total (d : nat) cands sel i :
  Forall (λ c, length c = d) cands → sel ≠ [] →
  (∀ j, j ∈ sel → j < length cands) → i < length cands →
  ∃ r, redundancy cands sel i = inr r.
Proof.
  intros Hd Hsel Hbound Hi. unfold redundancy.
  destruct (nth_or_IndexError_lt cands i Hi) as (ci & -> & Hci). simpl.
  destruct (mapM_total
    (λ j, cj ← nth_or_IndexError cands j; cosineSimilarity ci cj) sel)
    as [sims Hsims].
  { intros j Hj.
    destruct (nth_or_IndexError_lt cands j (Hbound j Hj)) as (cj & -> & Hcj).
    simpl. apply cosineSimilarity_total.
    rewrite Forall_forall in Hd.
    rewrite (Hd ci), (Hd cj); eauto using list_elem_of_lookup_2. }
  rewrite Hsims. simpl. apply mapM_length in Hsims.
  destruct sims; [by destruct sel|]. simpl. eauto.
Qed.

Lemma mmrScore_total (d : nat) cands sims lam sel i :
  Forall (λ c, length c = d) cands → length sims = length cands →
  sel ≠ [] → (∀ j, j ∈ sel → j < length cands) → i < length cands →
  ∃ p, mmrScore cands sims lam sel i = inr p.
Proof.
  intros Hd Hsims Hsel Hbound Hi. unfold mmrScore.
  destruct (redundancy_total d cands sel i) as [r ->]; [done..|]. simpl.
  destruct (nth_or_IndexError_lt sims i) as (s & -> & _); [lia|].
  simpl. eauto.
Qed.

(** The loop never stops for lack of fuel: started with at least as much
    fuel as there are remaining candidates, it returns, and what it
    returns extends [selected] by distinct members of [remaining] until
    [k] indices are selected or none remains. *)
Lemma mmr_loop_fuel (d : nat) cands sims lam k fuel : ∀ sel rem,
  Forall (λ c, length c = d) cands → length sims = length cands →
  sel ≠ [] → NoDup (sel ++ rem) →
  (∀ j, j ∈ sel ++ rem → j < length cands) →
  length rem ≤ fuel →
  ∃ out, mmr_loop fuel cands sims lam k sel rem = inr out
         ∧ NoDup out
         ∧ (∀ j, j ∈ out → j ∈ sel ++ rem)
         ∧ length out =
             length sel + Z.to_nat (k - Z.of_nat (length sel)) `min` length rem.
Proof.
  induction fuel as [|fuel IH]; intros sel rem Hd Hsims Hsel Hnd Hbound Hfuel.
  - destruct rem; [|simpl in Hfuel; lia]. exists sel. simpl.
    rewrite app_nil_r in *. split_and!; [done|done|done|lia].
  - simpl. destruct (_ && _) eqn:Hcond.
    + apply andb_true_iff in Hcond as [Hk Hrem].
      apply Z.ltb_lt in Hk. apply negb_true_iff, Nat.eqb_neq in Hrem.
      destruct (mapM_total (mmrScore cands sims lam sel) rem) as [scores Hsc].
      { intros i Hi. apply (mmrScore_total d); try done.
        - intros j Hj. apply Hbound. set_solver.
        - apply Hbound. set_solver. }
      rewrite Hsc. simpl.
      pose proof (mapM_mmrScore_fst _ _ _ _ _ _ Hsc) as Hfst.
      destruct (argmax_is_Some scores) as [best Hbest].
      { intros ->. by destruct rem. }
      rewrite Hbest. apply argmax_elem in Hbest. rewrite Hfst in Hbest.
      apply NoDup_app in Hnd as (Hnd1 & Hdisj & Hnd2).
      pose proof (filter_ne_Permutation best rem Hnd2 Hbest) as Hperm.
      assert ((sel ++ [best]) ++ filter (λ j, j ≠ best) rem ≡ₚ sel ++ rem)
        as Hperm'.
      { rewrite <- (assoc_L (++)). simpl. by rewrite <- Hperm. }
      destruct (IH (sel ++ [best]) (filter (λ j, j ≠ best) rem))
        as (out & -> & Hout1 & Hout2 & Hout3); try done.
      { by destruct sel. }
      { rewrite Hperm'. apply NoDup_app. done. }
      { intros j Hj. apply Hbound. by rewrite <- Hperm'. }
      { apply Permutation_length in Hperm. simpl in Hperm. lia. }
      exists out. split_and!; [done|done|..].
      * intros j Hj. rewrite <- Hperm'. by apply Hout2.
      * rewrite Hout3. apply Permutation_length in Hperm. simpl in Hperm.
        rewrite length_app. simpl. lia.
    + exists sel. apply andb_false_iff in Hcond.
      apply NoDup_app in Hnd as (Hnd1 & _ & _).
      split_and!; [done|done|by intros j Hj; apply elem_of_app; left|].
      destruct Hcond as [Hk | Hrem].
      * apply Z.ltb_ge in Hk. lia.
      * apply negb_false_iff, Nat.eqb_eq in Hrem. lia.
Qed.

Lemma maximal_marginal_relevance_spec (q : list Q) cands (k : Z) (lam : Q) :
  Forall (λ c, length c = length q) cands →
  ∃ sel, maximal_marginal_relevance q cands k lam = inr sel
         ∧ NoDup sel
         ∧ (∀ j, j ∈ sel → j < length cands)
         ∧ length sel = Z.to_nat k `min` length cands.
Proof.
  intros Hd. unfold maximal_marginal_relevance.
  destruct cands as [|c cs] eqn:Hcands.
  { exists []. split_and!; [done|constructor|by intros j ?%elem_of_nil|].
    simpl. lia. }
  rewrite <- Hcands in *. assert (0 < length cands) by (subst; simpl; lia).
  clear c cs Hcands.
  destruct (mapM_total (cosineSimilarity q) cands) as [sims Hsims].
  { intros c Hc. apply cosineSimilarity_total. symmetry.
    by apply (proj1 (Forall_forall _ _) Hd). }
  rewrite Hsims. simpl. apply mapM_length in Hsims.
  destruct (Z.leb_spec k 0) as [Hk|Hk].
  { exists []. split_and!; [done|constructor|by intros j ?%elem_of_nil|].
    simpl. lia. }
  set (n := length cands) in *.
  destruct (argmax_is_Some (zip (seq 0 n) sims)) as [first Hfirst].
  { destruct sims; [simpl in Hsims; lia|]. by destruct n; [lia|]. }
  rewrite Hfirst. apply argmax_elem in Hfirst.
  rewrite fst_zip in Hfirst by (rewrite length_seq; lia).
  pose proof (filter_ne_Permutation first (seq 0 n) (NoDup_seq 0 n) Hfirst)
    as Hperm.
  destruct (mmr_loop_fuel (length q) cands sims lam k n
              [first] (filter (λ j, j ≠ first) (seq 0 n)))
    as (out & -> & Hout1 & Hout2 & Hout3); try done.
  { simpl. rewrite <- Hperm. apply NoDup_seq. }
  { intros j Hj. simpl in Hj. rewrite <- Hperm in Hj.
    apply elem_of_seq in Hj. lia. }
  { apply Permutation_length in Hperm. rewrite length_seq in Hperm.
    simpl in Hperm. lia. }
  exists out. split_and!; [done|done|..].
  - intros j Hj. apply Hout2 in Hj. simpl in Hj. rewrite <- Hperm in Hj.
    apply elem_of_seq in Hj. lia.
  - rewrite Hout3. apply Permutation_length in Hperm.
    rewrite length_seq in Hperm. simpl in *. lia.
Qed.
End mmr.

(** ** Running computations in [M] *)

Lemma bind_run {A B : Type} (m : M A) (f : A → M B) (w : world) :
  (m ≫= f) w =
  match m w with
  | (inl e, w') => (inl e, w')
  | (inr x, w') => f x w'
  end.
Proof. reflexivity. Qed.

Lemma bind_inr {A B : Type} (m : M A) (f : A → M B) (w w' : world) (x : A) :
  m w = (inr x, w') → (m ≫= f) w = f x w'.
Proof. intros Hm. by rewrite bind_run, Hm. Qed.

Lemma bind_inl {A B : Type} (m : M A) (f : A → M B) (w w' : world) (e : exn) :
  m w = (inl e, w') → (m ≫= f) w = (inl e, w').
Proof. intros Hm. by rewrite bind_run, Hm. Qed.

Lemma lift_inr {A B : Type} (r : result A) (f : A → M B) (w : world) (x : A) :
  r = inr x → (lift r ≫= f) w = f x w.
Proof. by intros ->. Qed.

Lemma lift_inr_run {A B : Type} (x : A) (f : A → M B) (w : world) :
  (lift (inr x) ≫= f) w = f x w.
Proof. reflexivity. Qed.

Lemma lift_inl_run {A B : Type} (e : exn) (f : A → M B) (w : world) :
  (lift (inl e) ≫= f) w = (inl e, w).
Proof. reflexivity. Qed.

Lemma lift_inr_run_fun {A B : Type} (x : A) (f : A → M B) :
  lift (inr x) ≫= f = f x.
Proof. reflexivity. Qed.

Lemma ret_bind_run {A B : Type} (x : A) (f : A → M B) (w : world) :
  (mret x ≫= f) w = f x w.
Proof. reflexivity. Qed.

Lemma sent_since_app (w w' : world) (l : list request) :
  calls w' = calls w ++ l → sent_since w w' = l.
Proof. intros Hc. unfold sent_since. by rewrite Hc, drop_app_length. Qed.

Section run.
Context `{Weaviate}.

Lemma send_run (r : request) (w : world) :
  send r w =
  (match svc_fault (calls w) r with
   | Some msg => inl (ServiceError msg)
   | None => inr ()
   end, {| calls := calls w ++ [r]; uuids_drawn := uuids_drawn w |}).
Proof. unfold send. by destruct (svc_fault _ _). Qed.

Lemma draw_uuid4_run {B : Type} (f : Z → M B) (w : world) :
  (draw_uuid4 ≫= f) w =
  f (uuid4 (uuids_drawn w))
    {| calls := calls w; uuids_drawn := S (uuids_drawn w) |}.
Proof. reflexivity. Qed.

Lemma do_run (q : GetBuilder) (w : world) :
  do q w =
  (match svc_fault (calls w) (QueryDo q) with
   | Some msg => inl (ServiceError msg)
   | None => inr (svc_do (calls w) q)
   end, {| calls := calls w ++ [QueryDo q]; uuids_drawn := uuids_drawn w |}).
Proof. unfold do. rewrite send_run. by destruct (svc_fault _ _). Qed.

Lemma schema_exists_run (index_name : string) (w : world) :
  schema_exists index_name w =
  (match svc_fault (calls w) (SchemaExists index_name) with
   | Some msg => inl (ServiceError msg)
   | None => inr (svc_exists (calls w) index_name)
   end,
   {| calls := calls w ++ [SchemaExists index_name];
      uuids_drawn := uuids_drawn w |}).
Proof. unfold schema_exists. rewrite send_run. by destruct (svc_fault _ _). Qed.
End run.

(** ** What a computation sends and raises *)

Section behaves.
Context `{Weaviate} (P : request → Prop) (E : exn → Prop).

Lemma raises_only_inr {A : Type} (x : A) : raises_only E (inr x).
Proof. by intros e. Qed.

Lemma raises_only_inl {A : Type} (e : exn) : E e → raises_only (A:=A) E (inl e).
Proof. by intros He e' [= <-]. Qed.

Lemma raises_only_bind {A B : Type} (r : result A) (f : A → result B) :
  raises_only E r → (∀ x, r = inr x → raises_only E (f x)) →
  raises_only E (r ≫= f).
Proof.
  intros Hr Hf e. destruct r as [e'|x]; simpl.
  - intros [= <-]. by apply Hr.
  - by apply Hf.
Qed.

Lemma raises_only_fmap {A B : Type} (r : result A) (f : A → B) :
  raises_only E r → raises_only E (f <$> r).
Proof.
  intros Hr e. destruct r as [e'|x]; simpl; [|done].
  intros [= <-]. by apply Hr.
Qed.

Lemma raises_only_mapM {A B : Type} (f : A → result B) (l : list A) :
  (∀ x, x ∈ l → raises_only E (f x)) → raises_only E (mapM f l).
Proof.
  induction l as [|x l IH]; intros Hf; simpl; [apply raises_only_inr|].
  apply raises_only_bind; [apply Hf; by left|]. intros y _.
  apply raises_only_bind; [|intros; apply raises_only_inr].
  apply IH. intros z Hz. apply Hf. by right.
Qed.

Lemma behaves_ret {A : Type} (x : A) : behaves P E (mret x : M A).
Proof.
  intros w. split; [|by intros e]. exists []. by rewrite app_nil_r.
Qed.

Lemma behaves_raise {A : Type} (e : exn) : E e → behaves P E (raise (A:=A) e).
Proof.
  intros He w. split; [|by intros e' [= <-]].
  exists []. by rewrite app_nil_r.
Qed.

Lemma behaves_lift {A : Type} (r : result A) :
  raises_only E r → behaves P E (lift r).
Proof. intros Hr w. split; [|done]. exists []. by rewrite app_nil_r. Qed.

Lemma behaves_bind {A B : Type} (m : M A) (f : A → M B) :
  behaves P E m → (∀ x, behaves P E (f x)) → behaves P E (m ≫= f).
Proof.
  intros Hm Hf w. rewrite bind_run.
  destruct (Hm w) as [(l & Hl & HP) HE].
  destruct (m w) as [[e|x] w']; simpl in *.
  - split; [by exists l|]. intros e' [= <-]. by apply HE.
  - destruct (Hf x w') as [(l' & Hl' & HP') HE']. split; [|done].
    exists (l ++ l'). rewrite Hl', Hl, (assoc_L (++)).
    split; [done|]. by apply Forall_app.
Qed.

Hypothesis service_errors : ∀ msg, E (ServiceError msg).

Lemma behaves_send (r : request) : P r → behaves P E (send r).
Proof using service_errors.
  intros Hr w. rewrite send_run. simpl. split.
  - exists [r]. split; [done|]. by constructor.
  - destruct (svc_fault _ _); intros e [= <-]. apply service_errors.
Qed.

Lemma behaves_do (q : GetBuilder) : P (QueryDo q) → behaves P E (do q).
Proof using service_errors.
  intros Hq w. rewrite do_run. simpl. split.
  - exists [QueryDo q]. split; [done|]. by constructor.
  - destruct (svc_fault _ _); intros e [= <-]. apply service_errors.
Qed.

Lemma behaves_schema_exists (index_name : string) :
  P (SchemaExists index_name) → behaves P E (schema_exists index_name).
Proof using service_errors.
  intros Hq w. rewrite schema_exists_run. simpl. split.
  - eexists [_]. split; [done|]. by constructor.
  - destruct (svc_fault _ _); intros e [= <-]. apply service_errors.
Qed.

Lemma behaves_draw_uuid4 : behaves P E draw_uuid4.
Proof.
  intros w. split; [|by intros e]. exists []. simpl. by rewrite app_nil_r.
Qed.

Lemma behaves_with_batch {A : Type} (body : M A) :
  P BatchEnter → P BatchExit → behaves P E body →
  behaves P E (with_batch body).
Proof using service_errors.
  intros Henter Hexit Hbody w. unfold with_batch. rewrite !send_run.
  destruct (svc_fault (calls w) BatchEnter) as [msg|]; simpl.
  { split; [|intros e [= <-]; apply service_errors].
    exists [BatchEnter]. split; [done|]. by constructor. }
  match goal with |- context [body ?w1] =>
    destruct (Hbody w1) as [(l & Hl & HP) HE]; destruct (body w1) as [r w2]
  end.
  rewrite send_run. simpl in *.
  destruct (svc_fault (calls w2) BatchExit) as [msg|]; simpl.
  - split; [|intros e [= <-]; apply service_errors].
    exists ([BatchEnter] ++ l ++ [BatchExit]).
    rewrite Hl, <- !(assoc_L (++)). split; [done|].
    repeat (apply Forall_app; split); by try constructor.
  - split; [|done].
    exists ([BatchEnter] ++ l ++ [BatchExit]).
    rewrite Hl, <- !(assoc_L (++)). split; [done|].
    repeat (apply Forall_app; split); by try constructor.
Qed.
End behaves.

(** ** The query builder *)

Lemma _build_query_obj_eq (self : WeaviateVectorStore) (kw : gmap string pyval) :
  _build_query_obj self kw =
  inr {| q_class := _index_name self; q_properties := _query_attrs self;
         q_calls := built_calls kw |}.
Proof.
  unfold _build_query_obj, built_calls. fold (hybrid_kwargs kw).
  generalize (hybrid_kwargs kw). intros h.
  unfold method_map, foldM, apply_method, truthy_arg, query_get.
  cbn [snd fst List.filter].
  destruct (truthy (kwargs_get kw "where_filter"));
    destruct (truthy (kwargs_get kw "tenant"));
    destruct (truthy (kwargs_get kw "additional"));
    destruct (truthy (kwargs_get kw "limit"));
    cbn; destruct (existsb truthy h.*2); reflexivity.
Qed.

Lemma hybrid_kwargs_elem (kw : gmap string pyval) (name : string) (v : pyval) :
  name ∈ hybrid_args → kw !! name = Some v → truthy v = true →
  (name, v) ∈ hybrid_kwargs kw ∧ existsb truthy (hybrid_kwargs kw).*2 = true.
Proof.
  intros Hname Hkw Hv.
  assert ((name, v) ∈ hybrid_kwargs kw) as Hin.
  { unfold hybrid_kwargs. apply list_elem_of_fmap. exists name.
    unfold kwargs_get. rewrite Hkw. split; [done|].
    apply list_elem_of_In, filter_In. split; [by apply list_elem_of_In|].
    unfold kwargs_get. by rewrite Hkw. }
  split; [done|]. apply existsb_exists. exists v. split; [|done].
  apply list_elem_of_In. by apply (list_elem_of_fmap_2 snd _ (name, v)).
Qed.

(** ** No other path raises [EmbeddingRequired] *)

Section not_EmbeddingRequired.
Context `{Weaviate}.

Lemma py_getitem_ok v key :
  raises_only not_EmbeddingRequired
    (py_getitem v key).
Proof. unfold py_getitem. prim_not_ER. Qed.

Lemma py_pop_ok v key : raises_only not_EmbeddingRequired (py_pop v key).
Proof. unfold py_pop. prim_not_ER. Qed.

Lemma py_iter_ok v : raises_only not_EmbeddingRequired (py_iter v).
Proof. unfold py_iter. prim_not_ER. Qed.

Lemma as_number_ok v : raises_only not_EmbeddingRequired (as_number v).
Proof. unfold as_number. prim_not_ER. Qed.

Lemma nth_or_IndexError_ok {A : Type} (l : list A) i :
  raises_only not_EmbeddingRequired (nth_or_IndexError l i).
Proof. unfold nth_or_IndexError. prim_not_ER. Qed.

Lemma cosineSimilarity_ok a b :
  raises_only not_EmbeddingRequired
    (cosineSimilarity a b).
Proof. unfold cosineSimilarity. prim_not_ER. Qed.

Lemma max_of_ok l : raises_only not_EmbeddingRequired (max_of l).
Proof. unfold max_of. prim_not_ER. Qed.

Lemma bind_formals_ok formals kw :
  raises_only not_EmbeddingRequired
    (bind_formals formals kw).
Proof. unfold bind_formals. prim_not_ER. Qed.

Lemma call_kwargs_ok explicit kw :
  raises_only not_EmbeddingRequired
    (call_kwargs explicit kw).
Proof.
  unfold call_kwargs. apply raises_only_bind; [apply bind_formals_ok|].
  intros; apply raises_only_inr.
Qed.

Lemma response_payload_ok self response :
  raises_only not_EmbeddingRequired
    (response_payload self response).
Proof.
  unfold response_payload.
  repeat (apply raises_only_bind; [apply py_getitem_ok|intros ? _]).
  apply py_getitem_ok.
Qed.

Lemma decode_ok text_key res :
  raises_only not_EmbeddingRequired
    (decode text_key res).
Proof.
  unfold decode. apply raises_only_bind; [apply py_pop_ok|].
  intros [] _. apply raises_only_inr.
Qed.

Lemma decode_payload_ok {A : Type} self response
    (f : pyval → result A) :
  (∀ res, raises_only not_EmbeddingRequired (f res)) →
  raises_only not_EmbeddingRequired (payload ← response_payload self response;
      records ← py_iter payload; mapM f records).
Proof.
  intros Hf.
  apply raises_only_bind; [apply response_payload_ok|intros ? _].
  apply raises_only_bind; [apply py_iter_ok|intros ? _].
  apply raises_only_mapM. intros; apply Hf.
Qed.

Lemma as_vector_ok v : raises_only not_EmbeddingRequired (as_vector v).
Proof.
  unfold as_vector. apply raises_only_bind; [apply py_iter_ok|intros ? _].
  apply raises_only_mapM. intros; apply as_number_ok.
Qed.

Lemma redundancy_ok cands sel i :
  raises_only not_EmbeddingRequired
    (redundancy cands sel i).
Proof.
  unfold redundancy.
  apply raises_only_bind; [apply nth_or_IndexError_ok|intros ? _].
  apply raises_only_bind; [|intros ? _; apply max_of_ok].
  apply raises_only_mapM. intros ? _.
  apply raises_only_bind; [apply nth_or_IndexError_ok|intros ? _].
  apply cosineSimilarity_ok.
Qed.

Lemma mmrScore_ok cands sims lam sel i :
  raises_only not_EmbeddingRequired
    (mmrScore cands sims lam sel i).
Proof.
  unfold mmrScore.
  apply raises_only_bind; [apply redundancy_ok|intros ? _].
  apply raises_only_bind; [apply nth_or_IndexError_ok|intros ? _].
  apply raises_only_inr.
Qed.

Lemma mmr_loop_ok fuel cands sims lam k : ∀ sel rem,
  raises_only not_EmbeddingRequired (mmr_loop fuel cands sims lam k sel rem).
Proof.
  induction fuel as [|fuel IH]; intros sel rem; simpl;
    [apply raises_only_inr|].
  case_match; [|apply raises_only_inr].
  apply raises_only_bind.
  { apply raises_only_mapM. intros; apply mmrScore_ok. }
  intros scores _. case_match; [apply IH|apply raises_only_inr].
Qed.

Lemma maximal_marginal_relevance_ok q cands k lam :
  raises_only not_EmbeddingRequired (maximal_marginal_relevance q cands k lam).
Proof.
  unfold maximal_marginal_relevance.
  destruct cands as [|c cs]; [apply raises_only_inr|].
  apply raises_only_bind.
  { apply raises_only_mapM. intros; apply cosineSimilarity_ok. }
  intros sims _. case_match; [apply raises_only_inr|].
  case_match; [apply mmr_loop_ok|apply raises_only_inr].
Qed.

Lemma mmr_docs_ok text_key sel : ∀ payload,
  raises_only not_EmbeddingRequired
    (mmr_docs text_key payload sel).
Proof.
  induction sel as [|idx sel IH]; intros payload; simpl;
    [apply raises_only_inr|].
  apply raises_only_bind; [apply nth_or_IndexError_ok|intros ? _].
  apply raises_only_bind; [apply py_pop_ok|intros [] _].
  apply raises_only_bind; [apply py_pop_ok|intros [] _].
  apply raises_only_bind; [apply IH|intros ? _]. apply raises_only_inr.
Qed.

Lemma do_fine q : behaves (λ _, True) not_EmbeddingRequired (do q).
Proof. apply behaves_do; [intros; not_ER|done]. Qed.

Lemma _perform_search_fine self query k kw :
  is_Some (_embedding self) →
    behaves (λ _, True) not_EmbeddingRequired
      (_perform_search self query k kw).
Proof.
  intros [e He]. unfold _perform_search. rewrite He.
  apply behaves_bind; [apply behaves_lift, call_kwargs_ok|intros kw'].
  rewrite _build_query_obj_eq.
  apply behaves_bind; [apply behaves_lift, raises_only_inr|intros q].
  apply behaves_bind; [apply do_fine|intros response].
  case_match; [apply behaves_raise; not_ER|apply behaves_ret].
Qed.

Lemma similarity_search_fine self query k kw :
  is_Some (_embedding self) →
    behaves (λ _, True) not_EmbeddingRequired
      (similarity_search self query k kw).
Proof.
  intros He. unfold similarity_search.
  apply behaves_bind; [by apply _perform_search_fine|intros response].
  apply behaves_lift, decode_payload_ok, decode_ok.
Qed.

Lemma max_marginal_relevance_search_by_vector_fine self emb k fetch_k lam kw :
  behaves (λ _, True) not_EmbeddingRequired
    (max_marginal_relevance_search_by_vector self emb k fetch_k lam kw).
Proof.
  unfold max_marginal_relevance_search_by_vector.
  rewrite _build_query_obj_eq.
  apply behaves_bind; [apply behaves_lift, raises_only_inr|intros q].
  apply behaves_bind; [apply do_fine|intros response].
  apply behaves_lift.
  apply raises_only_bind; [apply response_payload_ok|intros ? _].
  apply raises_only_bind; [apply py_iter_ok|intros payload _].
  apply raises_only_bind.
  { apply raises_only_mapM. intros r _.
    apply raises_only_bind; [apply py_getitem_ok|intros ? _].
    apply py_getitem_ok. }
  intros embs _. apply raises_only_bind.
  { apply raises_only_mapM. intros; apply as_vector_ok. }
  intros vectors _.
  apply raises_only_bind; [apply maximal_marginal_relevance_ok|intros ? _].
  apply mmr_docs_ok.
Qed.

Lemma max_marginal_relevance_search_fine self query k fetch_k lam kw :
  is_Some (_embedding self) →
  behaves (λ _, True) not_EmbeddingRequired
    (max_marginal_relevance_search self query k fetch_k lam kw).
Proof.
  intros [e He]. unfold max_marginal_relevance_search. rewrite He.
  apply behaves_bind; [apply behaves_lift, bind_formals_ok|intros _].
  apply max_marginal_relevance_search_by_vector_fine.
Qed.
End not_EmbeddingRequired.

(** ** Insertion *)

Lemma set_items_lookup (f : pyval → pyval) (m dp : gmap string pyval)
    (key : string) :
  set_items f m dp !! key =
  match m !! key with Some val => Some (f val) | None => dp !! key end.
Proof.
  unfold set_items. revert key.
  apply (map_fold_weak_ind
    (λ r (m : gmap string pyval), ∀ key,
       r !! key = match m !! key with
                  | Some val => Some (f val) | None => dp !! key end)).
  - intros key. by rewrite lookup_empty.
  - intros i x m' r Hi IH key. destruct (decide (i = key)) as [->|Hne].
    + by rewrite !lookup_insert_eq.
    + rewrite !lookup_insert_ne by done. apply IH.
Qed.

Section add_texts.
Context `{Weaviate}.
Variables (self : WeaviateVectorStore)
          (metadatas : option (list (gmap string pyval)))
          (kw : gmap string pyval) (embeddings : option (list (list Q))).

Lemma add_texts_objects_length texts : ∀ drawn i objs,
  add_texts_objects self metadatas kw embeddings drawn i texts = inr objs →
  length objs = length texts.
Proof.
  induction texts as [|text texts IH]; intros drawn i objs; simpl.
  - by intros [= <-].
  - destruct (add_texts_object _ _ _ _ _ _ _) as [e|obj]; simpl; [done|].
    destruct (add_texts_objects _ _ _ _ _ _ _) as [e|objs'] eqn:Hobjs;
      simpl; [done|].
    intros [= <-]. simpl. by rewrite (IH _ _ _ Hobjs).
Qed.

Lemma add_texts_objects_lookup texts : ∀ drawn i objs j text,
  add_texts_objects self metadatas kw embeddings drawn i texts = inr objs →
  texts !! j = Some text →
  ∃ obj, objs !! j = Some obj
         ∧ add_texts_object self metadatas kw embeddings
             (drawn + j) (i + j) text = inr obj.
Proof.
  induction texts as [|t texts IH]; intros drawn i objs j text; simpl;
    [done|].
  destruct (add_texts_object _ _ _ _ _ _ _) as [e|obj] eqn:Hobj; simpl;
    [done|].
  destruct (add_texts_objects _ _ _ _ _ _ _) as [e|objs'] eqn:Hobjs;
    simpl; [done|].
  intros [= <-]. destruct j as [|j]; simpl.
  - intros [= <-]. exists obj. by rewrite !Nat.add_0_r.
  - intros Hj. destruct (IH _ _ _ _ _ Hobjs Hj) as (obj' & ? & Hobj').
    exists obj'. split; [done|].
    by rewrite <- !Nat.add_succ_comm.
Qed.

Lemma add_texts_object_total drawn i text :
  (∀ ms, metadatas = Some ms → i < length ms) →
  (∀ v, supplied_ids kw = Some v → ∃ l, v = VList l ∧ i < length l) →
  (∀ es, embeddings = Some es → es = [] ∨ i < length es) →
  ∃ obj, add_texts_object self metadatas kw embeddings drawn i text = inr obj.
Proof.
  intros Hmd Hids Hemb. unfold add_texts_object.
  assert (∃ md, metadata_at metadatas i = inr md) as [md ->].
  { unfold metadata_at. destruct metadatas as [ms|]; [|by eexists].
    destruct (nth_or_IndexError_lt ms i) as (m & -> & _); [by apply Hmd|].
    simpl. by eexists. }
  assert (∃ id, chosen_id kw i (uuid4 drawn) = inr id) as [id ->].
  { unfold chosen_id, supplied_ids in *.
    destruct (kw !! "uuids") as [v|].
    - destruct (Hids v) as (l & -> & Hl); [done|]. simpl.
      apply lookup_lt_is_Some_2 in Hl as [x ->]. by eexists.
    - destruct (kw !! "ids") as [v|]; [|by eexists].
      destruct (Hids v) as (l & -> & Hl); [done|]. simpl.
      apply lookup_lt_is_Some_2 in Hl as [x ->]. by eexists. }
  assert (∃ vec, vector_at embeddings i = inr vec) as [vec ->].
  { unfold vector_at. destruct embeddings as [[|e es]|]; [by eexists| |by eexists].
    destruct (Hemb (e :: es)) as [|Hi]; [done..|].
    destruct (nth_or_IndexError_lt (e :: es) i Hi) as (x & -> & _).
    simpl. by eexists. }
  simpl. by eexists.
Qed.

Lemma add_texts_objects_total texts : ∀ drawn i,
  (∀ ms, metadatas = Some ms → i + length texts ≤ length ms) →
  (∀ v, supplied_ids kw = Some v →
        ∃ l, v = VList l ∧ i + length texts ≤ length l) →
  (∀ es, embeddings = Some es → es = [] ∨ i + length texts ≤ length es) →
  ∃ objs,
    add_texts_objects self metadatas kw embeddings drawn i texts = inr objs.
Proof.
  induction texts as [|text texts IH]; intros drawn i Hmd Hids Hemb; simpl;
    [by eexists|].
  simpl in *.
  destruct (add_texts_object_total drawn i text) as [obj ->].
  { intros ms Hms. specialize (Hmd ms Hms). lia. }
  { intros v Hv. destruct (Hids v Hv) as (l & -> & ?). exists l.
    split; [done|lia]. }
  { intros es Hes. destruct (Hemb es Hes); [by left|right; lia]. }
  destruct (IH (S drawn) (S i)) as [objs ->].
  { intros ms Hms. specialize (Hmd ms Hms). lia. }
  { intros v Hv. destruct (Hids v Hv) as (l & -> & ?). exists l.
    split; [done|lia]. }
  { intros es Hes. destruct (Hemb es Hes); [by left|right; lia]. }
  simpl. by eexists.
Qed.

Hypothesis no_fault : ∀ h r, svc_fault h r = None.

Lemma add_texts_step_run i text w obj :
  add_texts_object self metadatas kw embeddings (uuids_drawn w) i text
    = inr obj →
  add_texts_step self metadatas kw embeddings i text w =
  (inr (do_uuid obj),
   {| calls := calls w ++ [BatchAddDataObject obj];
      uuids_drawn := S (uuids_drawn w) |}).
Proof using no_fault.
  unfold add_texts_object, add_texts_step. intros Hobj.
  destruct (metadata_at metadatas i) as [e|md]; simpl in Hobj; [done|].
  destruct (chosen_id kw i _) as [e|id] eqn:Hid; simpl in Hobj; [done|].
  destruct (vector_at embeddings i) as [e|vec] eqn:Hvec; simpl in Hobj;
    [done|].
  injection Hobj as <-.
  rewrite lift_inr_run. cbv zeta. rewrite draw_uuid4_run, Hid, lift_inr_run.
  rewrite lift_inr_run, bind_run, send_run, no_fault. reflexivity.
Qed.

Lemma add_texts_loop_run texts : ∀ i ids w objs,
  add_texts_objects self metadatas kw embeddings (uuids_drawn w) i texts
    = inr objs →
  add_texts_loop self metadatas kw embeddings i texts ids w =
  (inr (ids ++ (do_uuid <$> objs)),
   {| calls := calls w ++ (BatchAddDataObject <$> objs);
      uuids_drawn := uuids_drawn w + length texts |}).
Proof using no_fault.
  induction texts as [|text texts IH]; intros i ids w objs; simpl.
  - intros [= <-]. simpl. rewrite !app_nil_r, Nat.add_0_r. by destruct w.
  - destruct (add_texts_object _ _ _ _ _ _ _) as [e|obj] eqn:Hobj; simpl;
      [done|].
    destruct (add_texts_objects _ _ _ _ _ _ _) as [e|objs'] eqn:Hobjs;
      simpl; [done|].
    intros [= <-]. rewrite bind_run, (add_texts_step_run _ _ _ _ Hobj).
    rewrite (IH _ _ _ objs'); [|done]. simpl.
    rewrite <- !(assoc_L (++)). simpl. do 2 f_equal. lia.
Qed.
End add_texts.

Section add_texts_run.
Context `{Weaviate}.
Hypothesis no_fault : ∀ h r, svc_fault h r = None.

Lemma add_texts_run self texts metadatas kw w objs :
  add_texts_objects self metadatas kw (add_texts_embeddings self texts)
                    (uuids_drawn w) 0 texts = inr objs →
  add_texts self texts metadatas kw w =
  (inr (do_uuid <$> objs),
   {| calls := calls w ++ [BatchEnter] ++ (BatchAddDataObject <$> objs)
                       ++ [BatchExit];
      uuids_drawn := uuids_drawn w + length texts |}).
Proof using no_fault.
  intros Hobjs. unfold add_texts, with_batch.
  fold (add_texts_embeddings self texts).
  rewrite send_run, no_fault.
  erewrite add_texts_loop_run; [|done|exact Hobjs].
  rewrite send_run, no_fault. simpl.
  by rewrite <- !(assoc_L (++)).
Qed.
End add_texts_run.

(** ** Decoding *)

Lemma mapM_fmap {A B C : Type} (f : B → result C) (g : A → B) (l : list A) :
  mapM f (g <$> l) = mapM (λ x, f (g x)) l.
Proof. induction l as [|x l IH]; csimpl; [done|]. by rewrite IH. Qed.

Lemma as_vector_of_vector (v : list Q) : as_vector (of_vector v) = inr v.
Proof.
  unfold as_vector, of_vector. simpl. rewrite mapM_fmap.
  rewrite (mapM_ext_map _ id); [by rewrite list_fmap_id|done].
Qed.

Lemma decode_VDict (text_key : string) (m : gmap string pyval) :
  is_Some (m !! text_key) →
  decode text_key (VDict m) = inr (spec_document text_key m).
Proof. intros [text Ht]. unfold decode, spec_document. simpl. by rewrite Ht. Qed.

Lemma mapM_decode (text_key : string) (ms : list (gmap string pyval)) :
  (∀ m, m ∈ ms → is_Some (m !! text_key)) →
  mapM (decode text_key) (VDict <$> ms) = inr (spec_document text_key <$> ms).
Proof.
  intros Hms. rewrite mapM_fmap. apply mapM_ext_map.
  intros m Hm. by apply decode_VDict, Hms.
Qed.

(** A record carries the score [score] under [_additional]. *)
Lemma decode_with_score_VDict (text_key : string) (m add : gmap string pyval)
    (score : pyval) :
  is_Some (m !! text_key) → text_key ≠ "_additional" →
  m !! "_additional" = Some (VDict add) → add !! "score" = Some score →
  decode_with_score text_key (VDict m) = inr (spec_document text_key m, score).
Proof.
  intros [text Ht] Hne Hadd Hscore. unfold decode_with_score, spec_document.
  simpl. rewrite Ht. simpl. rewrite lookup_delete_ne by done.
  rewrite Hadd. simpl. by rewrite Hscore.
Qed.

Lemma mapM_Forall2 {A B : Type} (f : A → result B) (l : list A) (ys : list B) :
  Forall2 (λ x y, f x = inr y) l ys → mapM f l = inr ys.
Proof.
  induction 1 as [|x y l ys Hxy _ IH]; simpl; [done|]. by rewrite Hxy, IH.
Qed.

Lemma mmr_docs_run (text_key : string) (ms : list (gmap string pyval))
    (sel : list nat) : ∀ payload : list pyval,
  text_key ≠ "_additional" → NoDup sel →
  (∀ idx, idx ∈ sel →
     ∃ m, ms !! idx = Some m ∧ payload !! idx = Some (VDict m)
          ∧ is_Some (m !! text_key) ∧ is_Some (m !! "_additional")) →
  mmr_docs text_key payload sel =
  inr ((λ idx, spec_document_mmr text_key (ms !!! idx)) <$> sel).
Proof.
  intros payload Hne. revert payload.
  induction sel as [|idx sel IH]; intros payload Hnd Hsel; simpl; [done|].
  apply NoDup_cons in Hnd as [Hidx Hnd].
  destruct (Hsel idx) as (m & Hm & Hp & [text Ht] & [add Hadd]); [by left|].
  unfold nth_or_IndexError. rewrite Hp. simpl. rewrite Ht. simpl.
  rewrite lookup_delete_ne by done. rewrite Hadd. simpl.
  rewrite IH; [| done |].
  - simpl. unfold spec_document_mmr at 2.
    rewrite (list_lookup_total_correct _ _ _ Hm), Ht. done.
  - intros idx' Hidx'.
    destruct (Hsel idx') as (m' & Hm' & Hp' & ? & ?); [by right|].
    exists m'. split_and!; [done| |done|done].
    rewrite list_lookup_insert_ne; [done|]. intros ->. done.
Qed.

Lemma call_kwargs_fresh (explicit : list (string * pyval))
    (kw : gmap string pyval) :
  Forall (λ name, kw !! name = None) explicit.*1 →
  call_kwargs explicit kw = inr (list_to_map explicit ∪ kw).
Proof.
  intros Hfresh. unfold call_kwargs, bind_formals.
  replace (List.filter _ explicit.*1) with (@nil string); [done|].
  symmetry. induction Hfresh as [|name names Hname _ IH]; simpl; [done|].
  rewrite Hname. rewrite bool_decide_eq_false_2 by (by intros [? [=]]). done.
Qed.

Lemma bind_formals_fresh (formals : list string) (kw : gmap string pyval) :
  Forall (λ name, kw !! name = None) formals → bind_formals formals kw = inr ().
Proof.
  intros Hfresh. unfold bind_formals.
  replace (List.filter _ formals) with (@nil string); [done|].
  symmetry. induction Hfresh as [|name names Hname _ IH]; simpl; [done|].
  rewrite Hname. rewrite bool_decide_eq_false_2 by (by intros [? [=]]). done.
Qed.

Section answered.
Context `{Weaviate}.
Variables (self : WeaviateVectorStore) (w : world)
          (response : gmap string pyval) (ms : list (gmap string pyval)).
Hypothesis no_fault : ∀ q, svc_fault (calls w) (QueryDo q) = None.
Hypothesis answer : ∀ q, svc_do (calls w) q = response.
Hypothesis no_errors : response !! "errors" = None.
Hypothesis payload :
  response_payload self response = inr (VList (VDict <$> ms)).
Hypothesis has_text : ∀ m, m ∈ ms → is_Some (m !! _text_key self).

Lemma _perform_search_run e query k kw :
  _embedding self = Some e →
  Forall (λ name, kw !! name = None) ["query"; "limit"; "vector"] →
  ∃ q, _perform_search self query k kw w =
       (inr response,
        {| calls := calls w ++ [QueryDo q]; uuids_drawn := uuids_drawn w |}).
Proof using no_fault answer no_errors.
  intros He Hkw. unfold _perform_search. rewrite He.
  rewrite call_kwargs_fresh by done. rewrite lift_inr_run.
  rewrite _build_query_obj_eq, lift_inr_run.
  rewrite bind_run, do_run, no_fault, answer, no_errors. by eexists.
Qed.

Lemma similarity_search_run e query k kw :
  _embedding self = Some e →
  Forall (λ name, kw !! name = None) ["query"; "limit"; "vector"] →
  (similarity_search self query k kw w).1 =
  inr (spec_document (_text_key self) <$> ms).
Proof using no_fault answer no_errors payload has_text.
  intros He Hkw. unfold similarity_search.
  destruct (_perform_search_run e query k kw He Hkw) as [q Hq].
  rewrite bind_run, Hq. unfold lift. simpl. rewrite payload. simpl.
  by rewrite mapM_decode.
Qed.

Lemma similarity_search_with_score_run e query k kw scores :
  _embedding self = Some e →
  Forall (λ name, kw !! name = None)
         ["query"; "limit"; "vector"; "additional"] →
  _text_key self ≠ "_additional" →
  Forall2 (λ m score, ∃ add, m !! "_additional" = Some (VDict add)
                             ∧ add !! "score" = Some score) ms scores →
  (similarity_search_with_score self query k kw w).1 =
  inr (zip (spec_document (_text_key self) <$> ms) scores).
Proof using no_fault answer no_errors payload has_text.
  intros He Hkw Hne Hscores. unfold similarity_search_with_score.
  rewrite call_kwargs_fresh by (repeat constructor; by decompose_Forall).
  rewrite lift_inr_run.
  edestruct (_perform_search_run e query k) as [q Hq]; [done| |].
  2: { rewrite bind_run, Hq, no_errors. unfold lift. simpl.
       rewrite payload. simpl. rewrite mapM_fmap.
       erewrite mapM_Forall2; [done|].
       clear -Hscores Hne has_text.
       induction Hscores as [|m score ms' scores' (add & Hadd & Hsc) _ IH];
         simpl; constructor.
       - apply (decode_with_score_VDict _ _ add); [|done..].
         apply has_text. by left.
       - apply IH. intros m' Hm'. apply has_text. by right. }
  decompose_Forall. repeat constructor; simpl.
  all: rewrite lookup_union_r by done; done.
Qed.

Lemma max_marginal_relevance_search_by_vector_run embedding k fetch_k lam kw
    (vecs : list (list Q)) :
  _text_key self ≠ "_additional" →
  Forall2 (λ m vec, ∃ add v, m !! "_additional" = Some (VDict add)
                             ∧ add !! "vector" = Some v
                             ∧ as_vector v = inr vec) ms vecs →
  Forall (λ vec, length vec = length embedding) vecs →
  ∃ sel, maximal_marginal_relevance embedding vecs k lam = inr sel
    ∧ (max_marginal_relevance_search_by_vector
         self embedding k fetch_k lam kw w).1 =
      inr ((λ idx, spec_document_mmr (_text_key self) (ms !!! idx)) <$> sel).
Proof using no_fault answer payload has_text.
  intros Hne Hvecs Hdim.
  destruct (maximal_marginal_relevance_spec embedding vecs k lam Hdim)
    as (sel & Hsel & Hnd & Hbound & _).
  exists sel. split; [done|].
  unfold max_marginal_relevance_search_by_vector.
  rewrite _build_query_obj_eq, lift_inr_run.
  rewrite bind_run, do_run, no_fault, answer. unfold lift. simpl.
  rewrite payload. simpl.
  assert (mapM (λ r, a ← py_getitem r "_additional"; py_getitem a "vector")
               (VDict <$> ms) ≫= mapM as_vector = inr vecs) as Hextract.
  { clear -Hvecs. induction Hvecs as [|m vec ms' vecs' Hm _ IH]; [done|].
    destruct Hm as (add & v & Hadd & Hv & Hvec). csimpl.
    rewrite Hadd. simpl. rewrite Hv. simpl.
    destruct (mapM _ (VDict <$> ms')) as [e|vs]; [done|]. simpl in *.
    by rewrite Hvec, IH. }
  destruct (mapM _ (VDict <$> ms)) as [e|vs]; [done|]. simpl in *.
  rewrite Hextract. simpl. rewrite Hsel. simpl.
  apply (mmr_docs_run _ ms); [done..|].
  intros idx Hidx. apply Hbound in Hidx.
  rewrite <- (Forall2_length _ _ _ Hvecs) in Hidx.
  apply lookup_lt_is_Some_2 in Hidx as [m Hm]. exists m.
  split_and!; [done|by rewrite list_lookup_fmap, Hm| |].
  - apply has_text. by eapply list_elem_of_lookup_2.
  - destruct (Forall2_lookup_l _ _ _ _ _ Hvecs Hm) as (vec & _ & add & ? & ? & _).
    by eexists.
Qed.
End answered.

(** ** The requests of the search operations *)

Lemma raises_only_True {A : Type} (r : result A) : raises_only (λ _, True) r.
Proof. by intros e _. Qed.

Lemma behaves_bind_lift `{Weaviate} {A B : Type} (P : request → Prop)
    (E : exn → Prop) (r : result A) (f : A → M B) :
  raises_only E r → (∀ x, r = inr x → behaves P E (f x)) →
  behaves P E (lift r ≫= f).
Proof.
  intros Hr Hf. destruct r as [e|x].
  - intros w. rewrite lift_inl_run. split; [|by intros e' [= <-]; apply Hr].
    exists []. by rewrite app_nil_r.
  - intros w. rewrite lift_inr_run. by apply Hf.
Qed.

Lemma bind_formals_inr (formals : list string) (kw : gmap string pyval) :
  bind_formals formals kw = inr () →
  ∀ name, name ∈ formals → kw !! name = None.
Proof.
  unfold bind_formals. intros Hb name Hname.
  destruct (List.filter _ formals) as [|bad ?] eqn:Hf; [|done].
  destruct (kw !! name) as [v|] eqn:Hv; [|done].
  assert (In name (List.filter
    (λ name, bool_decide (is_Some (kw !! name))) formals)) as Hin.
  { apply filter_In. split; [by apply list_elem_of_In|].
    apply bool_decide_eq_true_2. by rewrite Hv. }
  by rewrite Hf in Hin.
Qed.

Lemma call_kwargs_inr (explicit : list (string * pyval))
    (kw kw' : gmap string pyval) :
  call_kwargs explicit kw = inr kw' →
  ∀ name v, kw !! name = Some v → kw' !! name = Some v.
Proof.
  unfold call_kwargs. destruct (bind_formals _ kw) as [e|[]] eqn:Hb; [done|].
  simpl. intros [= <-] name v Hv.
  apply lookup_union_Some_raw. right. split; [|done].
  apply not_elem_of_list_to_map_1. intros Hin.
  by rewrite (bind_formals_inr _ _ Hb name Hin) in Hv.
Qed.

Section search_requests.
Context `{Weaviate}.
Variable self : WeaviateVectorStore.

Lemma search_request_built kw kw' (q : GetBuilder) :
  q_class q = _index_name self →
  q_properties q = _query_attrs self → built_calls kw' ⊆ q_calls q →
  (∀ name v, kw !! name = Some v → kw' !! name = Some v) →
  search_request self kw (QueryDo q).
Proof. intros ???? q' [= <-]. eauto. Qed.

Lemma search_request_other kw (r : request) :
  (∀ q, r ≠ QueryDo q) → search_request self kw r.
Proof. intros Hr q ->. by destruct (Hr q). Qed.

Lemma _perform_search_requests query k kw0 kw :
  (∀ name v, kw0 !! name = Some v → kw !! name = Some v) →
  behaves (search_request self kw0) (λ _, True) (_perform_search self query k kw).
Proof.
  intros Hkw. unfold _perform_search. destruct (_embedding self) as [e|].
  2: { by apply behaves_raise. }
  apply behaves_bind_lift; [apply raises_only_True|]. intros kw' Hkw'.
  rewrite _build_query_obj_eq, lift_inr_run_fun.
  apply behaves_bind.
  - apply behaves_do; [done|].
    apply (search_request_built _ kw'); [done|done|done|].
    intros name v Hv. eapply call_kwargs_inr; eauto.
  - intros response. case_match; [by apply behaves_raise|apply behaves_ret].
Qed.

Lemma run_search_requests (c : search_call) kw :
  behaves (search_request self kw) (λ _, True) (run_search self c kw).
Proof.
  destruct c as [query k|embedding k|query k|query k fetch_k lam
                |embedding k fetch_k lam]; simpl.
  - apply behaves_bind; [|intros; apply behaves_ret].
    unfold similarity_search.
    apply behaves_bind; [by apply _perform_search_requests|].
    intros response. apply behaves_lift, raises_only_True.
  - apply behaves_bind; [|intros; apply behaves_ret].
    unfold similarity_search_by_vector.
    rewrite _build_query_obj_eq, lift_inr_run_fun.
    apply behaves_bind.
    + apply behaves_do; [done|].
      apply (search_request_built _ kw); [done|done| |done].
      simpl. set_solver.
    + intros response. case_match; [by apply behaves_raise|].
      apply behaves_lift, raises_only_True.
  - apply behaves_bind; [|intros; apply behaves_ret].
    unfold similarity_search_with_score.
    apply behaves_bind_lift; [apply raises_only_True|]. intros kw' Hkw'.
    apply behaves_bind.
    + apply _perform_search_requests. by eapply call_kwargs_inr.
    + intros response. case_match; [by apply behaves_raise|].
      apply behaves_lift, raises_only_True.
  - apply behaves_bind; [|intros; apply behaves_ret].
    unfold max_marginal_relevance_search.
    destruct (_embedding self) as [e|]; [|by apply behaves_raise].
    apply behaves_bind; [apply behaves_lift, raises_only_True|intros _].
    unfold max_marginal_relevance_search_by_vector.
    rewrite _build_query_obj_eq, lift_inr_run_fun.
    apply behaves_bind; [|intros; apply behaves_lift, raises_only_True].
    apply behaves_do; [done|].
    apply (search_request_built _ kw); [done|done| |done].
    simpl. set_solver.
  - apply behaves_bind; [|intros; apply behaves_ret].
    unfold max_marginal_relevance_search_by_vector.
    rewrite _build_query_obj_eq, lift_inr_run_fun.
    apply behaves_bind; [|intros; apply behaves_lift, raises_only_True].
    apply behaves_do; [done|].
    apply (search_request_built _ kw); [done|done| |done].
    simpl. set_solver.
Qed.

Lemma run_search_sent (c : search_call) kw w q :
  QueryDo q ∈ sent_since w (run_search self c kw w).2 →
  q_class q = _index_name self
  ∧ q_properties q = _query_attrs self
  ∧ ∃ kw', built_calls kw' ⊆ q_calls q
           ∧ ∀ name v, kw !! name = Some v → kw' !! name = Some v.
Proof.
  destruct (run_search_requests c kw w) as [(l & Hl & HP) _].
  rewrite (sent_since_app _ _ _ Hl). intros Hq.
  by apply (proj1 (Forall_forall _ _) HP _ Hq).
Qed.
End search_requests.

(** ** What a request carries for a modifier *)

Lemma carried_by_hybrid (kw : gmap string pyval) (name : string) :
  name ∈ modifiers →
  (if existsb truthy (hybrid_kwargs kw).*2
   then [with_hybrid (hybrid_kwargs kw)] else []) ≫= carried_by name
  = if decide (name ∈ hybrid_args) then truthy_arg kw name else [].
Proof.
  intros Hname. unfold modifiers, hybrid_args in Hname.
  unfold truthy_arg, hybrid_kwargs, hybrid_args. cbn [List.filter].
  repeat (apply elem_of_cons in Hname as [->|Hname]);
    [..|by apply elem_of_nil in Hname].
  all: destruct (truthy (kwargs_get kw "query")) eqn:Hquery;
    destruct (truthy (kwargs_get kw "alpha")) eqn:Halpha;
    destruct (truthy (kwargs_get kw "vector")) eqn:Hvector;
    destruct (truthy (kwargs_get kw "properties")) eqn:Hproperties;
    destruct (truthy (kwargs_get kw "fusion_type")) eqn:Hfusion;
    cbn; rewrite ?Hquery, ?Halpha, ?Hvector, ?Hproperties, ?Hfusion;
    reflexivity.
Qed.

Lemma carried_by_method (method : pyval → builder_call) (key name : string)
    (kw : gmap string pyval) :
  (∀ v, carried_by name (method v) = if decide (name = key) then [v] else []) →
  (method <$> truthy_arg kw key) ≫= carried_by name
  = if decide (name = key) then truthy_arg kw key else [].
Proof.
  intros Hmethod. unfold truthy_arg.
  destruct (truthy (kwargs_get kw key)); cbn; [|by case_decide].
  rewrite Hmethod, app_nil_r. done.
Qed.

Lemma carried_built (kw : gmap string pyval) (name : string) :
  name ∈ modifiers → built_calls kw ≫= carried_by name = truthy_arg kw name.
Proof.
  intros Hname. unfold built_calls. rewrite !bind_app.
  rewrite (carried_by_method with_where "where_filter") by done.
  rewrite (carried_by_method with_tenant "tenant") by done.
  rewrite (carried_by_method with_additional "additional") by done.
  rewrite (carried_by_method with_limit "limit") by done.
  rewrite carried_by_hybrid by done.
  unfold modifiers, hybrid_args in Hname.
  repeat (apply elem_of_cons in Hname as [->|Hname]);
    [..|by apply elem_of_nil in Hname].
  all: repeat case_decide; try done; rewrite ?app_nil_r; try done.
  all: exfalso; set_solver.
Qed.

Lemma call_kwargs_eq (explicit : list (string * pyval))
    (kw kw' : gmap string pyval) :
  call_kwargs explicit kw = inr kw' →
  kw' = list_to_map explicit ∪ kw
  ∧ ∀ name, name ∈ explicit.*1 → kw !! name = None.
Proof.
  unfold call_kwargs. destruct (bind_formals _ kw) as [e|[]] eqn:Hb; [done|].
  simpl. intros [= <-]. split; [done|]. by apply bind_formals_inr.
Qed.

Lemma bind_formals_collision (formals : list string) (kw : gmap string pyval)
    (name : string) :
  name ∈ formals → is_Some (kw !! name) →
  ∃ msg, bind_formals formals kw = inl (TypeError msg).
Proof.
  intros Hname Hkw. unfold bind_formals.
  destruct (List.filter _ formals) as [|bad rest] eqn:Hf; [|by eexists].
  assert (In name (List.filter
    (λ name, bool_decide (is_Some (kw !! name))) formals)) as Hin.
  { apply filter_In. split; [by apply list_elem_of_In|].
    by apply bool_decide_eq_true_2. }
  by rewrite Hf in Hin.
Qed.

Section carries.
Context `{Weaviate}.
Variable self : WeaviateVectorStore.

Lemma carries_by_vector (c : search_call) (kw : gmap string pyval)
    (name : string) (own : list builder_call) :
  name ∈ modifiers → keyword_formals c = [] →
  own ≫= carried_by name
    = (if decide (name = "limit") then own_limit c else []) →
  carries c kw name
    (QueryDo {| q_class := _index_name self;
                q_properties := _query_attrs self;
                q_calls := built_calls kw ++ own |}).
Proof.
  intros Hname Hformals Hown q [= <-]. exists kw. split_and!.
  - unfold carried. simpl. by rewrite bind_app, carried_built, Hown.
  - rewrite Hformals. by intros ?%elem_of_nil.
  - done.
Qed.

Lemma _perform_search_carries (c : search_call) query k
    (kw0 kw : gmap string pyval) (name : string) :
  name ∈ modifiers → own_limit c = [] →
  (∀ n, n ∈ ["query"; "limit"; "vector"] → n ∈ keyword_formals c) →
  (name ∈ keyword_formals c → name ∈ ["query"; "limit"; "vector"]) →
  (name ∉ keyword_formals c → kw !! name = kw0 !! name) →
  (∀ n, kw !! n = None → kw0 !! n = None) →
  behaves (carries c kw0 name) (λ _, True) (_perform_search self query k kw).
Proof.
  intros Hname Hown Hsub Hin Hout Hnone. unfold _perform_search.
  destruct (_embedding self) as [e|]; [|by apply behaves_raise].
  apply behaves_bind_lift; [apply raises_only_True|].
  intros kw' [-> Hfresh]%call_kwargs_eq.
  rewrite _build_query_obj_eq, lift_inr_run_fun.
  apply behaves_bind.
  2: { intros response. case_match; [by apply behaves_raise|apply behaves_ret]. }
  apply behaves_do; [done|]. intros q [= <-]. eexists. split_and!.
  - unfold carried. simpl. rewrite carried_built by done.
    rewrite Hown. by destruct (decide (name = "limit")); rewrite app_nil_r.
  - intros Hformal. by apply Hnone, Hfresh, Hin.
  - intros Hformal. rewrite <- Hout by done.
    assert (name ∉ ["query"; "limit"; "vector"]) as Hn.
    { intros Hn. by apply Hformal, Hsub. }
    apply lookup_union_r. rewrite !lookup_insert_ne by set_solver. done.
Qed.

Lemma run_search_carries (c : search_call) (kw : gmap string pyval)
    (name : string) :
  name ∈ modifiers →
  behaves (carries c kw name) (λ _, True) (run_search self c kw).
Proof.
  intros Hname.
  destruct c as [query k|embedding k|query k|query k fetch_k lam
                |embedding k fetch_k lam]; simpl.
  - apply behaves_bind; [|intros; apply behaves_ret].
    unfold similarity_search.
    apply behaves_bind; [|intros; apply behaves_lift, raises_only_True].
    by apply _perform_search_carries.
  - apply behaves_bind; [|intros; apply behaves_ret].
    unfold similarity_search_by_vector.
    rewrite _build_query_obj_eq, lift_inr_run_fun.
    apply behaves_bind.
    + apply behaves_do; [done|]. unfold add_call. simpl.
      rewrite <- (assoc_L (++)). apply carries_by_vector; [done|done|].
      simpl. by case_decide.
    + intros response. case_match; [by apply behaves_raise|].
      apply behaves_lift, raises_only_True.
  - apply behaves_bind; [|intros; apply behaves_ret].
    unfold similarity_search_with_score.
    apply behaves_bind_lift; [apply raises_only_True|].
    intros kw' [-> Hfresh]%call_kwargs_eq.
    apply behaves_bind.
    + apply _perform_search_carries; [done|done|set_solver|..].
      * intros Hin. unfold modifiers, hybrid_args in Hname.
        simpl in Hin. set_solver.
      * intros Hout. apply lookup_union_r, not_elem_of_list_to_map_1.
        simpl. set_solver.
      * intros n Hn. by apply lookup_union_None in Hn as [_ Hn].
    + intros response. case_match; [by apply behaves_raise|].
      apply behaves_lift, raises_only_True.
  - apply behaves_bind; [|intros; apply behaves_ret].
    unfold max_marginal_relevance_search.
    destruct (_embedding self) as [e|]; [|by apply behaves_raise].
    apply behaves_bind; [apply behaves_lift, raises_only_True|intros _].
    unfold max_marginal_relevance_search_by_vector.
    rewrite _build_query_obj_eq, lift_inr_run_fun.
    apply behaves_bind; [|intros; apply behaves_lift, raises_only_True].
    apply behaves_do; [done|]. unfold add_call. simpl.
    rewrite <- !(assoc_L (++)). intros q [= <-]. exists kw. split_and!.
    + unfold carried. simpl. rewrite bind_app, carried_built by done.
      f_equal. simpl. unfold modifiers, hybrid_args in Hname.
      repeat case_decide; try done; set_solver.
    + intros Hin. unfold modifiers, hybrid_args in Hname.
      simpl in Hin. set_solver.
    + done.
  - apply behaves_bind; [|intros; apply behaves_ret].
    unfold max_marginal_relevance_search_by_vector.
    rewrite _build_query_obj_eq, lift_inr_run_fun.
    apply behaves_bind; [|intros; apply behaves_lift, raises_only_True].
    apply behaves_do; [done|]. unfold add_call. simpl.
    rewrite <- !(assoc_L (++)). apply carries_by_vector; [done|done|].
    simpl. unfold modifiers, hybrid_args in Hname.
    repeat case_decide; try done; set_solver.
Qed.

Lemma run_search_carried (c : search_call) (kw : gmap string pyval)
    (name : string) (v : pyval) (w : world) (q : GetBuilder) :
  name ∈ modifiers → kw !! name = Some v → truthy v = true →
  QueryDo q ∈ sent_since w (run_search self c kw w).2 →
  carried name q = v :: (if decide (name = "limit") then own_limit c else []).
Proof.
  intros Hname Hkw Hv Hq.
  destruct (run_search_carries c kw name Hname w) as [(l & Hl & HP) _].
  rewrite (sent_since_app _ _ _ Hl) in Hq.
  destruct (proj1 (Forall_forall _ _) HP _ Hq q eq_refl)
    as (kw' & -> & Hin & Hout).
  destruct (decide (name ∈ keyword_formals c)) as [Hformal|Hformal].
  { rewrite (Hin Hformal) in Hkw. done. }
  unfold truthy_arg, kwargs_get. rewrite (Hout Hformal), Hkw. simpl.
  by rewrite Hv.
Qed.
End carries.

Section search_runs.
Context `{Weaviate}.
Variable self : WeaviateVectorStore.

Lemma then_ret_world {A : Type} (m : M A) (w : world) :
  ((m ;; mret ()) w).2 = (m w).2.
Proof. rewrite bind_run. by destruct (m w) as [[e|x] w']. Qed.

Lemma _perform_search_world e query k kw w :
  _embedding self = Some e →
  Forall (λ name, kw !! name = None) ["query"; "limit"; "vector"] →
  ∃ q r, _perform_search self query k kw w =
         (r, {| calls := calls w ++ [QueryDo q];
                uuids_drawn := uuids_drawn w |}).
Proof.
  intros He Hkw. unfold _perform_search. rewrite He.
  rewrite call_kwargs_fresh by done. rewrite lift_inr_run.
  rewrite _build_query_obj_eq, lift_inr_run.
  rewrite bind_run, do_run.
  destruct (svc_fault _ _); [by eexists _, _|].
  destruct (_ !! "errors"); by eexists _, _.
Qed.

Lemma run_search_sends (c : search_call) (kw : gmap string pyval) (w : world) :
  (embeds_query c = true → is_Some (_embedding self)) →
  (∀ name, name ∈ keyword_formals c → kw !! name = None) →
  ∃ q, sent_since w (run_search self c kw w).2 = [QueryDo q].
Proof.
  intros He Hkw.
  assert (∀ {A} (m : M A) q,
            (m w).2 = {| calls := calls w ++ [QueryDo q];
                         uuids_drawn := uuids_drawn w |} →
            sent_since w ((m ;; mret ()) w).2 = [QueryDo q]) as Hsent.
  { intros A m q Hm. apply sent_since_app. by rewrite then_ret_world, Hm. }
  destruct c as [query k|embedding k|query k|query k fetch_k lam
                |embedding k fetch_k lam]; simpl in *.
  - destruct He as [e He]; [done|].
    destruct (_perform_search_world e query k kw w He) as (q & r & Hq).
    { repeat constructor; apply Hkw; set_solver. }
    exists q. apply Hsent. unfold similarity_search.
    rewrite bind_run, Hq. by destruct r.
  - eexists. apply Hsent. unfold similarity_search_by_vector.
    rewrite _build_query_obj_eq, lift_inr_run, bind_run, do_run.
    destruct (svc_fault _ _); [done|]. by case_match.
  - destruct He as [e He]; [done|].
    unfold similarity_search_with_score.
    rewrite call_kwargs_fresh by (repeat constructor; apply Hkw; set_solver).
    destruct (_perform_search_world e query k
                (list_to_map [("additional", VList [VStr "score"])] ∪ kw)
                w He) as (q & r & Hq).
    { repeat constructor; simpl.
      all: rewrite lookup_union_r by done; apply Hkw; set_solver. }
    exists q. apply Hsent. rewrite lift_inr_run, bind_run, Hq.
    destruct r as [?|response]; [done|]. by case_match.
  - destruct He as [e He]; [done|].
    eexists. apply Hsent. unfold max_marginal_relevance_search. rewrite He.
    rewrite bind_formals_fresh by (repeat constructor; apply Hkw; set_solver).
    rewrite lift_inr_run. unfold max_marginal_relevance_search_by_vector.
    rewrite _build_query_obj_eq, lift_inr_run, bind_run, do_run.
    by destruct (svc_fault _ _).
  - eexists. apply Hsent. unfold max_marginal_relevance_search_by_vector.
    rewrite _build_query_obj_eq, lift_inr_run, bind_run, do_run.
    by destruct (svc_fault _ _).
Qed.

Lemma run_search_collision (c : search_call) (kw : gmap string pyval)
    (name : string) (w : world) :
  name ∈ modifiers → name ∈ keyword_formals c → is_Some (kw !! name) →
  ∃ e, run_search self c kw w = (inl e, w)
       ∧ (is_Some (_embedding self) → ∃ msg, e = TypeError msg).
Proof.
  intros Hname Hformal Hkw.
  assert (name ∈ ["query"; "limit"; "vector"]
          → ∀ query k kw',
              (∀ n v, kw !! n = Some v → kw' !! n = Some v) →
              ∃ e, _perform_search self query k kw' w = (inl e, w)
                   ∧ (is_Some (_embedding self) → ∃ msg, e = TypeError msg))
    as Hperform.
  { intros Hin query k kw' Hkw'. unfold _perform_search.
    destruct (_embedding self) as [e|].
    2: { eexists. split; [done|]. by intros [? [=]]. }
    destruct (bind_formals_collision
                [("query", VStr query); ("limit", VInt k);
                 ("vector", of_vector (embed_query e query))].*1 kw' name)
      as [msg Hmsg]; [done| |].
    { destruct Hkw as [v Hv]. exists v. by apply Hkw'. }
    exists (TypeError msg). split; [|by eexists].
    unfold call_kwargs. by rewrite Hmsg. }
  unfold modifiers, hybrid_args in Hname.
  destruct c as [query k|embedding k|query k|query k fetch_k lam
                |embedding k fetch_k lam]; simpl in *.
  - destruct (Hperform Hformal query k kw) as (e & He & Hmsg); [done|].
    exists e. split; [|done]. unfold similarity_search.
    by rewrite bind_run, bind_run, He.
  - by apply elem_of_nil in Hformal.
  - unfold similarity_search_with_score.
    destruct (kw !! "additional") as [a|] eqn:Hadd.
    { destruct (bind_formals_collision
                  [("additional", VList [VStr "score"])].*1 kw "additional")
        as [msg Hmsg]; [set_solver|by rewrite Hadd|].
      exists (TypeError msg). split; [|by eexists].
      unfold call_kwargs. by rewrite Hmsg. }
    rewrite call_kwargs_fresh by (by repeat constructor).
    destruct (Hperform ltac:(set_solver) query k
                (list_to_map [("additional", VList [VStr "score"])] ∪ kw))
      as (e & He & Hmsg).
    { intros n v Hv. apply lookup_union_Some_raw. right. split; [|done].
      apply not_elem_of_list_to_map_1. simpl. intros ->%list_elem_of_singleton.
      by rewrite Hadd in Hv. }
    exists e. split; [|done].
    by rewrite bind_run, lift_inr_run, bind_run, He.
  - set_solver.
  - by apply elem_of_nil in Hformal.
Qed.
End search_runs.

(** ** Construction *)

Lemma __init___attrs client index_name text_key embedding attributes rsf by_text
    (self : WeaviateVectorStore) :
  __init__ client index_name text_key embedding attributes rsf by_text
    = inr self →
  _text_key self = text_key
  ∧ _query_attrs self = text_key :: default [] attributes.
Proof.
  unfold __init__. destruct client; [|done]. intros [= <-]. simpl.
  by destruct attributes.
Qed.

(** What a computation returns, when it returns. *)
Lemma returns_bind {A B : Type} (Q : B → Prop) (m : M A) (f : A → M B) :
  (∀ x w y w', f x w = (inr y, w') → Q y) →
  ∀ w y w', (m ≫= f) w = (inr y, w') → Q y.
Proof.
  intros Hf w y w'. rewrite bind_run. destruct (m w) as [[e|x] w1]; [done|].
  apply Hf.
Qed.

Section from_texts.
Context `{Weaviate}.

Lemma from_texts_returns texts embedding client metadatas batch_size
    index_name text_key by_text rsf kw w self w' :
  from_texts texts embedding client metadatas batch_size index_name
             text_key by_text rsf kw w = (inr self, w') →
  _text_key self = text_key ∧ ∃ rest, _query_attrs self = text_key :: rest.
Proof.
  unfold from_texts. revert w self w'.
  repeat (apply returns_bind; intros ?).
  intros w self w'. case_match; [|by destruct p].
  unfold lift. intros [= Hinit _].
  apply __init___attrs in Hinit as [? ?]. eauto.
Qed.

Variable P : request → Prop.

Lemma draw_uuids_sends n : behaves P (λ _, True) (draw_uuids n).
Proof.
  induction n as [|n IH]; simpl; [apply behaves_ret|].
  apply behaves_bind; [apply behaves_draw_uuid4|intros u].
  apply behaves_bind; [apply IH|intros us]. apply behaves_ret.
Qed.

Hypothesis P_batch : ∀ r, (∀ s, r ≠ SchemaCreateClass s) → P r.

Lemma from_texts_loop_sends index_name text_key metadatas uuids embeddings
    texts : ∀ i,
  behaves P (λ _, True) (from_texts_loop index_name text_key metadatas uuids embeddings
                         i texts).
Proof using P_batch.
  induction texts as [|text texts IH]; intros i; simpl; [apply behaves_ret|].
  apply behaves_bind; [|intros _; apply IH].
  unfold from_texts_step.
  repeat (apply behaves_bind; [apply behaves_lift, raises_only_True|intros ?]).
  apply behaves_send; [done|]. by apply P_batch.
Qed.

(** Everything [from_texts] does after the schema check. *)
Lemma from_texts_insert_sends {A : Type} index_name text_key metadatas
    embeddings texts (kw : gmap string pyval) (finish : M A) :
  behaves P (λ _, True) finish →
  behaves P (λ _, True) (uuids ←
           match kw !! "uuids" with
           | Some uuids => mret uuids
           | None => us ← draw_uuids (length texts); mret (VList us)
           end;
         with_batch
           (from_texts_loop index_name text_key metadatas uuids embeddings
                            0 texts;;
            send BatchFlush);;
         finish).
Proof using P_batch.
  intros Hfinish. apply behaves_bind.
  { case_match; [apply behaves_ret|].
    apply behaves_bind; [apply draw_uuids_sends|intros; apply behaves_ret]. }
  intros uuids. apply behaves_bind; [|by intros _].
  apply behaves_with_batch; [done|by apply P_batch..|].
  apply behaves_bind; [apply from_texts_loop_sends|intros _].
  apply behaves_send; [done|]. by apply P_batch.
Qed.
End from_texts.

Lemma filter_sent_since `{Weaviate} {A : Type} (m : M A) (w0 w : world)
    (pre : list request) :
  calls w = calls w0 ++ pre →
  behaves (λ r, is_SchemaCreateClass r = false) (λ _, True) m →
  List.filter is_SchemaCreateClass (sent_since w0 (m w).2)
  = List.filter is_SchemaCreateClass pre.
Proof.
  intros Hw Hm. destruct (Hm w) as [(l & Hl & HP) _].
  rewrite (sent_since_app w0 _ (pre ++ l)).
  2: { by rewrite Hl, Hw, (assoc_L (++)). }
  rewrite List.filter_app.
  replace (List.filter is_SchemaCreateClass l) with (@nil request).
  { by rewrite app_nil_r. }
  symmetry. clear Hl. induction HP as [|r l Hr _ IH]; simpl; [done|].
  by rewrite Hr.
Qed.

(** * The claims *)

(** ** C1: the indices selected by maximal marginal relevance *)

(** C1, counterexample.  The claim quantifies over every query embedding
    and candidate list; for a candidate whose length differs from the
    query's the selector fails with [DimensionMismatch] and returns no
    sequence at all. *)
Lemma mmr_dimension_mismatch_counterexample :
  @maximal_marginal_relevance Demo.weaviate [1%Q] [[1%Q; 0%Q]] 1 (1 # 2)
    = inl DimensionMismatch
  ∧ ¬ ∃ sel, @maximal_marginal_relevance Demo.weaviate
               [1%Q] [[1%Q; 0%Q]] 1 (1 # 2) = inr sel.
Proof. split; [reflexivity|]. intros [sel Hsel]. discriminate Hsel. Qed.

(** C1, amended.  For every query embedding and every list of candidate
    embeddings that all have the query's length, and every [k] and
    [lambda_mult], the selection returns a sequence of pairwise-distinct
    indices into the candidate list; its length is [min k n] when
    [k > 0], it is a permutation of all [n] indices when [k >= n], and it
    is empty when [k <= 0]. *)
Theorem mmr_selection_indices `{Weaviate} (query_embedding : list Q)
    (embedding_list : list (list Q)) (k : Z) (lambda_mult : Q) :
  Forall (λ c, length c = length query_embedding) embedding_list →
  ∃ sel,
    maximal_marginal_relevance query_embedding embedding_list k lambda_mult
      = inr sel
    ∧ NoDup sel
    ∧ (∀ j, j ∈ sel → j < length embedding_list)
    ∧ ((0 < k)%Z →
       Z.of_nat (length sel) = Z.min k (Z.of_nat (length embedding_list)))
    ∧ ((Z.of_nat (length embedding_list) ≤ k)%Z →
       sel ≡ₚ seq 0 (length embedding_list))
    ∧ ((k ≤ 0)%Z → sel = []).
Proof.
  intros Hdim.
  destruct (maximal_marginal_relevance_spec query_embedding embedding_list
              k lambda_mult Hdim) as (sel & Hsel & Hnd & Hbound & Hlen).
  exists sel. split_and!; [done|done|done|..].
  - intros Hk. lia.
  - intros Hk. apply submseteq_length_Permutation.
    + apply NoDup_submseteq; [done|]. intros j Hj. apply elem_of_seq.
      specialize (Hbound j Hj). lia.
    + rewrite length_seq. lia.
  - intros Hk. apply length_zero_iff_nil. lia.
Qed.

Lemma mmr_selection_indices_witness :
  Forall (λ c : list Q, length c = length [1%Q; 0%Q]) Demo.vectors
  ∧ ∃ sel,
      @maximal_marginal_relevance Demo.weaviate [1%Q; 0%Q] Demo.vectors
                                  2 (1 # 2) = inr sel
      ∧ NoDup sel
      ∧ (∀ j, j ∈ sel → j < length Demo.vectors)
      ∧ ((0 < 2)%Z →
         Z.of_nat (length sel) = Z.min 2 (Z.of_nat (length Demo.vectors)))
      ∧ ((Z.of_nat (length Demo.vectors) ≤ 2)%Z →
         sel ≡ₚ seq 0 (length Demo.vectors))
      ∧ ((2 ≤ 0)%Z → sel = []).
Proof.
  split.
  - repeat constructor.
  - apply (@mmr_selection_indices Demo.weaviate). repeat constructor.
Defined.

(** ** C2: [delete] without ids *)

(** C2, counterexample.  With the empty list [delete] returns normally:
    only [ids is None] is rejected. *)
Lemma delete_empty_list_counterexample :
  (@VectorStore.delete Demo.weaviate (Demo.store None) (Some []) ∅
     Demo.world0).1 ≠ inl NoIdsProvided.
Proof. discriminate. Qed.

(** C2, amended.  For every call of [delete] whose [ids] is absent
    ([None]) the operation fails with [NoIdsProvided] and sends no
    request; with [ids] the empty list it returns normally and sends no
    request either. *)
Theorem delete_without_ids `{Weaviate} (self : WeaviateVectorStore)
    (kw : gmap string pyval) (w : world) :
  VectorStore.delete self None kw w = (inl NoIdsProvided, w)
  ∧ VectorStore.delete self (Some []) kw w = (inr (), w).
Proof. split; reflexivity. Qed.

(** ** C3: query modifiers *)

(** C3, counterexample.  A supplied modifier is not always what the
    request contains.  [alpha = 0.0], supplied together with a hybrid
    query, is left out of the request built: a falsy value is dropped.  A
    [limit] of 5 given to [similarity_search_by_vector] with [k = 4] is
    followed in the request by the method's own limit 4.  The same
    [limit] given to [similarity_search] is rejected with a TypeError and
    no request is sent. *)
Lemma modifier_not_carried_counterexample :
  (∃ q, _build_query_obj (Demo.store None)
          {[ "query" := VStr "q"; "alpha" := VFloat 0 ]} = inr q
        ∧ carried "alpha" q = [])
  ∧ (∃ q, sent_since Demo.world0
            (@similarity_search_by_vector Demo.weaviate (Demo.store None)
               [1%Q; 0%Q] 4 Outage.kw_limit Demo.world0).2 = [QueryDo q]
          ∧ carried "limit" q = [VInt 5; VInt 4])
  ∧ (∃ msg, @similarity_search Demo.weaviate
              (Demo.store (Some Demo.embeddings)) "q" 4 Outage.kw_limit
              Demo.world0 = (inl (TypeError msg), Demo.world0)).
Proof.
  split_and!.
  - eexists. split; [apply _build_query_obj_eq|]. reflexivity.
  - eexists. split; reflexivity.
  - eexists. reflexivity.
Qed.

(** C3, amended.  For every store and keyword arguments, each supplied
    modifier (metadata filter, tenant, limit, hybrid query, alpha, vector,
    properties, fusion type) whose value is truthy is applied unmodified:
    the Get query [_build_query_obj] builds for the store's index and
    attributes contains exactly the supplied value for it, and so does
    every request a search operation called with these keyword arguments
    sends, except that a supplied limit is followed by the method's own
    ([k] in [similarity_search_by_vector], [fetch_k] in the MMR
    searches).  A search sends such a request whenever the embedding
    function it needs is configured and no keyword names an argument the
    method passes on itself; a modifier that does ([query], [limit] or
    [vector] given to [similarity_search] or
    [similarity_search_with_score]) makes the call raise, a TypeError when
    an embedding function is configured, without sending anything. *)
Theorem truthy_modifiers_carried `{Weaviate} (self : WeaviateVectorStore)
    (kw : gmap string pyval) (name : string) (v : pyval) :
  name ∈ modifiers → kw !! name = Some v → truthy v = true →
  (∃ q, _build_query_obj self kw = inr q
        ∧ q_class q = _index_name self
        ∧ q_properties q = _query_attrs self
        ∧ carried name q = [v])
  ∧ (∀ (c : search_call) (w : world) (q : GetBuilder),
       QueryDo q ∈ sent_since w (run_search self c kw w).2 →
       q_class q = _index_name self
       ∧ q_properties q = _query_attrs self
       ∧ carried name q
         = v :: (if decide (name = "limit") then own_limit c else []))
  ∧ (∀ (c : search_call) (w : world),
       (embeds_query c = true → is_Some (_embedding self)) →
       (∀ n, n ∈ keyword_formals c → kw !! n = None) →
       ∃ q, sent_since w (run_search self c kw w).2 = [QueryDo q])
  ∧ (∀ (c : search_call) (w : world),
       name ∈ keyword_formals c →
       ∃ e, run_search self c kw w = (inl e, w)
            ∧ (is_Some (_embedding self) → ∃ msg, e = TypeError msg)).
Proof.
  intros Hname Hkw Hv. split_and!.
  - eexists. split; [apply _build_query_obj_eq|]. split_and!; [done|done|].
    unfold carried. simpl. rewrite carried_built by done.
    unfold truthy_arg, kwargs_get. rewrite Hkw. simpl. by rewrite Hv.
  - intros c w q Hq. split_and!.
    + by apply run_search_sent in Hq as (? & _).
    + by apply run_search_sent in Hq as (_ & ? & _).
    + by apply (run_search_carried self c kw name v w q).
  - intros c w. apply run_search_sends.
  - intros c w Hformal. apply (run_search_collision self c kw name w); [done..|].
    by rewrite Hkw.
Qed.

Lemma truthy_modifiers_carried_witness :
  ("tenant" ∈ modifiers ∧ Demo.kw_tenant !! "tenant" = Some (VStr "t1")
   ∧ truthy (VStr "t1") = true)
  ∧ (∃ q, _build_query_obj (Demo.store (Some Demo.embeddings)) Demo.kw_tenant
            = inr q
          ∧ carried "tenant" q = [VStr "t1"])
  ∧ (∃ q, sent_since Demo.world0
            (@run_search Demo.weaviate (Demo.store (Some Demo.embeddings))
               (SimilaritySearch "cats" 4) Demo.kw_tenant Demo.world0).2
          = [QueryDo q]
          ∧ carried "tenant" q = [VStr "t1"])
  ∧ ("limit" ∈ modifiers ∧ Outage.kw_limit !! "limit" = Some (VInt 5)
     ∧ truthy (VInt 5) = true)
  ∧ (∃ q, sent_since Demo.world0
            (@run_search Demo.weaviate (Demo.store (Some Demo.embeddings))
               (MaxMarginalRelevanceSearchByVector [1%Q; 0%Q] 2 3 (1 # 2))
               Outage.kw_limit Demo.world0).2
          = [QueryDo q]
          ∧ carried "limit" q = [VInt 5; VInt 3])
  ∧ (∃ e, @run_search Demo.weaviate (Demo.store (Some Demo.embeddings))
            (SimilaritySearchWithScore "cats" 4) Outage.kw_limit Demo.world0
          = (inl e, Demo.world0)).
Proof.
  assert ("tenant" ∈ modifiers) as Ht1 by (unfold modifiers; set_solver).
  assert (Demo.kw_tenant !! "tenant" = Some (VStr "t1")) as Ht2
    by reflexivity.
  assert (truthy (VStr "t1") = true) as Ht3 by reflexivity.
  assert ("limit" ∈ modifiers) as Hl1 by (unfold modifiers; set_solver).
  assert (Outage.kw_limit !! "limit" = Some (VInt 5)) as Hl2 by reflexivity.
  assert (truthy (VInt 5) = true) as Hl3 by reflexivity.
  destruct (@truthy_modifiers_carried Demo.weaviate
              (Demo.store (Some Demo.embeddings)) Demo.kw_tenant "tenant"
              (VStr "t1") Ht1 Ht2 Ht3)
    as ((qb & Hqb & _ & _ & Hcb) & Hsent & Hsends & _).
  destruct (@truthy_modifiers_carried Demo.weaviate
              (Demo.store (Some Demo.embeddings)) Outage.kw_limit "limit"
              (VInt 5) Hl1 Hl2 Hl3)
    as (_ & Hsent' & Hsends' & Hraise).
  split_and!; [done|done|done| | |done|done|done| |].
  - exists qb. by split.
  - destruct (Hsends (SimilaritySearch "cats" 4) Demo.world0) as [q Hq].
    { intros _. by eexists. }
    { intros n Hn. simpl in Hn.
      repeat (apply elem_of_cons in Hn as [->|Hn]); [reflexivity..|].
      by apply elem_of_nil in Hn. }
    exists q. split; [exact Hq|].
    apply (Hsent (SimilaritySearch "cats" 4) Demo.world0 q).
    rewrite Hq. by left.
  - destruct (Hsends' (MaxMarginalRelevanceSearchByVector
                         [1%Q; 0%Q] 2 3 (1 # 2)) Demo.world0) as [q Hq].
    { intros [=]. }
    { intros n Hn. by apply elem_of_nil in Hn. }
    exists q. split; [exact Hq|].
    apply (Hsent' (MaxMarginalRelevanceSearchByVector
                     [1%Q; 0%Q] 2 3 (1 # 2)) Demo.world0 q).
    rewrite Hq. by left.
  - destruct (Hraise (SimilaritySearchWithScore "cats" 4) Demo.world0)
      as (e & He & _).
    { simpl. set_solver. }
    by exists e.
Defined.

(** ** C4: the ids returned by [add_texts] *)

(** C4, counterexample.  Called with both [uuids] and [ids], [add_texts]
    returns and attaches [uuids[0]], not [ids[0]]. *)
Lemma add_texts_uuids_first_counterexample :
  ∃ ids, (@add_texts Demo.weaviate (Demo.store None) ["a"] None
            Demo.kw_uuids_ids Demo.world0).1 = inr ids
         ∧ ids !! 0 ≠ Some (VStr "id1").
Proof. exists [VStr "u1"]. split; [reflexivity|discriminate]. Qed.

(** C4, amended.  For every call of [add_texts] over [n] texts against a
    service that fails no request, where the supplied list of ids (if
    any), [metadatas] (if given) and the document embeddings (if any)
    have at least [n] entries: the call returns [n] ids in input order;
    the [i]-th is [uuids[i]] when a [uuids] argument is given, else
    [ids[i]] when an [ids] argument is given, else the UUID generated for
    it; and it is the id attached to the [i]-th inserted object. *)
Theorem add_texts_ids `{Weaviate} (self : WeaviateVectorStore)
    (texts : list string) (metadatas : option (list (gmap string pyval)))
    (kw : gmap string pyval) (w : world) :
  (∀ h r, svc_fault h r = None) →
  (∀ ms, metadatas = Some ms → length texts ≤ length ms) →
  (∀ v, supplied_ids kw = Some v →
        ∃ l, v = VList l ∧ length texts ≤ length l) →
  (∀ es, add_texts_embeddings self texts = Some es →
         es = [] ∨ length texts ≤ length es) →
  ∃ ids objs,
    add_texts self texts metadatas kw w =
      (inr ids,
       {| calls := calls w ++ [BatchEnter] ++ (BatchAddDataObject <$> objs)
                           ++ [BatchExit];
          uuids_drawn := uuids_drawn w + length texts |})
    ∧ length ids = length texts
    ∧ do_uuid <$> objs = ids
    ∧ ∀ i, i < length texts →
        (∀ l, kw !! "uuids" = Some (VList l) → ids !! i = l !! i)
        ∧ (∀ l, kw !! "uuids" = None → kw !! "ids" = Some (VList l) →
                ids !! i = l !! i)
        ∧ (kw !! "uuids" = None → kw !! "ids" = None →
           ids !! i = Some (VStr (get_valid_uuid (uuid4 (uuids_drawn w + i))))).
Proof.
  intros Hfault Hmd Hids Hemb.
  destruct (add_texts_objects_total self metadatas kw
              (add_texts_embeddings self texts) texts (uuids_drawn w) 0)
    as [objs Hobjs]; [done..|].
  exists (do_uuid <$> objs), objs.
  pose proof (add_texts_objects_length _ _ _ _ _ _ _ _ Hobjs) as Hlen.
  split_and!; [by apply add_texts_run|by rewrite length_fmap|done|].
  intros i Hi. apply lookup_lt_is_Some_2 in Hi as [text Htext].
  destruct (add_texts_objects_lookup _ _ _ _ _ _ _ _ _ _ Hobjs Htext)
    as (obj & Hobj & Hid).
  rewrite list_lookup_fmap, Hobj. simpl.
  unfold add_texts_object in Hid.
  destruct (metadata_at metadatas _) as [e|md]; [done|]. simpl in Hid.
  destruct (chosen_id kw _ _) as [e|id] eqn:Hchosen; [done|]. simpl in Hid.
  destruct (vector_at _ _) as [e|vec]; [done|]. injection Hid as <-. simpl.
  unfold chosen_id in Hchosen. split_and!.
  - intros l Hl. rewrite Hl in Hchosen. simpl in Hchosen.
    destruct (l !! i); [by injection Hchosen as <-|done].
  - intros l Hu Hl. rewrite Hu, Hl in Hchosen. simpl in Hchosen.
    destruct (l !! i); [by injection Hchosen as <-|done].
  - intros Hu Hl. rewrite Hu, Hl in Hchosen. by injection Hchosen as <-.
Qed.

Lemma add_texts_ids_witness :
  (∀ h r, @svc_fault Demo.weaviate h r = None)
  ∧ (∀ ms, @None (list (gmap string pyval)) = Some ms → length ["a"; "b"] ≤ length ms)
  ∧ (∀ v, supplied_ids Demo.kw_ids = Some v →
          ∃ l, v = VList l ∧ length ["a"; "b"] ≤ length l)
  ∧ (∀ es, add_texts_embeddings (Demo.store (Some Demo.embeddings))
             ["a"; "b"] = Some es →
           es = [] ∨ length ["a"; "b"] ≤ length es)
  ∧ ∃ ids objs,
      @add_texts Demo.weaviate (Demo.store (Some Demo.embeddings))
                 ["a"; "b"] None Demo.kw_ids Demo.world0 =
        (inr ids,
         {| calls := calls Demo.world0 ++ [BatchEnter]
                       ++ (BatchAddDataObject <$> objs) ++ [BatchExit];
            uuids_drawn := uuids_drawn Demo.world0 + length ["a"; "b"] |})
      ∧ length ids = length ["a"; "b"]
      ∧ do_uuid <$> objs = ids
      ∧ ∀ i, i < length ["a"; "b"] →
          (∀ l, Demo.kw_ids !! "uuids" = Some (VList l) → ids !! i = l !! i)
          ∧ (∀ l, Demo.kw_ids !! "uuids" = None →
                  Demo.kw_ids !! "ids" = Some (VList l) → ids !! i = l !! i)
          ∧ (Demo.kw_ids !! "uuids" = None → Demo.kw_ids !! "ids" = None →
             ids !! i =
             Some (VStr (@get_valid_uuid Demo.weaviate
                           (@uuid4 Demo.weaviate
                              (uuids_drawn Demo.world0 + i))))).
Proof.
  assert (∀ h r, @svc_fault Demo.weaviate h r = None) as H1 by reflexivity.
  assert (∀ ms, @None (list (gmap string pyval)) = Some ms →
                length ["a"; "b"] ≤ length ms) as H2 by discriminate.
  assert (∀ v, supplied_ids Demo.kw_ids = Some v →
               ∃ l, v = VList l ∧ length ["a"; "b"] ≤ length l) as H3.
  { intros v [= <-]. eexists. split; [reflexivity|]. simpl. lia. }
  assert (∀ es, add_texts_embeddings (Demo.store (Some Demo.embeddings))
                  ["a"; "b"] = Some es →
                es = [] ∨ length ["a"; "b"] ≤ length es) as H4.
  { intros es [= <-]. right. simpl. lia. }
  split_and!; [exact H1|exact H2|exact H3|exact H4|].
  exact (@add_texts_ids Demo.weaviate (Demo.store (Some Demo.embeddings))
           ["a"; "b"] None Demo.kw_ids Demo.world0 H1 H2 H3 H4).
Defined.

(** ** C5: searching by text needs an embedding function *)

(** C5.  For every text query, [similarity_search] and the text-based
    [max_marginal_relevance_search] fail with the EmbeddingRequired error
    exactly when the store's [_embedding] is [None]; in that case nothing
    is sent to the service (the world is unchanged). *)
Theorem embedding_required_iff `{Weaviate} (self : WeaviateVectorStore)
    (query : string) (k fetch_k : Z) (lambda_mult : Q)
    (kw : gmap string pyval) (w : world) :
  ((∃ e, (similarity_search self query k kw w).1 = inl e
         ∧ is_EmbeddingRequired e)
   ↔ _embedding self = None)
  ∧ ((∃ e, (max_marginal_relevance_search self query k fetch_k lambda_mult
              kw w).1 = inl e
           ∧ is_EmbeddingRequired e)
     ↔ _embedding self = None)
  ∧ (_embedding self = None →
     similarity_search self query k kw w = (inl EmbeddingRequired_search, w)
     ∧ max_marginal_relevance_search self query k fetch_k lambda_mult kw w
       = (inl EmbeddingRequired_mmr, w)).
Proof.
  assert (_embedding self = None →
    similarity_search self query k kw w = (inl EmbeddingRequired_search, w)
    ∧ max_marginal_relevance_search self query k fetch_k lambda_mult kw w
      = (inl EmbeddingRequired_mmr, w)) as Hnone.
  { intros He.
    unfold similarity_search, _perform_search, max_marginal_relevance_search.
    by rewrite He. }
  split_and!; [| |done].
  - split.
    + intros (e & He & Hreq).
      destruct (_embedding self) as [emb|] eqn:Hemb; [|done].
      destruct (similarity_search_fine self query k kw) with (w := w)
        as [_ Hok]; [by rewrite Hemb|].
      by destruct (Hok e He).
    + intros He. destruct (Hnone He) as [-> _].
      exists EmbeddingRequired_search. split; [done|by left].
  - split.
    + intros (e & He & Hreq).
      destruct (_embedding self) as [emb|] eqn:Hemb; [|done].
      destruct (max_marginal_relevance_search_fine self query k fetch_k
                  lambda_mult kw) with (w := w) as [_ Hok];
        [by rewrite Hemb|].
      by destruct (Hok e He).
    + intros He. destruct (Hnone He) as [_ ->].
      exists EmbeddingRequired_mmr. split; [done|by right].
Qed.

Lemma embedding_required_iff_witness :
  _embedding (Demo.store None) = None
  ∧ @similarity_search Demo.weaviate (Demo.store None) "q" 4 ∅ Demo.world0
    = (inl EmbeddingRequired_search, Demo.world0)
  ∧ @max_marginal_relevance_search Demo.weaviate (Demo.store None) "q" 4 20
      (1 # 2) ∅ Demo.world0
    = (inl EmbeddingRequired_mmr, Demo.world0).
Proof.
  split; [reflexivity|].
  apply (@embedding_required_iff Demo.weaviate (Demo.store None) "q" 4 20
           (1 # 2) ∅ Demo.world0).
  reflexivity.
Defined.

(** ** C6: decoding result records *)

(** C6.  Let the service answer the query without fault with the records
    [ms], each of which holds the store's text field.  Then
    [similarity_search] and [similarity_search_by_vector] return, for
    every record in order, the document whose content is the record's
    text field and whose metadata holds every remaining field, whatever
    else the records hold.  When every record also carries a score under
    [_additional], [similarity_search_with_score] returns the same
    documents paired with these scores, and their metadata retains the
    [_additional] entry carrying the score.  When every record carries a
    vector under [_additional], [max_marginal_relevance_search_by_vector]
    returns the documents of the selected records with the [_additional]
    entry (the raw vector) removed from the metadata. *)
Theorem decode_contract `{Weaviate} (self : WeaviateVectorStore) (w : world)
    (response : gmap string pyval) (ms : list (gmap string pyval)) :
  (∀ q, svc_fault (calls w) (QueryDo q) = None) →
  (∀ q, svc_do (calls w) q = response) →
  response_payload self response = inr (VList (VDict <$> ms)) →
  (∀ m, m ∈ ms → is_Some (m !! _text_key self)) →
  (∀ (e : Embeddings) (query : string) (k : Z) (kw : gmap string pyval),
     _embedding self = Some e →
     Forall (λ name, kw !! name = None) ["query"; "limit"; "vector"] →
     response !! "errors" = None →
     (similarity_search self query k kw w).1
     = inr (spec_document (_text_key self) <$> ms))
  ∧ (∀ (embedding : list Q) (k : Z) (kw : gmap string pyval),
       response !! "errors" = None →
       (similarity_search_by_vector self embedding k kw w).1
       = inr (spec_document (_text_key self) <$> ms))
  ∧ (∀ (e : Embeddings) (query : string) (k : Z) (kw : gmap string pyval)
       (scores : list pyval),
       _embedding self = Some e →
       Forall (λ name, kw !! name = None)
              ["query"; "limit"; "vector"; "additional"] →
       response !! "errors" = None →
       _text_key self ≠ "_additional" →
       Forall2 (λ m score, ∃ add, m !! "_additional" = Some (VDict add)
                                  ∧ add !! "score" = Some score) ms scores →
       (similarity_search_with_score self query k kw w).1
       = inr (zip (spec_document (_text_key self) <$> ms) scores))
  ∧ (∀ (embedding : list Q) (k fetch_k : Z) (lambda_mult : Q)
       (kw : gmap string pyval) (vecs : list (list Q)),
       _text_key self ≠ "_additional" →
       Forall2 (λ m vec, ∃ add v, m !! "_additional" = Some (VDict add)
                                  ∧ add !! "vector" = Some v
                                  ∧ as_vector v = inr vec) ms vecs →
       Forall (λ vec, length vec = length embedding) vecs →
       ∃ sel,
         maximal_marginal_relevance embedding vecs k lambda_mult = inr sel
         ∧ (max_marginal_relevance_search_by_vector
              self embedding k fetch_k lambda_mult kw w).1
           = inr ((λ idx, spec_document_mmr (_text_key self) (ms !!! idx))
                    <$> sel))
  ∧ (∀ m, m ∈ ms →
       (m !! _text_key self
          = Some (page_content (spec_document (_text_key self) m))
        ∧ (∀ key, key ≠ _text_key self →
             py_getitem (metadata (spec_document (_text_key self) m)) key
             = py_getitem (VDict m) key)
        ∧ py_getitem (metadata (spec_document (_text_key self) m))
                     (_text_key self) = inl (KeyError (_text_key self)))
       ∧ (m !! _text_key self
            = Some (page_content (spec_document_mmr (_text_key self) m))
          ∧ (∀ key, key ≠ _text_key self → key ≠ "_additional" →
               py_getitem (metadata (spec_document_mmr (_text_key self) m)) key
               = py_getitem (VDict m) key)
          ∧ py_getitem (metadata (spec_document_mmr (_text_key self) m))
                       "_additional" = inl (KeyError "_additional"))).
Proof.
  intros Hfault Hanswer Hpayload Htext.
  assert (∀ m, m ∈ ms →
            m !! _text_key self = Some (default VNone (m !! _text_key self)))
    as Hcontent.
  { intros m [text Ht]%Htext. by rewrite Ht. }
  split_and!.
  - intros e query k kw He Hkw Herrors.
    by apply (similarity_search_run self w response ms) with (e := e).
  - intros embedding k kw Herrors. unfold similarity_search_by_vector.
    rewrite _build_query_obj_eq, lift_inr_run.
    rewrite bind_run, do_run, Hfault, Hanswer, Herrors. unfold lift. simpl.
    rewrite Hpayload. simpl. by rewrite mapM_decode.
  - intros e query k kw scores He Hkw Herrors Hne Hscores.
    by apply (similarity_search_with_score_run self w response ms)
      with (e := e).
  - intros embedding k fetch_k lambda_mult kw vecs Hne Hvecs Hdim.
    by apply (max_marginal_relevance_search_by_vector_run self w response ms).
  - intros m Hm. simpl. split_and!.
    + by apply Hcontent.
    + intros key Hkey. by rewrite lookup_delete_ne.
    + by rewrite lookup_delete_eq.
    + by apply Hcontent.
    + intros key Hkey Hkey'. by rewrite !lookup_delete_ne.
    + by rewrite lookup_delete_eq.
Qed.

Lemma decode_contract_witness :
  ((@similarity_search (Answers.service (Answers.response_of
                                            Answers.plain_records))
      (Demo.store (Some Demo.embeddings)) "q" 2 ∅ Demo.world0).1
   = inr (spec_document "text" <$> Answers.plain_records)
   ∧ (@similarity_search_by_vector
        (Answers.service (Answers.response_of Answers.plain_records))
        (Demo.store None) [1%Q; 0%Q] 2 ∅ Demo.world0).1
     = inr (spec_document "text" <$> Answers.plain_records))
  ∧ (@similarity_search_with_score
       (Answers.service (Answers.response_of Answers.scored_records))
       (Demo.store (Some Demo.embeddings)) "q" 2 ∅ Demo.world0).1
    = inr (zip (spec_document "text" <$> Answers.scored_records)
               Answers.scores)
  ∧ ∃ sel,
      @maximal_marginal_relevance
        (Answers.service (Answers.response_of Answers.vector_records))
        [1%Q; 0%Q] Answers.vectors 1 (1 # 2) = inr sel
      ∧ (@max_marginal_relevance_search_by_vector
           (Answers.service (Answers.response_of Answers.vector_records))
           (Demo.store None) [1%Q; 0%Q] 1 2 (1 # 2) ∅ Demo.world0).1
        = inr ((λ idx, spec_document_mmr "text"
                         (Answers.vector_records !!! idx)) <$> sel).
Proof.
  assert (∀ ms : list (gmap string pyval),
            Forall (λ m, is_Some (m !! "text")) ms →
            ∀ m, m ∈ ms → is_Some (m !! "text")) as Htext.
  { intros ms Hms m Hm. by apply (proj1 (Forall_forall _ _) Hms). }
  assert (_text_key (Demo.store None) ≠ "_additional") as Hne
    by discriminate.
  split_and!.
  - destruct (@decode_contract
                (Answers.service (Answers.response_of Answers.plain_records))
                (Demo.store (Some Demo.embeddings)) Demo.world0
                (Answers.response_of Answers.plain_records)
                Answers.plain_records) as (Hsearch & _).
    + reflexivity.
    + reflexivity.
    + reflexivity.
    + apply Htext. repeat constructor; by eexists.
    + apply (Hsearch Demo.embeddings "q" 2%Z ∅); [reflexivity| |reflexivity].
      by repeat constructor.
  - destruct (@decode_contract
                (Answers.service (Answers.response_of Answers.plain_records))
                (Demo.store None) Demo.world0
                (Answers.response_of Answers.plain_records)
                Answers.plain_records) as (_ & Hsearch & _).
    + reflexivity.
    + reflexivity.
    + reflexivity.
    + apply Htext. repeat constructor; by eexists.
    + apply (Hsearch [1%Q; 0%Q] 2%Z ∅). reflexivity.
  - destruct (@decode_contract
                (Answers.service (Answers.response_of Answers.scored_records))
                (Demo.store (Some Demo.embeddings)) Demo.world0
                (Answers.response_of Answers.scored_records)
                Answers.scored_records) as (_ & _ & Hsearch & _).
    + reflexivity.
    + reflexivity.
    + reflexivity.
    + apply Htext. repeat constructor; by eexists.
    + apply (Hsearch Demo.embeddings "q" 2%Z ∅ Answers.scores);
        [reflexivity| |reflexivity|exact Hne|].
      * by repeat constructor.
      * repeat constructor; eexists; split; reflexivity.
  - destruct (@decode_contract
                (Answers.service (Answers.response_of Answers.vector_records))
                (Demo.store None) Demo.world0
                (Answers.response_of Answers.vector_records)
                Answers.vector_records) as (_ & _ & _ & Hsearch & _).
    + reflexivity.
    + reflexivity.
    + reflexivity.
    + apply Htext. repeat constructor; by eexists.
    + apply (Hsearch [1%Q; 0%Q] 1%Z 2%Z (1 # 2)%Q ∅ Answers.vectors);
        [exact Hne| |by repeat constructor].
      repeat constructor; eexists _, _; split_and!; reflexivity.
Defined.

(** ** C7: the text variant of the MMR search delegates *)

(** C7.  With an embedding function configured,
    [max_marginal_relevance_search(query, k, fetch_k, lambda_mult, **kw)]
    is [max_marginal_relevance_search_by_vector(embed_query(query), k,
    fetch_k, lambda_mult, **kw)]: the same result and the same requests,
    in every world.  (A keyword named [embedding] cannot be forwarded next
    to the positional argument, so [kw] has none.) *)
Theorem mmr_search_delegates `{Weaviate} (self : WeaviateVectorStore)
    (e : Embeddings) (query : string) (k fetch_k : Z) (lambda_mult : Q)
    (kw : gmap string pyval) :
  _embedding self = Some e → kw !! "embedding" = None →
  max_marginal_relevance_search self query k fetch_k lambda_mult kw
  = max_marginal_relevance_search_by_vector self (embed_query e query)
      k fetch_k lambda_mult kw.
Proof.
  intros He Hkw. unfold max_marginal_relevance_search. rewrite He.
  rewrite bind_formals_fresh by (by repeat constructor).
  reflexivity.
Qed.

Lemma mmr_search_delegates_witness :
  _embedding (Demo.store (Some Demo.embeddings)) = Some Demo.embeddings
  ∧ Demo.kw_tenant !! "embedding" = None
  ∧ @max_marginal_relevance_search Demo.weaviate
      (Demo.store (Some Demo.embeddings)) "q" 2 3 (1 # 2) Demo.kw_tenant
    = @max_marginal_relevance_search_by_vector Demo.weaviate
        (Demo.store (Some Demo.embeddings))
        (embed_query Demo.embeddings "q") 2 3 (1 # 2) Demo.kw_tenant.
Proof.
  split_and!; [reflexivity|reflexivity|].
  apply (@mmr_search_delegates Demo.weaviate); reflexivity.
Defined.

(** ** C8: serialization of metadata values *)

(** C8.  For every call of [add_texts] that inserts its texts (the
    service fails no request and the supplied lists are long enough), the
    object inserted for the [i]-th text stores, under every key of
    [metadatas[i]], the ISO-8601 string of the value when the value is a
    datetime, and the value itself otherwise. *)
Theorem add_texts_serializes_metadata `{Weaviate} (self : WeaviateVectorStore)
    (texts : list string) (ms : list (gmap string pyval))
    (kw : gmap string pyval) (w : world) :
  (∀ h r, svc_fault h r = None) →
  length texts ≤ length ms →
  (∀ v, supplied_ids kw = Some v →
        ∃ l, v = VList l ∧ length texts ≤ length l) →
  (∀ es, add_texts_embeddings self texts = Some es →
         es = [] ∨ length texts ≤ length es) →
  ∃ objs,
    calls (add_texts self texts (Some ms) kw w).2
      = calls w ++ [BatchEnter] ++ (BatchAddDataObject <$> objs)
                ++ [BatchExit]
    ∧ length objs = length texts
    ∧ ∀ i m key val,
        i < length texts → ms !! i = Some m → m !! key = Some val →
        ∃ obj, objs !! i = Some obj
               ∧ do_properties obj !! key =
                 Some (match val with
                       | VDatetime d => VStr (isoformat d)
                       | _ => val
                       end).
Proof.
  intros Hfault Hmd Hids Hemb.
  destruct (add_texts_objects_total self (Some ms) kw
              (add_texts_embeddings self texts) texts (uuids_drawn w) 0)
    as [objs Hobjs]; [by intros ? [= <-]|done..|].
  exists objs.
  pose proof (add_texts_objects_length _ _ _ _ _ _ _ _ Hobjs) as Hlen.
  rewrite (add_texts_run Hfault self texts (Some ms) kw w objs Hobjs).
  split_and!; [done|done|].
  intros i m key val Hi Hm Hval.
  apply lookup_lt_is_Some_2 in Hi as [text Htext].
  destruct (add_texts_objects_lookup _ _ _ _ _ _ _ _ _ _ Hobjs Htext)
    as (obj & Hobj & Hid).
  exists obj. split; [done|].
  unfold add_texts_object, metadata_at, nth_or_IndexError in Hid.
  simpl in Hid. rewrite Hm in Hid. simpl in Hid.
  destruct (chosen_id kw _ _) as [e|id]; [done|]. simpl in Hid.
  destruct (vector_at _ _) as [e|vec]; [done|]. injection Hid as <-. simpl.
  by rewrite set_items_lookup, Hval.
Qed.

Lemma add_texts_serializes_metadata_witness :
  ∃ objs,
    calls (@add_texts Demo.weaviate (Demo.store None) ["a"; "b"]
             (Some Demo.metadatas) ∅ Demo.world0).2
      = calls Demo.world0 ++ [BatchEnter] ++ (BatchAddDataObject <$> objs)
                          ++ [BatchExit]
    ∧ length objs = length ["a"; "b"]
    ∧ ∀ i m key val,
        i < length ["a"; "b"] → Demo.metadatas !! i = Some m →
        m !! key = Some val →
        ∃ obj, objs !! i = Some obj
               ∧ do_properties obj !! key =
                 Some (match val with
                       | VDatetime d => VStr (Demo.iso8601 d)
                       | _ => val
                       end).
Proof.
  apply (@add_texts_serializes_metadata Demo.weaviate (Demo.store None)
           ["a"; "b"] Demo.metadatas ∅ Demo.world0).
  - reflexivity.
  - simpl. lia.
  - intros v Hv. discriminate Hv.
  - intros es Hes. discriminate Hes.
Defined.

(** ** C9: [from_texts] creates the schema only for a new index *)

(** C9.  For every call of [from_texts] on a client whose requests up to
    and including the existence check are answered: among all the
    requests the call sends there is exactly one schema creation, of the
    default schema of the index, when the service answers that the index
    does not exist, and none when it answers that the index exists.  The
    layer has no other request that touches a schema. *)
Theorem from_texts_creates_schema_iff_absent `{Weaviate}
    (texts : list string) (embedding : option Embeddings)
    (metadatas : option (list (gmap string pyval))) (batch_size : option Z)
    (index_name : option string) (text_key : string) (by_text : bool)
    (rsf : option (Q → Q)) (kw : gmap string pyval) (w : world) :
  let w' := (from_texts texts embedding Client metadatas batch_size index_name
                        text_key by_text rsf kw w).2 in
  let pre := configure_requests batch_size in
  let name := resolved_index_name index_name w in
  Forall (λ r, svc_fault (calls w) r = None) pre →
  svc_fault (calls w ++ pre) (SchemaExists name) = None →
  List.filter is_SchemaCreateClass (sent_since w w') =
  if svc_exists (calls w ++ pre) name then []
  else [SchemaCreateClass (_default_schema name)].
Proof.
  intros w' pre name Hpre Hexists. subst w'. unfold from_texts.
  (* the batch configuration *)
  set (w1 := {| calls := calls w ++ pre; uuids_drawn := uuids_drawn w |}).
  rewrite bind_run.
  assert (match batch_size with
          | Some n => if negb (n =? 0)%Z
                      then client_attr Client "batch";; send (BatchConfigure n)
                      else mret ()
          | None => mret ()
          end w = (inr (), w1)) as ->.
  { subst pre w1. unfold configure_requests in *.
    destruct batch_size as [n|]; [destruct (negb _)|].
    - unfold client_attr. rewrite ret_bind_run, send_run.
      apply Forall_cons in Hpre as [Hr _]. by rewrite Hr.
    - simpl. rewrite app_nil_r. by destruct w.
    - simpl. rewrite app_nil_r. by destruct w. }
  (* the index name *)
  set (w2 := {| calls := calls w ++ pre;
                uuids_drawn := match index_name with
                               | Some s => if negb (String.eqb s "")
                                           then uuids_drawn w
                                           else S (uuids_drawn w)
                               | None => S (uuids_drawn w)
                               end |}).
  rewrite bind_run.
  assert (match index_name with
          | Some s =>
              if negb (String.eqb s "") then mret s
              else u ← draw_uuid4; mret ("LangChain_" +:+ uuid_hex u)
          | None => u ← draw_uuid4; mret ("LangChain_" +:+ uuid_hex u)
          end w1 = (inr name, w2)) as ->.
  { subst name w2 w1. unfold resolved_index_name.
    destruct index_name as [s|]; [destruct (negb _)|]; reflexivity. }
  (* the check and the creation *)
  cbv zeta. unfold client_attr. rewrite ret_bind_run.
  rewrite bind_run, schema_exists_run. simpl (calls w2). rewrite Hexists.
  destruct (svc_exists (calls w ++ pre) name) eqn:Hex; simpl negb; cbv iota.
  - rewrite ret_bind_run.
    erewrite (filter_sent_since _ w _ (pre ++ [SchemaExists name])).
    + rewrite List.filter_app. simpl. rewrite app_nil_r.
      subst pre. unfold configure_requests.
      destruct batch_size as [n|]; [destruct (negb _)|]; done.
    + simpl. by rewrite (assoc_L (++)).
    + apply from_texts_insert_sends.
      * intros r Hr. destruct r; try done. by destruct (Hr schema).
      * case_match; [apply behaves_lift, raises_only_True|].
        destruct p. by apply behaves_raise.
  - rewrite bind_run, send_run. simpl (calls _).
    destruct (svc_fault _ (SchemaCreateClass _)) as [msg|].
    + simpl. rewrite (sent_since_app w _
        (pre ++ [SchemaExists name; SchemaCreateClass (_default_schema name)])).
      2: { simpl. by rewrite <- !(assoc_L (++)). }
      rewrite List.filter_app. simpl.
      subst pre. unfold configure_requests.
      destruct batch_size as [n|]; [destruct (negb _)|]; done.
    + erewrite (filter_sent_since _ w _
        (pre ++ [SchemaExists name; SchemaCreateClass (_default_schema name)])).
      * rewrite List.filter_app. simpl.
        subst pre. unfold configure_requests.
        destruct batch_size as [n|]; [destruct (negb _)|]; done.
      * simpl. by rewrite <- !(assoc_L (++)).
      * apply from_texts_insert_sends.
        -- intros r Hr. destruct r; try done. by destruct (Hr schema).
        -- case_match; [apply behaves_lift, raises_only_True|].
           destruct p. by apply behaves_raise.
Qed.

Lemma from_texts_creates_schema_iff_absent_witness :
  Forall (λ r, @svc_fault Demo.weaviate (calls Demo.world0) r = None)
         (configure_requests (Some 10%Z))
  ∧ List.filter is_SchemaCreateClass
      (sent_since Demo.world0
         (@from_texts Demo.weaviate ["a"] None Client None (Some 10%Z)
            (Some "New") "text" false None ∅ Demo.world0).2)
    = [SchemaCreateClass (_default_schema "New")]
  ∧ List.filter is_SchemaCreateClass
      (sent_since Demo.world0
         (@from_texts Demo.weaviate ["a"] None Client None (Some 10%Z)
            (Some "Docs") "text" false None ∅ Demo.world0).2)
    = [].
Proof.
  assert (Forall (λ r, @svc_fault Demo.weaviate (calls Demo.world0) r = None)
                 (configure_requests (Some 10%Z))) as Hpre
    by (by repeat constructor).
  split_and!; [exact Hpre|..].
  - apply (@from_texts_creates_schema_iff_absent Demo.weaviate ["a"] None None
             (Some 10%Z) (Some "New") "text" false None ∅ Demo.world0 Hpre).
    reflexivity.
  - apply (@from_texts_creates_schema_iff_absent Demo.weaviate ["a"] None None
             (Some 10%Z) (Some "Docs") "text" false None ∅ Demo.world0 Hpre).
    reflexivity.
Defined.

(** ** C10: the text key heads the query attributes *)

(** C10.  A store built by [__init__] (directly, or by [from_texts]) has
    its text key as the first query attribute; the methods take the store
    as an immutable value, so this holds at every later call; and every
    query sent by every search operation requests exactly the store's
    query attributes, hence the text key that the decoding step pops from
    each record. *)
Theorem query_attrs_start_with_text_key `{Weaviate} (client : client_obj)
    (index_name text_key : string) (embedding : option Embeddings)
    (attributes : option (list string)) (rsf : option (Q → Q))
    (by_text : bool) (self : WeaviateVectorStore) :
  __init__ client index_name text_key embedding attributes rsf by_text
    = inr self →
  _text_key self = text_key
  ∧ head (_query_attrs self) = Some text_key
  ∧ (∀ (c : search_call) (kw : gmap string pyval) (w : world) (q : GetBuilder),
       QueryDo q ∈ sent_since w (run_search self c kw w).2 →
       q_properties q = _query_attrs self
       ∧ head (q_properties q) = Some (_text_key self)
       ∧ _text_key self ∈ q_properties q)
  ∧ (∀ texts metadatas batch_size name by_text' rsf' kw w self' w',
       from_texts texts embedding client metadatas batch_size name text_key
                  by_text' rsf' kw w = (inr self', w') →
       _text_key self' = text_key
       ∧ head (_query_attrs self') = Some text_key).
Proof.
  intros Hinit. apply __init___attrs in Hinit as [Hkey Hattrs].
  split_and!; [done|by rewrite Hattrs| |].
  - intros c kw w q Hq. apply run_search_sent in Hq as (_ & -> & _).
    rewrite Hattrs, Hkey. split_and!; [done|done|by left].
  - intros texts metadatas batch_size name by_text' rsf' kw w self' w' Hft.
    apply from_texts_returns in Hft as (? & rest & ->). done.
Qed.

Lemma query_attrs_start_with_text_key_witness :
  __init__ Client "Docs" "text" None (Some ["source"]) None true
    = inr (Demo.store None)
  ∧ head (_query_attrs (Demo.store None)) = Some "text"
  ∧ ∀ (c : search_call) (kw : gmap string pyval) (w : world) (q : GetBuilder),
      QueryDo q ∈ sent_since w
        (@run_search Demo.weaviate (Demo.store None) c kw w).2 →
      q_properties q = _query_attrs (Demo.store None)
      ∧ head (q_properties q) = Some (_text_key (Demo.store None))
      ∧ _text_key (Demo.store None) ∈ q_properties q.
Proof.
  assert (__init__ Client "Docs" "text" None (Some ["source"]) None true
          = inr (Demo.store None)) as Hinit by reflexivity.
  split; [exact Hinit|].
  destruct (@query_attrs_start_with_text_key Demo.weaviate Client "Docs"
              "text" None (Some ["source"]) None true (Demo.store None) Hinit)
    as (_ & Hhead & Hsearch & _).
  split; [exact Hhead|exact Hsearch].
Defined.


(** * Further properties *)

(** ** Deleting by id *)

Section delete_runs.
Context `{Weaviate}.

Lemma delete_loop_all (ids : list string) : ∀ w,
  (∀ j id, ids !! j = Some id →
     svc_fault (calls w ++ (DataObjectDelete <$> take j ids))
               (DataObjectDelete id) = None) →
  VectorStore.delete_loop ids w =
  (inr (), {| calls := calls w ++ (DataObjectDelete <$> ids);
              uuids_drawn := uuids_drawn w |}).
Proof.
  induction ids as [|id ids IH]; intros w Hok; simpl.
  - rewrite app_nil_r. by destruct w.
  - rewrite bind_run, send_run.
    pose proof (Hok 0 id eq_refl) as H0. simpl in H0.
    rewrite app_nil_r in H0. rewrite H0, IH.
    + simpl. by rewrite <- (assoc_L (++)).
    + intros j id' Hj. simpl. rewrite <- (assoc_L (++)).
      apply (Hok (S j) id' Hj).
Qed.

Lemma delete_loop_failure (pre : list string) (bad : string)
    (post : list string) (msg : string) : ∀ w,
  (∀ j id, pre !! j = Some id →
     svc_fault (calls w ++ (DataObjectDelete <$> take j pre))
               (DataObjectDelete id) = None) →
  svc_fault (calls w ++ (DataObjectDelete <$> pre)) (DataObjectDelete bad)
    = Some msg →
  VectorStore.delete_loop (pre ++ bad :: post) w =
  (inl (ServiceError msg),
   {| calls := calls w ++ (DataObjectDelete <$> pre ++ [bad]);
      uuids_drawn := uuids_drawn w |}).
Proof.
  induction pre as [|id pre IH]; intros w Hok Hbad; simpl.
  - rewrite bind_run, send_run. simpl in Hbad. rewrite app_nil_r in Hbad.
    by rewrite Hbad.
  - rewrite bind_run, send_run.
    pose proof (Hok 0 id eq_refl) as H0. simpl in H0.
    rewrite app_nil_r in H0. rewrite H0, IH.
    + simpl. by rewrite <- (assoc_L (++)).
    + intros j id' Hj. simpl. rewrite <- (assoc_L (++)).
      apply (Hok (S j) id' Hj).
    + simpl. rewrite <- (assoc_L (++)). exact Hbad.
Qed.
End delete_runs.

(** X1.  When the service fails none of them, [delete] sends one delete
    request per id, in the order of the list and nothing else, and
    returns normally. *)
Theorem delete_sends_one_request_per_id `{Weaviate}
    (self : WeaviateVectorStore) (ids : list string)
    (kw : gmap string pyval) (w : world) :
  (∀ j id, ids !! j = Some id →
     svc_fault (calls w ++ (DataObjectDelete <$> take j ids))
               (DataObjectDelete id) = None) →
  VectorStore.delete self (Some ids) kw w =
  (inr (), {| calls := calls w ++ (DataObjectDelete <$> ids);
              uuids_drawn := uuids_drawn w |}).
Proof. intros Hok. simpl. by apply delete_loop_all. Qed.

Lemma delete_sends_one_request_per_id_witness :
  (∀ j id, ["id1"; "id2"] !! j = Some id →
     @svc_fault Demo.weaviate
        (calls Demo.world0 ++ (DataObjectDelete <$> take j ["id1"; "id2"]))
        (DataObjectDelete id) = None)
  ∧ @VectorStore.delete Demo.weaviate (Demo.store None) (Some ["id1"; "id2"])
      ∅ Demo.world0 =
    (inr (), {| calls := [DataObjectDelete "id1"; DataObjectDelete "id2"];
                uuids_drawn := 0 |}).
Proof.
  assert (∀ j id, ["id1"; "id2"] !! j = Some id →
     @svc_fault Demo.weaviate
        (calls Demo.world0 ++ (DataObjectDelete <$> take j ["id1"; "id2"]))
        (DataObjectDelete id) = None) as Hok by reflexivity.
  split; [exact Hok|].
  exact (@delete_sends_one_request_per_id Demo.weaviate (Demo.store None)
           ["id1"; "id2"] ∅ Demo.world0 Hok).
Defined.

(** X2.  The first delete the service fails aborts the call: the ids
    before it have been deleted (their requests are not undone), the
    failing request is the last one sent, the service's error is raised
    and the ids after it are never sent. *)
Theorem delete_stops_at_first_failure `{Weaviate}
    (self : WeaviateVectorStore) (pre : list string) (bad : string)
    (post : list string) (msg : string) (kw : gmap string pyval)
    (w : world) :
  (∀ j id, pre !! j = Some id →
     svc_fault (calls w ++ (DataObjectDelete <$> take j pre))
               (DataObjectDelete id) = None) →
  svc_fault (calls w ++ (DataObjectDelete <$> pre)) (DataObjectDelete bad)
    = Some msg →
  VectorStore.delete self (Some (pre ++ bad :: post)) kw w =
  (inl (ServiceError msg),
   {| calls := calls w ++ (DataObjectDelete <$> pre ++ [bad]);
      uuids_drawn := uuids_drawn w |}).
Proof. intros Hok Hbad. simpl. by apply delete_loop_failure. Qed.

Lemma delete_stops_at_first_failure_witness :
  @svc_fault Outage.weaviate
     (calls Demo.world0 ++ (DataObjectDelete <$> ["id1"]))
     (DataObjectDelete "bad") = Some "500"
  ∧ @VectorStore.delete Outage.weaviate (Demo.store None)
      (Some (["id1"] ++ "bad" :: ["id3"])) ∅ Demo.world0 =
    (inl (ServiceError "500"),
     {| calls := [DataObjectDelete "id1"; DataObjectDelete "bad"];
        uuids_drawn := 0 |}).
Proof.
  assert (@svc_fault Outage.weaviate
            (calls Demo.world0 ++ (DataObjectDelete <$> ["id1"]))
            (DataObjectDelete "bad") = Some "500") as Hbad by reflexivity.
  split; [exact Hbad|].
  apply (@delete_stops_at_first_failure Outage.weaviate (Demo.store None)
           ["id1"] "bad" ["id3"] "500" ∅ Demo.world0); [|exact Hbad].
  intros [|[|j]] id Hj; [|discriminate Hj..].
  injection Hj as <-. reflexivity.
Defined.

(** ** The request a search builds *)

Lemma built_calls_ext (kw kw' : gmap string pyval) :
  (∀ name, name ∈ recognised_kwargs → kw !! name = kw' !! name) →
  built_calls kw = built_calls kw'.
Proof.
  intros Hkw.
  assert (∀ name, name ∈ recognised_kwargs →
            kwargs_get kw name = kwargs_get kw' name) as Hget.
  { intros name Hname. unfold kwargs_get. by rewrite (Hkw name Hname). }
  assert (∀ name, name ∈ hybrid_args → name ∈ recognised_kwargs) as Hhyb.
  { intros name Hname. unfold recognised_kwargs. set_solver. }
  unfold built_calls, truthy_arg.
  rewrite !(Hget "where_filter"), !(Hget "tenant"), !(Hget "additional"),
    !(Hget "limit") by (unfold recognised_kwargs; set_solver).
  replace (hybrid_kwargs kw) with (hybrid_kwargs kw'); [done|].
  unfold hybrid_kwargs.
  assert (List.filter (λ arg, truthy (kwargs_get kw' arg)) hybrid_args
          = List.filter (λ arg, truthy (kwargs_get kw arg)) hybrid_args)
    as ->.
  { unfold hybrid_args. cbn [List.filter].
    rewrite !(Hget "query"), !(Hget "alpha"), !(Hget "vector"),
      !(Hget "properties"), !(Hget "fusion_type")
      by (apply Hhyb; unfold hybrid_args; set_solver).
    done. }
  apply list_fmap_ext. intros i name Hname. f_equal. symmetry.
  apply Hget, Hhyb. apply list_elem_of_lookup_2 in Hname.
  apply list_elem_of_In, filter_In in Hname as [Hname _].
  by apply list_elem_of_In.
Qed.

(** X3.  [_build_query_obj] reads nine keywords and ignores every other:
    two sets of keyword arguments that agree on [where_filter], [tenant],
    [additional], [limit], [query], [alpha], [vector], [properties] and
    [fusion_type] give the same request. *)
Theorem build_query_obj_ignores_other_keywords (self : WeaviateVectorStore)
    (kw kw' : gmap string pyval) :
  (∀ name, name ∈ recognised_kwargs → kw !! name = kw' !! name) →
  _build_query_obj self kw = _build_query_obj self kw'.
Proof.
  intros Hkw. rewrite !_build_query_obj_eq. by rewrite (built_calls_ext kw kw').
Qed.

Lemma build_query_obj_ignores_other_keywords_witness :
  (∀ name, name ∈ recognised_kwargs →
           Outage.kw_unknown !! name = Demo.kw_tenant !! name)
  ∧ _build_query_obj (Demo.store None) Outage.kw_unknown
    = _build_query_obj (Demo.store None) Demo.kw_tenant.
Proof.
  assert (∀ name, name ∈ recognised_kwargs →
            Outage.kw_unknown !! name = Demo.kw_tenant !! name) as Hkw.
  { intros name Hname. unfold recognised_kwargs, hybrid_args in Hname.
    repeat (apply elem_of_cons in Hname as [->|Hname]; [reflexivity|]).
    by apply elem_of_nil in Hname. }
  split; [exact Hkw|].
  exact (build_query_obj_ignores_other_keywords (Demo.store None)
           Outage.kw_unknown Demo.kw_tenant Hkw).
Defined.

(** X4.  The searches by vector always send exactly one request, whatever
    the service answers: the Get query for the store's index and
    attributes built from the keywords, then [with_near_vector] of the
    given embedding and last [with_limit(k)]; the MMR variant first asks
    for the records' vectors and limits the query to [fetch_k], not [k].
    A [limit] keyword is therefore overridden by the later call. *)
Theorem by_vector_searches_send_one_query `{Weaviate}
    (self : WeaviateVectorStore) (embedding : list Q) (k fetch_k : Z)
    (lambda_mult : Q) (kw : gmap string pyval) (w : world) :
  (similarity_search_by_vector self embedding k kw w).2 =
    {| calls := calls w ++
         [QueryDo {| q_class := _index_name self;
                     q_properties := _query_attrs self;
                     q_calls := built_calls kw ++
                       [with_near_vector embedding; with_limit (VInt k)] |}];
       uuids_drawn := uuids_drawn w |}
  ∧ (max_marginal_relevance_search_by_vector self embedding k fetch_k
       lambda_mult kw w).2 =
    {| calls := calls w ++
         [QueryDo {| q_class := _index_name self;
                     q_properties := _query_attrs self;
                     q_calls := built_calls kw ++
                       [with_additional (VStr "vector");
                        with_near_vector embedding;
                        with_limit (VInt fetch_k)] |}];
       uuids_drawn := uuids_drawn w |}.
Proof.
  split.
  - unfold similarity_search_by_vector.
    rewrite _build_query_obj_eq, lift_inr_run, bind_run, do_run.
    unfold add_call. simpl. rewrite <- !(assoc_L (++)). simpl.
    destruct (svc_fault _ _); [done|]. by case_match.
  - unfold max_marginal_relevance_search_by_vector.
    rewrite _build_query_obj_eq, lift_inr_run, bind_run, do_run.
    unfold add_call. simpl. rewrite <- !(assoc_L (++)). simpl.
    by destruct (svc_fault _ _).
Qed.

Lemma list_to_map_union_inserts (k1 k2 k3 : string) (v1 v2 v3 : pyval)
    (kw : gmap string pyval) :
  list_to_map [(k1, v1); (k2, v2); (k3, v3)] ∪ kw
  = <[k1 := v1]> (<[k2 := v2]> (<[k3 := v3]> kw)).
Proof.
  simpl. rewrite <- !insert_union_l. by rewrite (left_id_L ∅ (∪)).
Qed.

Lemma with_limit_not_built (kw : gmap string pyval) (v : pyval) :
  truthy (kwargs_get kw "limit") = false → with_limit v ∉ built_calls kw.
Proof.
  intros Hlimit Hin. unfold built_calls, truthy_arg in Hin.
  rewrite Hlimit in Hin. simpl in Hin.
  rewrite !elem_of_app in Hin.
  destruct Hin as [Hin|[Hin|[Hin|Hin]]].
  - apply list_elem_of_fmap in Hin as (? & [=] & _).
  - apply list_elem_of_fmap in Hin as (? & [=] & _).
  - apply list_elem_of_fmap in Hin as (? & [=] & _).
  - destruct (existsb _ _); [|by apply elem_of_nil in Hin].
    apply list_elem_of_singleton in Hin. discriminate Hin.
Qed.

(** X5.  With an embedding function configured and no [query], [limit] or
    [vector] keyword, [similarity_search] sends exactly one request,
    whatever the service answers: the query built from the caller's
    keywords together with [query] (the text), [limit] ([k]) and [vector]
    (the text's embedding).  So a non-empty text is searched as a hybrid
    query and [k], when not zero, is the limit; with [k = 0] the request
    carries no limit at all. *)
Theorem similarity_search_request `{Weaviate} (self : WeaviateVectorStore)
    (e : Embeddings) (query : string) (k : Z) (kw : gmap string pyval)
    (w : world) :
  _embedding self = Some e →
  Forall (λ name, kw !! name = None) ["query"; "limit"; "vector"] →
  ∃ q,
    (similarity_search self query k kw w).2 =
      {| calls := calls w ++ [QueryDo q]; uuids_drawn := uuids_drawn w |}
    ∧ q_class q = _index_name self
    ∧ q_properties q = _query_attrs self
    ∧ q_calls q =
        built_calls (<["query" := VStr query]>
                       (<["limit" := VInt k]>
                          (<["vector" := of_vector (embed_query e query)]> kw)))
    ∧ (query ≠ "" →
       ∃ kwargs, with_hybrid kwargs ∈ q_calls q
                 ∧ ("query", VStr query) ∈ kwargs)
    ∧ (k ≠ 0%Z → with_limit (VInt k) ∈ q_calls q)
    ∧ (k = 0%Z → ∀ v, with_limit v ∉ q_calls q).
Proof.
  intros He Hkw. eexists. split.
  { unfold similarity_search, _perform_search. rewrite He.
    rewrite bind_run, call_kwargs_fresh by done.
    rewrite lift_inr_run, _build_query_obj_eq, lift_inr_run.
    rewrite bind_run, do_run. rewrite list_to_map_union_inserts.
    destruct (svc_fault _ _); [reflexivity|].
    destruct (_ !! "errors"); reflexivity. }
  assert (kwargs_get
            (<["query" := VStr query]>
               (<["limit" := VInt k]>
                  (<["vector" := of_vector (embed_query e query)]> kw)))
            "limit" = VInt k) as Hlimit.
  { unfold kwargs_get. rewrite lookup_insert_ne by done.
    by rewrite lookup_insert_eq. }
  simpl. split_and!; [done|done|done|..].
  - intros Hquery.
    assert (truthy (VStr query) = true) as Htruthy.
    { simpl. apply negb_true_iff, String.eqb_neq. done. }
    assert ("query" ∈ hybrid_args) as Hname
      by (unfold hybrid_args; set_solver).
    destruct (hybrid_kwargs_elem
      (<["query" := VStr query]>
         (<["limit" := VInt k]>
            (<["vector" := of_vector (embed_query e query)]> kw)))
      "query" (VStr query) Hname (lookup_insert_eq _ _ _) Htruthy)
      as [Hin Hex].
    eexists. split; [|exact Hin]. unfold built_calls. rewrite Hex.
    rewrite !elem_of_app. do 4 right. by left.
  - intros Hk. unfold built_calls, truthy_arg. rewrite Hlimit. simpl.
    apply Z.eqb_neq in Hk. rewrite Hk. simpl.
    rewrite !elem_of_app. do 3 right. left.
  - intros -> v. apply with_limit_not_built. by rewrite Hlimit.
Qed.

Lemma similarity_search_request_witness :
  _embedding (Demo.store (Some Demo.embeddings)) = Some Demo.embeddings
  ∧ Forall (λ name, Demo.kw_tenant !! name = None)
           ["query"; "limit"; "vector"]
  ∧ ∃ q,
      (@similarity_search Demo.weaviate (Demo.store (Some Demo.embeddings))
         "cats" 4 Demo.kw_tenant Demo.world0).2 =
        {| calls := calls Demo.world0 ++ [QueryDo q];
           uuids_drawn := uuids_drawn Demo.world0 |}
      ∧ with_limit (VInt 4) ∈ q_calls q.
Proof.
  assert (Forall (λ name, Demo.kw_tenant !! name = None)
                 ["query"; "limit"; "vector"]) as Hkw
    by (by repeat constructor).
  split_and!; [reflexivity|exact Hkw|].
  destruct (@similarity_search_request Demo.weaviate
              (Demo.store (Some Demo.embeddings)) Demo.embeddings "cats" 4
              Demo.kw_tenant Demo.world0 eq_refl Hkw)
    as (q & Hq & _ & _ & _ & _ & Hlimit & _).
  exists q. split; [exact Hq|]. apply Hlimit. discriminate.
Defined.

(** ** Error paths of the searches *)

(** X6.  When the service's answer holds an ["errors"] entry, the
    similarity searches raise the "Error during query" ValueError carrying
    that entry and return no document, whatever else the answer holds. *)
Theorem query_errors_are_raised `{Weaviate} (self : WeaviateVectorStore)
    (e : Embeddings) (query : string) (embedding : list Q) (k : Z)
    (kw : gmap string pyval) (w : world) (errors : pyval) :
  _embedding self = Some e →
  Forall (λ name, kw !! name = None)
         ["query"; "limit"; "vector"; "additional"] →
  (∀ q, svc_fault (calls w) (QueryDo q) = None) →
  (∀ q, svc_do (calls w) q !! "errors" = Some errors) →
  (similarity_search self query k kw w).1 = inl (QueryError errors)
  ∧ (similarity_search_by_vector self embedding k kw w).1
    = inl (QueryError errors)
  ∧ (similarity_search_with_score self query k kw w).1
    = inl (QueryError errors).
Proof.
  intros He Hkw Hfault Herrors.
  assert (∀ kw', Forall (λ name, kw' !! name = None)
                        ["query"; "limit"; "vector"] →
            ∃ w', _perform_search self query k kw' w
                  = (inl (QueryError errors), w')) as Hperform.
  { intros kw' Hkw'. unfold _perform_search. rewrite He.
    rewrite call_kwargs_fresh by done.
    rewrite lift_inr_run, _build_query_obj_eq, lift_inr_run.
    rewrite bind_run, do_run, Hfault, Herrors. by eexists. }
  split_and!.
  - unfold similarity_search. rewrite bind_run.
    destruct (Hperform kw) as [w' ->]; [by decompose_Forall|done].
  - unfold similarity_search_by_vector.
    rewrite _build_query_obj_eq, lift_inr_run.
    by rewrite bind_run, do_run, Hfault, Herrors.
  - unfold similarity_search_with_score.
    rewrite call_kwargs_fresh by (repeat constructor; by decompose_Forall).
    rewrite lift_inr_run, bind_run.
    edestruct Hperform as [w' ->]; [|done].
    decompose_Forall. repeat constructor; simpl.
    all: by rewrite lookup_union_r.
Qed.

Lemma query_errors_are_raised_witness :
  Forall (λ name, (∅ : gmap string pyval) !! name = None)
         ["query"; "limit"; "vector"; "additional"]
  ∧ (∀ q, @svc_do Outage.weaviate (calls Demo.world0) q !! "errors"
          = Some Outage.errors)
  ∧ (@similarity_search Outage.weaviate (Demo.store (Some Demo.embeddings))
       "q" 4 ∅ Demo.world0).1 = inl (QueryError Outage.errors)
  ∧ (@similarity_search_by_vector Outage.weaviate
       (Demo.store (Some Demo.embeddings)) [1%Q; 0%Q] 4 ∅ Demo.world0).1
    = inl (QueryError Outage.errors)
  ∧ (@similarity_search_with_score Outage.weaviate
       (Demo.store (Some Demo.embeddings)) "q" 4 ∅ Demo.world0).1
    = inl (QueryError Outage.errors).
Proof.
  assert (Forall (λ name, (∅ : gmap string pyval) !! name = None)
                 ["query"; "limit"; "vector"; "additional"]) as Hkw
    by (by repeat constructor).
  assert (∀ q, @svc_do Outage.weaviate (calls Demo.world0) q !! "errors"
               = Some Outage.errors) as Herr by reflexivity.
  split; [exact Hkw|]. split; [exact Herr|].
  apply (@query_errors_are_raised Outage.weaviate
           (Demo.store (Some Demo.embeddings)) Demo.embeddings "q"
           [1%Q; 0%Q] 4 ∅ Demo.world0 Outage.errors eq_refl Hkw);
    [reflexivity|exact Herr].
Defined.

(** X7.  [max_marginal_relevance_search_by_vector] does not look at
    ["errors"]: when the service's answer has no ["data"] entry (as an
    error report has none) it raises [KeyError("data")], and so does the
    text variant that delegates to it. *)
Theorem mmr_search_without_data `{Weaviate} (self : WeaviateVectorStore)
    (e : Embeddings) (query : string) (embedding : list Q) (k fetch_k : Z)
    (lambda_mult : Q) (kw : gmap string pyval) (w : world) :
  _embedding self = Some e → kw !! "embedding" = None →
  (∀ q, svc_fault (calls w) (QueryDo q) = None) →
  (∀ q, svc_do (calls w) q !! "data" = None) →
  (max_marginal_relevance_search_by_vector self embedding k fetch_k
     lambda_mult kw w).1 = inl (KeyError "data")
  ∧ (max_marginal_relevance_search self query k fetch_k lambda_mult kw w).1
    = inl (KeyError "data").
Proof.
  intros He Hkw Hfault Hdata.
  assert (∀ emb, (max_marginal_relevance_search_by_vector self emb k fetch_k
                    lambda_mult kw w).1 = inl (KeyError "data")) as Hby.
  { intros emb. unfold max_marginal_relevance_search_by_vector.
    rewrite _build_query_obj_eq, lift_inr_run.
    rewrite bind_run, do_run, Hfault. unfold lift, response_payload. simpl.
    by rewrite Hdata. }
  split; [apply Hby|].
  unfold max_marginal_relevance_search. rewrite He.
  rewrite bind_formals_fresh by (by repeat constructor).
  rewrite lift_inr_run. apply Hby.
Qed.

Lemma mmr_search_without_data_witness :
  (∀ q, @svc_do Outage.weaviate (calls Demo.world0) q !! "data" = None)
  ∧ (@max_marginal_relevance_search_by_vector Outage.weaviate
       (Demo.store (Some Demo.embeddings)) [1%Q; 0%Q] 2 3 (1 # 2) ∅
       Demo.world0).1 = inl (KeyError "data")
  ∧ (@max_marginal_relevance_search Outage.weaviate
       (Demo.store (Some Demo.embeddings)) "q" 2 3 (1 # 2) ∅ Demo.world0).1
    = inl (KeyError "data").
Proof.
  assert (∀ q, @svc_do Outage.weaviate (calls Demo.world0) q !! "data" = None)
    as Hdata by reflexivity.
  split; [exact Hdata|].
  apply (@mmr_search_without_data Outage.weaviate
           (Demo.store (Some Demo.embeddings)) Demo.embeddings "q"
           [1%Q; 0%Q] 2 3 (1 # 2) ∅ Demo.world0);
    [reflexivity|reflexivity|reflexivity|exact Hdata].
Defined.

Lemma mapM_decode_missing (text_key : string) (ms : list (gmap string pyval))
    (m : gmap string pyval) :
  m ∈ ms → m !! text_key = None →
  mapM (decode text_key) (VDict <$> ms) = inl (KeyError text_key).
Proof.
  intros Hm Hnone. induction ms as [|m' ms IH]; [by apply elem_of_nil in Hm|].
  apply elem_of_cons in Hm as [->|Hm].
  - assert (decode text_key (VDict m') = inl (KeyError text_key)) as Hdec.
    { unfold decode. simpl. by rewrite Hnone. }
    csimpl. by rewrite Hdec.
  - csimpl. destruct (decode text_key (VDict m')) as [e|doc] eqn:Hdec.
    + unfold decode in Hdec. simpl in Hdec.
      destruct (m' !! text_key); [done|]. by injection Hdec as <-.
    + simpl. by rewrite IH.
Qed.

(** X8.  When one of the records the service returns lacks the store's
    text key, [similarity_search] and [similarity_search_by_vector] raise
    [KeyError(text_key)]: no document is returned, also not for the
    records before it. *)
Theorem record_without_text_key `{Weaviate} (self : WeaviateVectorStore)
    (e : Embeddings) (query : string) (embedding : list Q) (k : Z)
    (kw : gmap string pyval) (w : world) (response : gmap string pyval)
    (ms : list (gmap string pyval)) (m : gmap string pyval) :
  _embedding self = Some e →
  Forall (λ name, kw !! name = None) ["query"; "limit"; "vector"] →
  (∀ q, svc_fault (calls w) (QueryDo q) = None) →
  (∀ q, svc_do (calls w) q = response) →
  response !! "errors" = None →
  response_payload self response = inr (VList (VDict <$> ms)) →
  m ∈ ms → m !! _text_key self = None →
  (similarity_search self query k kw w).1 = inl (KeyError (_text_key self))
  ∧ (similarity_search_by_vector self embedding k kw w).1
    = inl (KeyError (_text_key self)).
Proof.
  intros He Hkw Hfault Hanswer Herrors Hpayload Hm Hnone. split.
  - unfold similarity_search.
    destruct (_perform_search_run self w response Hfault Hanswer Herrors
                e query k kw He Hkw) as [q Hq].
    rewrite bind_run, Hq. unfold lift. simpl. rewrite Hpayload. simpl.
    by rewrite (mapM_decode_missing _ _ m).
  - unfold similarity_search_by_vector.
    rewrite _build_query_obj_eq, lift_inr_run.
    rewrite bind_run, do_run, Hfault, Hanswer, Herrors. unfold lift. simpl.
    rewrite Hpayload. simpl. by rewrite (mapM_decode_missing _ _ m).
Qed.

Lemma record_without_text_key_witness :
  response_payload Outage.store_body Demo.response
    = inr (VList (VDict <$> Demo.records))
  ∧ Demo.record "beta" "s1" [3 # 5; 4 # 5]%Q (7 # 10) ∈ Demo.records
  ∧ Demo.record "beta" "s1" [3 # 5; 4 # 5]%Q (7 # 10) !! "body" = None
  ∧ (@similarity_search Demo.weaviate Outage.store_body "q" 4 ∅
       Demo.world0).1 = inl (KeyError "body")
  ∧ (@similarity_search_by_vector Demo.weaviate Outage.store_body
       [1%Q; 0%Q] 4 ∅ Demo.world0).1 = inl (KeyError "body").
Proof.
  assert (Demo.record "beta" "s1" [3 # 5; 4 # 5]%Q (7 # 10) ∈ Demo.records)
    as Hm by (unfold Demo.records; set_solver).
  split_and!; [reflexivity|exact Hm|reflexivity|..];
    apply (@record_without_text_key Demo.weaviate Outage.store_body
             Demo.embeddings "q" [1%Q; 0%Q] 4 ∅ Demo.world0 Demo.response
             Demo.records (Demo.record "beta" "s1" [3 # 5; 4 # 5]%Q (7 # 10)));
    try reflexivity; try exact Hm; by repeat constructor.
Defined.

(** ** Keywords that collide with an explicit argument *)

(** X9.  A keyword that names an argument the method itself passes on is
    rejected with a TypeError before anything is sent: [limit] or [vector]
    given to [similarity_search] (with an embedding function configured),
    [additional] given to [similarity_search_with_score], and [embedding]
    given to [max_marginal_relevance_search]. *)
Theorem colliding_keywords_are_rejected `{Weaviate}
    (self : WeaviateVectorStore) (e : Embeddings) (query : string)
    (k fetch_k : Z) (lambda_mult : Q) (kw : gmap string pyval) (w : world) :
  _embedding self = Some e →
  (is_Some (kw !! "limit") ∨ is_Some (kw !! "vector") →
   ∃ msg, similarity_search self query k kw w = (inl (TypeError msg), w))
  ∧ (is_Some (kw !! "additional") →
     ∃ msg, similarity_search_with_score self query k kw w
            = (inl (TypeError msg), w))
  ∧ (is_Some (kw !! "embedding") →
     ∃ msg, max_marginal_relevance_search self query k fetch_k lambda_mult
              kw w = (inl (TypeError msg), w)).
Proof.
  intros He. split_and!.
  - intros Hkw. unfold similarity_search, _perform_search, call_kwargs.
    rewrite He.
    assert (∃ msg, bind_formals
              [("query", VStr query); ("limit", VInt k);
               ("vector", of_vector (embed_query e query))].*1 kw
            = inl (TypeError msg)) as [msg Hmsg].
    { destruct Hkw as [Hkw|Hkw].
      - apply (bind_formals_collision _ _ "limit"); [set_solver|done].
      - apply (bind_formals_collision _ _ "vector"); [set_solver|done]. }
    exists msg. by rewrite Hmsg.
  - intros Hkw. unfold similarity_search_with_score, call_kwargs.
    destruct (bind_formals_collision
                [("additional", VList [VStr "score"])].*1 kw "additional")
      as [msg Hmsg]; [set_solver|done|].
    exists msg. by rewrite Hmsg.
  - intros Hkw. unfold max_marginal_relevance_search. rewrite He.
    destruct (bind_formals_collision ["embedding"] kw "embedding")
      as [msg Hmsg]; [set_solver|done|].
    exists msg. by rewrite Hmsg.
Qed.

Lemma colliding_keywords_are_rejected_witness :
  _embedding (Demo.store (Some Demo.embeddings)) = Some Demo.embeddings
  ∧ is_Some (Outage.kw_limit !! "limit")
  ∧ (∃ msg, @similarity_search Demo.weaviate
              (Demo.store (Some Demo.embeddings)) "q" 4 Outage.kw_limit
              Demo.world0 = (inl (TypeError msg), Demo.world0))
  ∧ is_Some (Outage.kw_additional !! "additional")
  ∧ (∃ msg, @similarity_search_with_score Demo.weaviate
              (Demo.store (Some Demo.embeddings)) "q" 4 Outage.kw_additional
              Demo.world0 = (inl (TypeError msg), Demo.world0))
  ∧ is_Some (Outage.kw_embedding !! "embedding")
  ∧ (∃ msg, @max_marginal_relevance_search Demo.weaviate
              (Demo.store (Some Demo.embeddings)) "q" 4 20 (1 # 2)
              Outage.kw_embedding Demo.world0
            = (inl (TypeError msg), Demo.world0)).
Proof.
  assert (is_Some (Outage.kw_limit !! "limit")) as H1 by (by eexists).
  assert (is_Some (Outage.kw_additional !! "additional")) as H2
    by (by eexists).
  assert (is_Some (Outage.kw_embedding !! "embedding")) as H3
    by (by eexists).
  split_and!; [reflexivity|exact H1| |exact H2| |exact H3|].
  - apply (@colliding_keywords_are_rejected Demo.weaviate
             (Demo.store (Some Demo.embeddings)) Demo.embeddings "q" 4 20
             (1 # 2) Outage.kw_limit Demo.world0 eq_refl).
    by left.
  - apply (@colliding_keywords_are_rejected Demo.weaviate
             (Demo.store (Some Demo.embeddings)) Demo.embeddings "q" 4 20
             (1 # 2) Outage.kw_additional Demo.world0 eq_refl).
    exact H2.
  - apply (@colliding_keywords_are_rejected Demo.weaviate
             (Demo.store (Some Demo.embeddings)) Demo.embeddings "q" 4 20
             (1 # 2) Outage.kw_embedding Demo.world0 eq_refl).
    exact H3.
Defined.

(** ** The searches only read *)

Section one_query.
Context `{Weaviate}.

Lemma quiet_ret {A : Type} (x : A) : quiet (mret x : M A).
Proof. by intros w. Qed.

Lemma quiet_raise {A : Type} (e : exn) : quiet (raise (A:=A) e).
Proof. by intros w. Qed.

Lemma quiet_lift {A : Type} (r : result A) : quiet (lift r).
Proof. by intros w. Qed.

Lemma one_query_quiet {A : Type} (m : M A) : quiet m → one_query m.
Proof. intros Hm w. left. apply Hm. Qed.

Lemma one_query_do (q : GetBuilder) : one_query (do q).
Proof. intros w. right. exists q. rewrite do_run. done. Qed.

Lemma one_query_bind_l {A B : Type} (m : M A) (f : A → M B) :
  quiet m → (∀ x, one_query (f x)) → one_query (m ≫= f).
Proof.
  intros Hm Hf w. rewrite bind_run. specialize (Hm w).
  destruct (m w) as [[e|x] w']; simpl in *; subst w'; [by left|apply Hf].
Qed.

Lemma one_query_bind_r {A B : Type} (m : M A) (f : A → M B) :
  one_query m → (∀ x, quiet (f x)) → one_query (m ≫= f).
Proof.
  intros Hm Hf w. rewrite bind_run. specialize (Hm w).
  destruct (m w) as [[e|x] w']; simpl in *; [done|].
  by rewrite (Hf x w').
Qed.

Lemma _perform_search_one_query self query k kw :
  one_query (_perform_search self query k kw).
Proof.
  unfold _perform_search.
  destruct (_embedding self) as [e|]; [|apply one_query_quiet, quiet_raise].
  apply one_query_bind_l; [apply quiet_lift|intros kw'].
  apply one_query_bind_l; [apply quiet_lift|intros q].
  apply one_query_bind_r; [apply one_query_do|intros response].
  case_match; [apply quiet_raise|apply quiet_ret].
Qed.

Lemma max_marginal_relevance_search_by_vector_one_query self embedding k
    fetch_k lambda_mult kw :
  one_query (max_marginal_relevance_search_by_vector self embedding k fetch_k
                                                     lambda_mult kw).
Proof.
  unfold max_marginal_relevance_search_by_vector.
  apply one_query_bind_l; [apply quiet_lift|intros q].
  apply one_query_bind_r; [apply one_query_do|intros response].
  apply quiet_lift.
Qed.

Lemma run_search_one_query self (c : search_call) kw :
  one_query (run_search self c kw).
Proof.
  destruct c; simpl;
    (apply one_query_bind_r; [|intros; apply quiet_ret]).
  - unfold similarity_search.
    apply one_query_bind_r; [apply _perform_search_one_query|intros r].
    apply quiet_lift.
  - unfold similarity_search_by_vector.
    apply one_query_bind_l; [apply quiet_lift|intros q].
    apply one_query_bind_r; [apply one_query_do|intros response].
    case_match; [apply quiet_raise|apply quiet_lift].
  - unfold similarity_search_with_score.
    apply one_query_bind_l; [apply quiet_lift|intros kw'].
    apply one_query_bind_r; [apply _perform_search_one_query|intros r].
    case_match; [apply quiet_raise|apply quiet_lift].
  - unfold max_marginal_relevance_search.
    destruct (_embedding self) as [e|]; [|apply one_query_quiet, quiet_raise].
    apply one_query_bind_l; [apply quiet_lift|intros _].
    apply max_marginal_relevance_search_by_vector_one_query.
  - apply max_marginal_relevance_search_by_vector_one_query.
Qed.
End one_query.

(** X10.  The search operations only read: whatever the arguments, the
    keywords and the service's answers, a search sends either nothing or
    exactly one Get query for the store's index and attributes, and
    nothing else; it never inserts, deletes or touches a schema, and it
    draws no UUID. *)
Theorem searches_only_read `{Weaviate} (self : WeaviateVectorStore)
    (c : search_call) (kw : gmap string pyval) (w : world) :
  uuids_drawn (run_search self c kw w).2 = uuids_drawn w
  ∧ (sent_since w (run_search self c kw w).2 = []
     ∨ ∃ q, sent_since w (run_search self c kw w).2 = [QueryDo q]
            ∧ q_class q = _index_name self
            ∧ q_properties q = _query_attrs self).
Proof.
  destruct (run_search_one_query self c kw w) as [Hw|[q Hq]].
  - rewrite Hw. split; [done|]. left. apply sent_since_app.
    by rewrite app_nil_r.
  - assert (sent_since w (run_search self c kw w).2 = [QueryDo q]) as Hsent.
    { apply sent_since_app. by rewrite Hq. }
    split; [by rewrite Hq|]. right. exists q. split; [done|].
    assert (QueryDo q ∈ sent_since w (run_search self c kw w).2) as Hin.
    { rewrite Hsent. by left. }
    apply run_search_sent in Hin as (? & ? & _). done.
Qed.

(** ** What [add_texts] inserts *)

(** X11.  For every call of [add_texts] that inserts its texts, the object
    inserted for the [i]-th text belongs to the store's index, carries the
    [tenant] keyword (or [None]) and the [i]-th document embedding (no
    vector without an embedding function), and its properties are the
    serialized entries of [metadatas[i]] plus the text under the text key;
    a metadata entry named like the text key replaces the text. *)
Theorem add_texts_inserted_objects `{Weaviate} (self : WeaviateVectorStore)
    (texts : list string) (metadatas : option (list (gmap string pyval)))
    (kw : gmap string pyval) (w : world) :
  (∀ h r, svc_fault h r = None) →
  (∀ ms, metadatas = Some ms → length texts ≤ length ms) →
  (∀ v, supplied_ids kw = Some v →
        ∃ l, v = VList l ∧ length texts ≤ length l) →
  (∀ es, add_texts_embeddings self texts = Some es →
         es = [] ∨ length texts ≤ length es) →
  ∃ objs,
    calls (add_texts self texts metadatas kw w).2
      = calls w ++ [BatchEnter] ++ (BatchAddDataObject <$> objs)
                ++ [BatchExit]
    ∧ length objs = length texts
    ∧ ∀ i text, texts !! i = Some text →
        ∃ obj, objs !! i = Some obj
          ∧ do_class obj = _index_name self
          ∧ do_tenant obj = kwargs_get kw "tenant"
          ∧ do_vector obj =
              match _embedding self with
              | Some e => embed_documents e texts !! i
              | None => None
              end
          ∧ ∀ m, match metadatas with
                 | Some ms => ms !! i
                 | None => Some ∅
                 end = Some m →
              ∀ key, do_properties obj !! key =
                match m !! key with
                | Some val => Some (_json_serializable val)
                | None => if decide (key = _text_key self)
                          then Some (VStr text) else None
                end.
Proof.
  intros Hfault Hmd Hids Hemb.
  destruct (add_texts_objects_total self metadatas kw
              (add_texts_embeddings self texts) texts (uuids_drawn w) 0)
    as [objs Hobjs]; [done..|].
  exists objs.
  pose proof (add_texts_objects_length _ _ _ _ _ _ _ _ Hobjs) as Hlen.
  rewrite (add_texts_run Hfault self texts metadatas kw w objs Hobjs).
  split_and!; [done|done|].
  intros i text Htext.
  destruct (add_texts_objects_lookup _ _ _ _ _ _ _ _ _ _ Hobjs Htext)
    as (obj & Hobj & Hid).
  exists obj. split; [done|].
  unfold add_texts_object in Hid. simpl in Hid.
  destruct (metadata_at metadatas i) as [e|md] eqn:Hmeta; [done|].
  simpl in Hid.
  destruct (chosen_id kw _ _) as [e|id]; [done|]. simpl in Hid.
  destruct (vector_at _ _) as [e|vec] eqn:Hvec; [done|].
  injection Hid as <-. simpl. split_and!; [done|done|..].
  - unfold vector_at, add_texts_embeddings in *.
    destruct (_embedding self) as [e|]; [|by injection Hvec as <-].
    destruct (embed_documents e texts) as [|v vs] eqn:Hdocs.
    + by injection Hvec as <-.
    + unfold nth_or_IndexError in Hvec.
      destruct ((v :: vs) !! i); [by injection Hvec as <-|done].
  - intros m Hm key. unfold data_properties_for.
    unfold metadata_at in Hmeta. destruct metadatas as [ms|].
    + unfold nth_or_IndexError in Hmeta. rewrite Hm in Hmeta.
      injection Hmeta as <-. rewrite set_items_lookup.
      destruct (m !! key); [done|]. case_decide as Hkey.
      * subst key. by rewrite lookup_singleton_eq.
      * by rewrite lookup_singleton_ne.
    + injection Hmeta as <-. injection Hm as <-. rewrite lookup_empty.
      case_decide as Hkey.
      * subst key. by rewrite lookup_singleton_eq.
      * by rewrite lookup_singleton_ne.
Qed.

Lemma add_texts_inserted_objects_witness :
  ∃ objs,
    calls (@add_texts Demo.weaviate (Demo.store (Some Demo.embeddings))
             ["a"; "b"] (Some Demo.metadatas) Demo.kw_tenant
             Demo.world0).2
      = calls Demo.world0 ++ [BatchEnter] ++ (BatchAddDataObject <$> objs)
                          ++ [BatchExit]
    ∧ length objs = length ["a"; "b"]
    ∧ ∀ i text, ["a"; "b"] !! i = Some text →
        ∃ obj, objs !! i = Some obj
          ∧ do_class obj = "Docs"
          ∧ do_tenant obj = kwargs_get Demo.kw_tenant "tenant"
          ∧ do_vector obj =
              embed_documents Demo.embeddings ["a"; "b"] !! i
          ∧ ∀ m, Demo.metadatas !! i = Some m →
              ∀ key, do_properties obj !! key =
                match m !! key with
                | Some val => Some (@_json_serializable Demo.weaviate val)
                | None => if decide (key = "text")
                          then Some (VStr text) else None
                end.
Proof.
  apply (@add_texts_inserted_objects Demo.weaviate
           (Demo.store (Some Demo.embeddings)) ["a"; "b"]
           (Some Demo.metadatas) Demo.kw_tenant Demo.world0).
  - reflexivity.
  - intros ms [= <-]. simpl. lia.
  - intros v Hv. discriminate Hv.
  - intros es [= <-]. right. simpl. lia.
Defined.

Section add_texts_aborts.
Context `{Weaviate}.
Variables (self : WeaviateVectorStore)
          (metadatas : option (list (gmap string pyval)))
          (kw : gmap string pyval) (embeddings : option (list (list Q))).

Lemma add_texts_loop_app (texts1 texts2 : list string) : ∀ i ids w,
  add_texts_loop self metadatas kw embeddings i (texts1 ++ texts2) ids w =
  match add_texts_loop self metadatas kw embeddings i texts1 ids w with
  | (inl e, w') => (inl e, w')
  | (inr ids', w') =>
      add_texts_loop self metadatas kw embeddings (i + length texts1) texts2
                     ids' w'
  end.
Proof.
  induction texts1 as [|text texts1 IH]; intros i ids w; simpl.
  - by rewrite Nat.add_0_r.
  - rewrite !bind_run.
    destruct (add_texts_step self metadatas kw embeddings i text w)
      as [[e|id] w']; [done|].
    rewrite IH. by rewrite <- Nat.add_succ_comm.
Qed.

Lemma add_texts_loop_raises (i : nat) (text : string) (rest : list string)
    (ids : list pyval) (w w' : world) (e : exn) :
  add_texts_step self metadatas kw embeddings i text w = (inl e, w') →
  add_texts_loop self metadatas kw embeddings i (text :: rest) ids w
  = (inl e, w').
Proof. intros Hstep. simpl. by rewrite bind_run, Hstep. Qed.
End add_texts_aborts.

(** X12.  When the supplied list of ids has fewer entries than there are
    texts, [add_texts] raises IndexError at the first text without an id,
    after the objects for the texts before it have been added to the
    batch: the batch context is still left (flushing those objects) and
    no id is returned. *)
Theorem add_texts_with_too_few_ids `{Weaviate} (self : WeaviateVectorStore)
    (texts : list string) (metadatas : option (list (gmap string pyval)))
    (kw : gmap string pyval) (w : world) (l : list pyval) :
  (∀ h r, svc_fault h r = None) →
  (∀ ms, metadatas = Some ms → length texts ≤ length ms) →
  supplied_ids kw = Some (VList l) → length l < length texts →
  (∀ es, add_texts_embeddings self texts = Some es →
         es = [] ∨ length texts ≤ length es) →
  ∃ objs,
    add_texts self texts metadatas kw w =
      (inl IndexError,
       {| calls := calls w ++ [BatchEnter] ++ (BatchAddDataObject <$> objs)
                           ++ [BatchExit];
          uuids_drawn := uuids_drawn w + S (length l) |})
    ∧ do_uuid <$> objs = l.
Proof.
  intros Hfault Hmd Hids Hshort Hemb.
  set (embs := add_texts_embeddings self texts).
  set (n := length l).
  assert (texts = take n texts ++ drop n texts) as Hsplit
    by (by rewrite take_drop).
  destruct (drop n texts) as [|text rest] eqn:Hdrop.
  { apply (f_equal length) in Hdrop. rewrite length_drop in Hdrop.
    simpl in Hdrop. lia. }
  assert (length (take n texts) = n) as Htake
    by (rewrite length_take; lia).
  destruct (add_texts_objects_total self metadatas kw embs (take n texts)
              (uuids_drawn w) 0) as [objs Hobjs].
  { intros ms Hms. specialize (Hmd ms Hms). simpl. lia. }
  { intros v Hv. rewrite Hids in Hv. injection Hv as <-. exists l.
    split; [done|]. simpl. lia. }
  { intros es Hes. destruct (Hemb es Hes); [by left|right]. simpl. lia. }
  exists objs.
  assert (do_uuid <$> objs = l) as Huuids.
  { apply list_eq. intros j. rewrite list_lookup_fmap.
    pose proof (add_texts_objects_length _ _ _ _ _ _ _ _ Hobjs) as Hlen.
    destruct (decide (j < n)) as [Hj|Hj].
    - destruct (lookup_lt_is_Some_2 (take n texts) j) as [t Ht]; [lia|].
      destruct (add_texts_objects_lookup _ _ _ _ _ _ _ _ _ _ Hobjs Ht)
        as (obj & -> & Hobj).
      simpl. unfold add_texts_object in Hobj.
      destruct (metadata_at metadatas _) as [e|md]; [done|]. simpl in Hobj.
      destruct (chosen_id kw _ _) as [e|id] eqn:Hid; [done|]. simpl in Hobj.
      destruct (vector_at _ _) as [e|vec]; [done|]. injection Hobj as <-.
      simpl. unfold chosen_id, supplied_ids in *.
      destruct (kw !! "uuids") as [v|].
      + injection Hids as ->. simpl in Hid.
        destruct (l !! j); [by injection Hid as <-|done].
      + rewrite Hids in Hid. simpl in Hid.
        destruct (l !! j); [by injection Hid as <-|done].
    - rewrite !lookup_ge_None_2; [done|lia|lia]. }
  split; [|done].
  unfold add_texts, with_batch. fold (add_texts_embeddings self texts).
  fold embs.
  rewrite send_run, Hfault, Hsplit, add_texts_loop_app.
  rewrite (add_texts_loop_run self metadatas kw embs Hfault _ _ _ _ objs)
    by done.
  rewrite Htake. simpl "+".
  erewrite add_texts_loop_raises.
  2: { unfold add_texts_step.
       assert (∃ md, metadata_at metadatas n = inr md) as [md ->].
       { unfold metadata_at. destruct metadatas as [ms|]; [|by eexists].
         destruct (nth_or_IndexError_lt ms n) as (m & -> & _).
         - specialize (Hmd ms eq_refl). lia.
         - simpl. by eexists. }
       rewrite lift_inr_run. cbv zeta. rewrite draw_uuid4_run.
       assert (∀ u, chosen_id kw n u = inl IndexError) as ->.
       { intros u. unfold chosen_id, supplied_ids in *.
         destruct (kw !! "uuids") as [v|].
         - injection Hids as ->. simpl.
           by rewrite lookup_ge_None_2.
         - rewrite Hids. simpl. by rewrite lookup_ge_None_2. }
       rewrite lift_inl_run. reflexivity. }
  rewrite send_run, Hfault. simpl.
  rewrite <- !(assoc_L (++)). do 2 f_equal. lia.
Qed.

Lemma add_texts_with_too_few_ids_witness :
  supplied_ids Outage.kw_short_ids = Some (VList [VStr "id1"])
  ∧ length [VStr "id1"] < length ["a"; "b"; "c"]
  ∧ ∃ objs,
      @add_texts Demo.weaviate (Demo.store None) ["a"; "b"; "c"] None
                 Outage.kw_short_ids Demo.world0 =
        (inl IndexError,
         {| calls := calls Demo.world0 ++ [BatchEnter]
                       ++ (BatchAddDataObject <$> objs) ++ [BatchExit];
            uuids_drawn := uuids_drawn Demo.world0 + S (length [VStr "id1"]) |})
      ∧ do_uuid <$> objs = [VStr "id1"].
Proof.
  assert (length [VStr "id1"] < length ["a"; "b"; "c"]) as Hshort
    by (simpl; lia).
  split_and!; [reflexivity|exact Hshort|].
  apply (@add_texts_with_too_few_ids Demo.weaviate (Demo.store None)
           ["a"; "b"; "c"] None Outage.kw_short_ids Demo.world0
           [VStr "id1"]).
  - reflexivity.
  - intros ms Hms. discriminate Hms.
  - reflexivity.
  - exact Hshort.
  - intros es Hes. discriminate Hes.
Defined.

Section add_texts_batch.
Context `{Weaviate}.
Variables (self : WeaviateVectorStore)
          (metadatas : option (list (gmap string pyval)))
          (kw : gmap string pyval) (embeddings : option (list (list Q))).

Lemma add_texts_step_sends i text w :
  ∃ objs, calls (add_texts_step self metadatas kw embeddings i text w).2
          = calls w ++ (BatchAddDataObject <$> objs)
          ∧ length objs ≤ 1.
Proof.
  unfold add_texts_step.
  destruct (metadata_at metadatas i) as [e|md].
  { exists []. rewrite lift_inl_run. simpl. rewrite app_nil_r. split; [done|lia]. }
  rewrite lift_inr_run. cbv zeta. rewrite draw_uuid4_run.
  destruct (chosen_id kw i _) as [e|id].
  { exists []. rewrite lift_inl_run. simpl. rewrite app_nil_r. split; [done|lia]. }
  rewrite lift_inr_run.
  destruct (vector_at embeddings i) as [e|vec].
  { exists []. rewrite lift_inl_run. simpl. rewrite app_nil_r. split; [done|lia]. }
  rewrite lift_inr_run, bind_run, send_run. eexists [_].
  destruct (svc_fault _ _); simpl; (split; [done|lia]).
Qed.

Lemma add_texts_loop_sends texts : ∀ i ids w,
  ∃ objs, calls (add_texts_loop self metadatas kw embeddings i texts ids w).2
          = calls w ++ (BatchAddDataObject <$> objs)
          ∧ length objs ≤ length texts.
Proof.
  induction texts as [|text texts IH]; intros i ids w; simpl.
  - exists []. simpl. rewrite app_nil_r. split; [done|lia].
  - rewrite bind_run.
    destruct (add_texts_step_sends i text w) as (objs1 & Hstep & Hlen1).
    destruct (add_texts_step self metadatas kw embeddings i text w)
      as [[e|id] w1]; simpl in *.
    + exists objs1. split; [done|lia].
    + destruct (IH (S i) (ids ++ [id]) w1) as (objs2 & Hloop & Hlen2).
      exists (objs1 ++ objs2). rewrite Hloop, Hstep, fmap_app.
      rewrite (assoc_L (++)). split; [done|]. rewrite length_app. lia.
Qed.
End add_texts_batch.

(** X13.  [add_texts] brackets its insertions in the batch context,
    whatever happens inside: if the batch cannot be entered nothing else
    is sent; otherwise the requests sent are the entry, at most one
    insertion per text and nothing else, and last the exit that flushes
    the batch, also when the call raises half way. *)
Theorem add_texts_always_leaves_the_batch `{Weaviate}
    (self : WeaviateVectorStore) (texts : list string)
    (metadatas : option (list (gmap string pyval)))
    (kw : gmap string pyval) (w : world) :
  match svc_fault (calls w) BatchEnter with
  | Some msg =>
      add_texts self texts metadatas kw w =
        (inl (ServiceError msg),
         {| calls := calls w ++ [BatchEnter]; uuids_drawn := uuids_drawn w |})
  | None =>
      ∃ objs,
        sent_since w (add_texts self texts metadatas kw w).2
          = [BatchEnter] ++ (BatchAddDataObject <$> objs) ++ [BatchExit]
        ∧ length objs ≤ length texts
  end.
Proof.
  unfold add_texts, with_batch. rewrite send_run.
  destruct (svc_fault (calls w) BatchEnter) as [msg|]; [done|].
  match goal with |- context [add_texts_loop ?s ?m ?k ?e 0 texts [] ?w1] =>
    destruct (add_texts_loop_sends s m k e texts 0 [] w1)
      as (objs & Hloop & Hlen);
    destruct (add_texts_loop s m k e 0 texts [] w1) as [r w2]
  end.
  exists objs. split; [|done]. rewrite send_run. simpl in *.
  apply sent_since_app.
  destruct (svc_fault (calls w2) BatchExit); simpl;
    by rewrite Hloop, <- !(assoc_L (++)).
Qed.

(** ** What [from_texts] does *)

Section from_texts_runs.
Context `{Weaviate}.

Lemma draw_uuids_run (n : nat) : ∀ w,
  draw_uuids n w =
  (inr (generated_uuids (uuids_drawn w) n),
   {| calls := calls w; uuids_drawn := uuids_drawn w + n |}).
Proof.
  induction n as [|n IH]; intros w; simpl.
  - unfold generated_uuids. simpl. rewrite Nat.add_0_r. by destruct w.
  - rewrite draw_uuid4_run, bind_run, IH. simpl.
    unfold generated_uuids. simpl. rewrite Nat.add_0_r.
    rewrite <- fmap_S_seq, <- list_fmap_compose.
    replace (uuids_drawn w + S n) with (S (uuids_drawn w + n)) by lia.
    unfold mret, M_ret. do 3 f_equal.
    apply list_fmap_ext. intros i j _. simpl. do 3 f_equal. lia.
Qed.

Variables (index_name text_key : string)
          (metadatas : option (list (gmap string pyval))) (uuids : pyval)
          (embeddings : option (list (list Q))).

Lemma from_texts_objects_length texts : ∀ i objs,
  from_texts_objects index_name text_key metadatas uuids embeddings i texts
    = inr objs →
  length objs = length texts.
Proof.
  induction texts as [|text texts IH]; intros i objs; simpl.
  - by intros [= <-].
  - destruct (from_texts_object _ _ _ _ _ _ _) as [e|obj]; simpl; [done|].
    destruct (from_texts_objects _ _ _ _ _ _ _) as [e|objs'] eqn:Hobjs;
      simpl; [done|].
    intros [= <-]. simpl. by rewrite (IH _ _ Hobjs).
Qed.

Lemma from_texts_objects_lookup texts : ∀ i objs j text,
  from_texts_objects index_name text_key metadatas uuids embeddings i texts
    = inr objs →
  texts !! j = Some text →
  ∃ obj, objs !! j = Some obj
         ∧ from_texts_object index_name text_key metadatas uuids embeddings
             (i + j) text = inr obj.
Proof.
  induction texts as [|t texts IH]; intros i objs j text; simpl; [done|].
  destruct (from_texts_object _ _ _ _ _ _ _) as [e|obj] eqn:Hobj; simpl;
    [done|].
  destruct (from_texts_objects _ _ _ _ _ _ _) as [e|objs'] eqn:Hobjs;
    simpl; [done|].
  intros [= <-]. destruct j as [|j]; simpl.
  - intros [= <-]. exists obj. by rewrite Nat.add_0_r.
  - intros Hj. destruct (IH _ _ _ _ Hobjs Hj) as (obj' & ? & Hobj').
    exists obj'. split; [done|]. by rewrite <- Nat.add_succ_comm.
Qed.

Lemma from_texts_objects_total texts : ∀ i,
  (∀ ms, metadatas = Some ms → i + length texts ≤ length ms) →
  (∃ l, uuids = VList l ∧ i + length texts ≤ length l) →
  (∀ es, embeddings = Some es → i + length texts ≤ length es) →
  ∃ objs,
    from_texts_objects index_name text_key metadatas uuids embeddings i texts
      = inr objs.
Proof.
  induction texts as [|text texts IH]; intros i Hmd Hids Hemb; simpl;
    [by eexists|].
  simpl in *. unfold from_texts_object.
  assert (∃ md, metadata_at metadatas i = inr md) as [md ->].
  { unfold metadata_at. destruct metadatas as [ms|]; [|by eexists].
    destruct (nth_or_IndexError_lt ms i) as (m & -> & _).
    - specialize (Hmd ms eq_refl). lia.
    - simpl. by eexists. }
  destruct Hids as (l & -> & Hl). simpl.
  destruct (lookup_lt_is_Some_2 l i) as [id ->]; [lia|]. simpl.
  assert (∃ vec, match embeddings with
                 | Some es => Some <$> nth_or_IndexError es i
                 | None => inr None
                 end = inr vec) as [vec ->].
  { destruct embeddings as [es|]; [|by eexists].
    destruct (nth_or_IndexError_lt es i) as (x & -> & _).
    - specialize (Hemb es eq_refl). lia.
    - simpl. by eexists. }
  simpl.
  destruct (IH (S i)) as [objs Hobjs].
  { intros ms Hms. specialize (Hmd ms Hms). lia. }
  { exists l. split; [done|lia]. }
  { intros es Hes. specialize (Hemb es Hes). lia. }
  unfold from_texts_object in Hobjs. rewrite Hobjs. simpl. by eexists.
Qed.

Hypothesis no_fault : ∀ h r, svc_fault h r = None.

Lemma from_texts_step_run i text w obj :
  from_texts_object index_name text_key metadatas uuids embeddings i text
    = inr obj →
  from_texts_step index_name text_key metadatas uuids embeddings i text w =
  (inr (), {| calls := calls w ++ [BatchAddDataObject obj];
              uuids_drawn := uuids_drawn w |}).
Proof using no_fault.
  unfold from_texts_object, from_texts_step. intros Hobj.
  destruct (metadata_at metadatas i) as [e|md]; simpl in Hobj; [done|].
  destruct (py_index uuids i) as [e|id]; simpl in Hobj; [done|].
  destruct (match embeddings with
            | Some es => Some <$> nth_or_IndexError es i
            | None => inr None
            end) as [e|vec]; simpl in Hobj; [done|].
  injection Hobj as <-.
  rewrite lift_inr_run. cbv zeta. rewrite !lift_inr_run.
  by rewrite send_run, no_fault.
Qed.

Lemma from_texts_loop_run texts : ∀ i w objs,
  from_texts_objects index_name text_key metadatas uuids embeddings i texts
    = inr objs →
  from_texts_loop index_name text_key metadatas uuids embeddings i texts w =
  (inr (), {| calls := calls w ++ (BatchAddDataObject <$> objs);
              uuids_drawn := uuids_drawn w |}).
Proof using no_fault.
  induction texts as [|text texts IH]; intros i w objs; simpl.
  - intros [= <-]. simpl. rewrite app_nil_r. by destruct w.
  - destruct (from_texts_object _ _ _ _ _ _ _) as [e|obj] eqn:Hobj; simpl;
      [done|].
    destruct (from_texts_objects _ _ _ _ _ _ _) as [e|objs'] eqn:Hobjs;
      simpl; [done|].
    intros [= <-]. rewrite bind_run, (from_texts_step_run _ _ _ _ Hobj).
    rewrite (IH _ _ objs'); [|done]. simpl.
    by rewrite <- !(assoc_L (++)).
Qed.
End from_texts_runs.

Lemma from_texts_run `{Weaviate} (texts : list string)
    (embedding : option Embeddings)
    (metadatas : option (list (gmap string pyval))) (batch_size : option Z)
    (index_name : option string) (text_key : string) (by_text : bool)
    (rsf : option (Q → Q)) (kw : gmap string pyval) (w : world)
    (objs : list data_object) :
  let pre := configure_requests batch_size in
  let name := resolved_index_name index_name w in
  let drawn := uuids_drawn w + index_name_draws index_name in
  let uuids := from_texts_uuids kw drawn (length texts) in
  (∀ h r, svc_fault h r = None) →
  from_texts_objects name text_key metadatas uuids
    (from_texts_embeddings embedding texts) 0 texts = inr objs →
  from_texts texts embedding Client metadatas batch_size index_name text_key
             by_text rsf kw w =
  (match map_to_list (delete "uuids" kw) with
   | [] => __init__ Client name text_key embedding
                    (from_texts_attributes metadatas) rsf by_text
   | (key, _) :: _ =>
       inl (TypeError ("__init__() got an unexpected keyword argument "
                       +:+ key))
   end,
   {| calls := calls w ++ pre ++ [SchemaExists name]
                 ++ create_requests (svc_exists (calls w ++ pre) name) name
                 ++ [BatchEnter] ++ (BatchAddDataObject <$> objs)
                 ++ [BatchFlush; BatchExit];
      uuids_drawn := drawn + from_texts_uuid_draws kw (length texts) |}).
Proof.
  intros pre name drawn uuids Hfault Hobjs. unfold from_texts.
  set (w1 := {| calls := calls w ++ pre; uuids_drawn := uuids_drawn w |}).
  rewrite bind_run.
  assert (match batch_size with
          | Some n => if negb (n =? 0)%Z
                      then client_attr Client "batch";; send (BatchConfigure n)
                      else mret ()
          | None => mret ()
          end w = (inr (), w1)) as ->.
  { subst pre w1. unfold configure_requests in *.
    destruct batch_size as [n|]; [destruct (negb _)|].
    - unfold client_attr. by rewrite ret_bind_run, send_run, Hfault.
    - simpl. rewrite app_nil_r. by destruct w.
    - simpl. rewrite app_nil_r. by destruct w. }
  set (w2 := {| calls := calls w ++ pre; uuids_drawn := drawn |}).
  rewrite bind_run.
  assert (match index_name with
          | Some s =>
              if negb (String.eqb s "") then mret s
              else u ← draw_uuid4; mret ("LangChain_" +:+ uuid_hex u)
          | None => u ← draw_uuid4; mret ("LangChain_" +:+ uuid_hex u)
          end w1 = (inr name, w2)) as ->.
  { subst name w2 w1 drawn. unfold resolved_index_name, index_name_draws.
    destruct index_name as [s|]; [destruct (negb _)|]; simpl;
      rewrite ?Nat.add_0_r, ?Nat.add_1_r; reflexivity. }
  cbv zeta. unfold client_attr. rewrite ret_bind_run.
  rewrite bind_run, schema_exists_run, Hfault. simpl (calls w2).
  set (ex := svc_exists (calls w ++ pre) name).
  set (w3 := {| calls := calls w ++ pre ++ [SchemaExists name]
                           ++ create_requests ex name;
                uuids_drawn := drawn |}).
  rewrite bind_run.
  match goal with |- context [(if negb ex then ?a else ?b) ?w'] =>
    assert ((if negb ex then a else b) w' = (inr (), w3)) as ->
  end.
  { subst w3 w2. unfold create_requests. destruct ex; simpl.
    - by rewrite ?app_nil_r, <- ?(assoc_L (++)).
    - rewrite send_run, Hfault. simpl. by rewrite <- ?(assoc_L (++)). }
  fold (from_texts_embeddings embedding texts).
  fold (from_texts_attributes metadatas).
  set (w4 := {| calls := calls w3;
                uuids_drawn :=
                  drawn + from_texts_uuid_draws kw (length texts) |}).
  rewrite bind_run.
  assert (match kw !! "uuids" with
          | Some uuids0 => mret uuids0
          | None => us ← draw_uuids (length texts); mret (VList us)
          end w3 = (inr uuids, w4)) as ->.
  { subst uuids w4. unfold from_texts_uuids, from_texts_uuid_draws.
    destruct (kw !! "uuids") as [v|].
    - simpl. rewrite Nat.add_0_r. reflexivity.
    - rewrite bind_run, draw_uuids_run. reflexivity. }
  rewrite bind_run. unfold with_batch. rewrite send_run, Hfault.
  rewrite bind_run.
  rewrite (from_texts_loop_run name text_key metadatas uuids
             (from_texts_embeddings embedding texts) Hfault texts 0 _ objs
             Hobjs).
  rewrite send_run, Hfault, send_run, Hfault. simpl.
  assert (∀ A (r : result A) (w5 w6 : world), w5 = w6 → (r, w5) = (r, w6))
    as Hworld by (by intros ???? ->).
  destruct (map_to_list (delete "uuids" kw)) as [|[key v] rest];
    apply Hworld; f_equal; by rewrite <- !(assoc_L (++)).
Qed.

Lemma from_texts_objects_exist `{Weaviate} (texts : list string)
    (embedding : option Embeddings)
    (metadatas : option (list (gmap string pyval)))
    (name text_key : string) (kw : gmap string pyval) (drawn : nat) :
  (∀ ms, metadatas = Some ms → length texts ≤ length ms) →
  (∀ v, kw !! "uuids" = Some v →
        ∃ l, v = VList l ∧ length texts ≤ length l) →
  (∀ e, embedding = Some e →
        length texts ≤ length (embed_documents e texts)) →
  ∃ objs,
    from_texts_objects name text_key metadatas
      (from_texts_uuids kw drawn (length texts))
      (from_texts_embeddings embedding texts) 0 texts = inr objs.
Proof.
  intros Hmd Hids Hemb. apply from_texts_objects_total.
  - intros ms Hms. specialize (Hmd ms Hms). simpl. lia.
  - unfold from_texts_uuids. destruct (kw !! "uuids") as [v|].
    + destruct (Hids v eq_refl) as (l & -> & Hl). exists l.
      split; [done|]. simpl. lia.
    + eexists. split; [done|]. unfold generated_uuids.
      rewrite length_fmap, length_seq. simpl. lia.
  - unfold from_texts_embeddings. intros es Hes.
    destruct embedding as [e|]; [|done]. injection Hes as <-.
    specialize (Hemb e eq_refl). simpl. lia.
Qed.

(** X14.  For every call of [from_texts] on a client whose service fails
    no request (supplied lists long enough): the requests sent are the
    batch configuration (if a batch size is given), the existence check,
    the schema creation (if the index is new), and one batch holding one
    insertion per text followed by an explicit flush.  The [i]-th object
    belongs to the index, has no tenant, carries [uuids[i]] (or the
    [i]-th of the UUIDs generated up front) and the [i]-th embedding, and
    stores the entries of [metadatas[i]] unchanged (a datetime is not
    serialized here, unlike in [add_texts]) plus the text under the text
    key. *)
Theorem from_texts_inserted_objects `{Weaviate} (texts : list string)
    (embedding : option Embeddings)
    (metadatas : option (list (gmap string pyval))) (batch_size : option Z)
    (index_name : option string) (text_key : string) (by_text : bool)
    (rsf : option (Q → Q)) (kw : gmap string pyval) (w : world) :
  let pre := configure_requests batch_size in
  let name := resolved_index_name index_name w in
  let drawn := uuids_drawn w + index_name_draws index_name in
  (∀ h r, svc_fault h r = None) →
  (∀ ms, metadatas = Some ms → length texts ≤ length ms) →
  (∀ v, kw !! "uuids" = Some v →
        ∃ l, v = VList l ∧ length texts ≤ length l) →
  (∀ e, embedding = Some e →
        length texts ≤ length (embed_documents e texts)) →
  ∃ objs,
    calls (from_texts texts embedding Client metadatas batch_size index_name
                      text_key by_text rsf kw w).2
      = calls w ++ pre ++ [SchemaExists name]
                ++ create_requests (svc_exists (calls w ++ pre) name) name
                ++ [BatchEnter] ++ (BatchAddDataObject <$> objs)
                ++ [BatchFlush; BatchExit]
    ∧ length objs = length texts
    ∧ ∀ i text, texts !! i = Some text →
        ∃ obj, objs !! i = Some obj
          ∧ do_class obj = name
          ∧ do_tenant obj = VNone
          ∧ do_vector obj =
              match embedding with
              | Some e => embed_documents e texts !! i
              | None => None
              end
          ∧ (∀ l, kw !! "uuids" = Some (VList l) →
                  l !! i = Some (do_uuid obj))
          ∧ (kw !! "uuids" = None →
             do_uuid obj = VStr (get_valid_uuid (uuid4 (drawn + i))))
          ∧ ∀ m, match metadatas with
                 | Some ms => ms !! i
                 | None => Some ∅
                 end = Some m →
              ∀ key, do_properties obj !! key =
                match m !! key with
                | Some val => Some val
                | None => if decide (key = text_key)
                          then Some (VStr text) else None
                end.
Proof.
  intros pre name drawn Hfault Hmd Hids Hemb.
  destruct (from_texts_objects_exist texts embedding metadatas name text_key
              kw drawn Hmd Hids Hemb) as [objs Hobjs].
  exists objs.
  rewrite (from_texts_run texts embedding metadatas batch_size index_name
             text_key by_text rsf kw w objs Hfault Hobjs).
  split; [done|]. split; [by eapply from_texts_objects_length|].
  intros i text Htext.
  destruct (from_texts_objects_lookup _ _ _ _ _ _ _ _ _ _ Hobjs Htext)
    as (obj & Hobj & Hid).
  exists obj. split; [done|].
  apply lookup_lt_Some in Htext as Hi.
  unfold from_texts_object in Hid. simpl in Hid.
  destruct (metadata_at metadatas i) as [e|md] eqn:Hmeta; [done|].
  simpl in Hid.
  destruct (py_index _ i) as [e|id] eqn:Hindex; [done|]. simpl in Hid.
  destruct (match from_texts_embeddings embedding texts with
            | Some es => Some <$> nth_or_IndexError es i
            | None => inr None
            end) as [e|vec] eqn:Hvec; [done|].
  injection Hid as <-. simpl. split_and!; [done|done|..].
  - unfold from_texts_embeddings in Hvec.
    destruct embedding as [e|]; [|by injection Hvec as <-].
    unfold nth_or_IndexError in Hvec.
    destruct (embed_documents e texts !! i); [by injection Hvec as <-|done].
  - intros l Hl. unfold from_texts_uuids in Hindex. rewrite Hl in Hindex.
    simpl in Hindex. destruct (l !! i); [by injection Hindex as <-|done].
  - intros Hnone. unfold from_texts_uuids in Hindex. rewrite Hnone in Hindex.
    simpl in Hindex. unfold generated_uuids in Hindex.
    rewrite list_lookup_fmap, lookup_seq_lt in Hindex by done.
    by injection Hindex as <-.
  - intros m Hm key. unfold metadata_at in Hmeta.
    destruct metadatas as [ms|].
    + unfold nth_or_IndexError in Hmeta. rewrite Hm in Hmeta.
      injection Hmeta as <-. rewrite set_items_lookup.
      destruct (m !! key); [done|]. case_decide as Hkey.
      * subst key. by rewrite lookup_singleton_eq.
      * by rewrite lookup_singleton_ne.
    + injection Hmeta as <-. injection Hm as <-. rewrite lookup_empty.
      case_decide as Hkey.
      * subst key. by rewrite lookup_singleton_eq.
      * by rewrite lookup_singleton_ne.
Qed.

Lemma from_texts_inserted_objects_witness :
  ∃ objs,
    calls (@from_texts Demo.weaviate ["a"; "b"] (Some Demo.embeddings) Client
             (Some Demo.metadatas) (Some 10%Z) (Some "New") "text" false
             None ∅ Demo.world0).2
      = calls Demo.world0 ++ [BatchConfigure 10] ++ [SchemaExists "New"]
          ++ [SchemaCreateClass (_default_schema "New")]
          ++ [BatchEnter] ++ (BatchAddDataObject <$> objs)
          ++ [BatchFlush; BatchExit]
    ∧ length objs = length ["a"; "b"]
    ∧ ∀ i text, ["a"; "b"] !! i = Some text →
        ∃ obj, objs !! i = Some obj
          ∧ do_class obj = "New"
          ∧ do_tenant obj = VNone
          ∧ do_vector obj = embed_documents Demo.embeddings ["a"; "b"] !! i
          ∧ (∀ l, (∅ : gmap string pyval) !! "uuids" = Some (VList l) →
                  l !! i = Some (do_uuid obj))
          ∧ ((∅ : gmap string pyval) !! "uuids" = None →
             do_uuid obj =
             VStr (@get_valid_uuid Demo.weaviate
                     (@uuid4 Demo.weaviate (0 + 0 + i))))
          ∧ ∀ m, Demo.metadatas !! i = Some m →
              ∀ key, do_properties obj !! key =
                match m !! key with
                | Some val => Some val
                | None => if decide (key = "text")
                          then Some (VStr text) else None
                end.
Proof.
  apply (@from_texts_inserted_objects Demo.weaviate ["a"; "b"]
           (Some Demo.embeddings) (Some Demo.metadatas) (Some 10%Z)
           (Some "New") "text" false None ∅ Demo.world0).
  - reflexivity.
  - intros ms [= <-]. simpl. lia.
  - intros v Hv. discriminate Hv.
  - intros e [= <-]. simpl. lia.
Defined.

(** X15.  When no keyword other than [uuids] is given, such a call of
    [from_texts] returns a store for the index it filled: same client,
    text key, embedding function and options, the resolved index name
    (the given one, or ["LangChain_"] followed by a fresh UUID's hex
    digits when none or an empty one is given), and as query attributes
    the text key followed by the metadata keys of the first document. *)
Theorem from_texts_returns_the_store `{Weaviate} (texts : list string)
    (embedding : option Embeddings)
    (metadatas : option (list (gmap string pyval))) (batch_size : option Z)
    (index_name : option string) (text_key : string) (by_text : bool)
    (rsf : option (Q → Q)) (kw : gmap string pyval) (w : world) :
  (∀ h r, svc_fault h r = None) →
  (∀ ms, metadatas = Some ms → length texts ≤ length ms) →
  (∀ v, kw !! "uuids" = Some v →
        ∃ l, v = VList l ∧ length texts ≤ length l) →
  (∀ e, embedding = Some e →
        length texts ≤ length (embed_documents e texts)) →
  delete "uuids" kw = ∅ →
  ∃ self,
    (from_texts texts embedding Client metadatas batch_size index_name
                text_key by_text rsf kw w).1 = inr self
    ∧ _client self = Client
    ∧ _index_name self = resolved_index_name index_name w
    ∧ _embedding self = embedding
    ∧ _text_key self = text_key
    ∧ relevance_score_fn self = rsf
    ∧ _by_text self = by_text
    ∧ head (_query_attrs self) = Some text_key
    ∧ match metadatas with
      | Some (m :: _) =>
          ∀ key, key ∈ tail (_query_attrs self) ↔ is_Some (m !! key)
      | _ => _query_attrs self = [text_key]
      end.
Proof.
  intros Hfault Hmd Hids Hemb Hkw.
  destruct (from_texts_objects_exist texts embedding metadatas
              (resolved_index_name index_name w) text_key kw
              (uuids_drawn w + index_name_draws index_name) Hmd Hids Hemb)
    as [objs Hobjs].
  rewrite (from_texts_run texts embedding metadatas batch_size index_name
             text_key by_text rsf kw w objs Hfault Hobjs).
  rewrite Hkw, map_to_list_empty. simpl. eexists. split; [done|]. simpl.
  split_and!; try done.
  - by destruct (from_texts_attributes metadatas).
  - destruct metadatas as [[|m ms]|]; simpl; try done.
    intros key. rewrite list_elem_of_fmap. split.
    + intros ([key' val] & -> & Hin). apply elem_of_map_to_list in Hin.
      by eexists.
    + intros [val Hval]. exists (key, val). split; [done|].
      by apply elem_of_map_to_list.
Qed.

Lemma from_texts_returns_the_store_witness :
  delete "uuids" (∅ : gmap string pyval) = ∅
  ∧ ∃ self,
      (@from_texts Demo.weaviate ["a"; "b"] (Some Demo.embeddings) Client
         (Some Demo.metadatas) (Some 10%Z) None "text" false None ∅
         Demo.world0).1 = inr self
      ∧ _client self = Client
      ∧ _index_name self
        = @resolved_index_name Demo.weaviate None Demo.world0
      ∧ _embedding self = Some Demo.embeddings
      ∧ _text_key self = "text"
      ∧ relevance_score_fn self = None
      ∧ _by_text self = false
      ∧ head (_query_attrs self) = Some "text"
      ∧ ∀ key, key ∈ tail (_query_attrs self)
               ↔ is_Some (({[ "created" := VDatetime Demo.new_year;
                               "page" := VInt 1 ]} : gmap string pyval)
                            !! key).
Proof.
  assert (delete "uuids" (∅ : gmap string pyval) = ∅) as Hkw
    by apply delete_empty.
  split; [exact Hkw|].
  apply (@from_texts_returns_the_store Demo.weaviate ["a"; "b"]
           (Some Demo.embeddings) (Some Demo.metadatas) (Some 10%Z) None
           "text" false None ∅ Demo.world0).
  - reflexivity.
  - intros ms [= <-]. simpl. lia.
  - intros v Hv. discriminate Hv.
  - intros e [= <-]. simpl. lia.
  - exact Hkw.
Defined.

(** X16.  A keyword other than [uuids] makes [from_texts] raise a
    TypeError, but only when it builds the store at the very end: the
    schema has been created and every text has been inserted and flushed
    by then. *)
Theorem from_texts_rejects_keywords_after_inserting `{Weaviate}
    (texts : list string) (embedding : option Embeddings)
    (metadatas : option (list (gmap string pyval))) (batch_size : option Z)
    (index_name : option string) (text_key : string) (by_text : bool)
    (rsf : option (Q → Q)) (kw : gmap string pyval) (w : world)
    (key : string) :
  let pre := configure_requests batch_size in
  let name := resolved_index_name index_name w in
  (∀ h r, svc_fault h r = None) →
  (∀ ms, metadatas = Some ms → length texts ≤ length ms) →
  (∀ v, kw !! "uuids" = Some v →
        ∃ l, v = VList l ∧ length texts ≤ length l) →
  (∀ e, embedding = Some e →
        length texts ≤ length (embed_documents e texts)) →
  key ≠ "uuids" → is_Some (kw !! key) →
  ∃ msg objs,
    (from_texts texts embedding Client metadatas batch_size index_name
                text_key by_text rsf kw w).1 = inl (TypeError msg)
    ∧ calls (from_texts texts embedding Client metadatas batch_size
                        index_name text_key by_text rsf kw w).2
      = calls w ++ pre ++ [SchemaExists name]
                ++ create_requests (svc_exists (calls w ++ pre) name) name
                ++ [BatchEnter] ++ (BatchAddDataObject <$> objs)
                ++ [BatchFlush; BatchExit]
    ∧ length objs = length texts.
Proof.
  intros pre name Hfault Hmd Hids Hemb Hkey [v Hv].
  destruct (from_texts_objects_exist texts embedding metadatas name text_key
              kw (uuids_drawn w + index_name_draws index_name) Hmd Hids Hemb)
    as [objs Hobjs].
  rewrite (from_texts_run texts embedding metadatas batch_size index_name
             text_key by_text rsf kw w objs Hfault Hobjs).
  destruct (map_to_list (delete "uuids" kw)) as [|[key' v'] rest] eqn:Hlist.
  - apply map_to_list_empty_iff in Hlist.
    assert (delete "uuids" kw !! key = Some v) as Hin
      by (by rewrite lookup_delete_ne).
    by rewrite Hlist, lookup_empty in Hin.
  - simpl. eexists _, objs. split_and!; [done|done|].
    by eapply from_texts_objects_length.
Qed.

Lemma from_texts_rejects_keywords_after_inserting_witness :
  "colour" ≠ "uuids" ∧ is_Some (Outage.kw_unknown !! "colour")
  ∧ ∃ msg objs,
      (@from_texts Demo.weaviate ["a"; "b"] None Client None None
         (Some "New") "text" false None Outage.kw_unknown Demo.world0).1
        = inl (TypeError msg)
      ∧ calls (@from_texts Demo.weaviate ["a"; "b"] None Client None None
                 (Some "New") "text" false None Outage.kw_unknown
                 Demo.world0).2
        = calls Demo.world0 ++ [] ++ [SchemaExists "New"]
            ++ [SchemaCreateClass (_default_schema "New")]
            ++ [BatchEnter] ++ (BatchAddDataObject <$> objs)
            ++ [BatchFlush; BatchExit]
      ∧ length objs = length ["a"; "b"].
Proof.
  assert ("colour" ≠ "uuids") as Hne by discriminate.
  assert (is_Some (Outage.kw_unknown !! "colour")) as Hin by (by eexists).
  split_and!; [exact Hne|exact Hin|].
  apply (@from_texts_rejects_keywords_after_inserting Demo.weaviate
           ["a"; "b"] None None None (Some "New") "text" false None
           Outage.kw_unknown Demo.world0 "colour").
  - reflexivity.
  - intros ms Hms. discriminate Hms.
  - intros v Hv. discriminate Hv.
  - intros e He. discriminate He.
  - exact Hne.
  - exact Hin.
Defined.

(** ** Scores and vectors in the answer *)

(** X17.  With an embedding function configured and no colliding keyword,
    [similarity_search_with_score] sends exactly one request, which asks
    for the additional property ["score"] next to the text, its embedding
    and the limit. *)
Theorem with_score_requests_the_score `{Weaviate}
    (self : WeaviateVectorStore) (e : Embeddings) (query : string) (k : Z)
    (kw : gmap string pyval) (w : world) :
  _embedding self = Some e →
  Forall (λ name, kw !! name = None)
         ["query"; "limit"; "vector"; "additional"] →
  ∃ q,
    (similarity_search_with_score self query k kw w).2 =
      {| calls := calls w ++ [QueryDo q]; uuids_drawn := uuids_drawn w |}
    ∧ q_class q = _index_name self
    ∧ q_properties q = _query_attrs self
    ∧ q_calls q =
        built_calls (<["query" := VStr query]>
                       (<["limit" := VInt k]>
                          (<["vector" := of_vector (embed_query e query)]>
                             (<["additional" := VList [VStr "score"]]> kw))))
    ∧ with_additional (VList [VStr "score"]) ∈ q_calls q.
Proof.
  intros He Hkw. eexists. split.
  { unfold similarity_search_with_score, _perform_search. rewrite He.
    rewrite call_kwargs_fresh by (repeat constructor; by decompose_Forall).
    rewrite lift_inr_run, bind_run.
    rewrite call_kwargs_fresh.
    2: { decompose_Forall. repeat constructor; simpl.
         all: by rewrite lookup_union_r. }
    rewrite lift_inr_run, _build_query_obj_eq, lift_inr_run.
    rewrite bind_run, do_run, list_to_map_union_inserts.
    simpl (list_to_map _). rewrite insert_empty, <- insert_union_singleton_l.
    destruct (svc_fault _ _); [reflexivity|].
    destruct (_ !! "errors") eqn:Herrors; [reflexivity|].
    unfold mret, M_ret. by rewrite Herrors. }
  assert (kwargs_get
            (<["query" := VStr query]>
               (<["limit" := VInt k]>
                  (<["vector" := of_vector (embed_query e query)]>
                     (<["additional" := VList [VStr "score"]]> kw))))
            "additional" = VList [VStr "score"]) as Hadditional.
  { unfold kwargs_get. do 3 (rewrite lookup_insert_ne by done).
    by rewrite lookup_insert_eq. }
  simpl. split_and!; [done|done|done|].
  unfold built_calls, truthy_arg. rewrite Hadditional. simpl.
  rewrite !elem_of_app. do 2 right. left.
Qed.

Lemma with_score_requests_the_score_witness :
  _embedding (Demo.store (Some Demo.embeddings)) = Some Demo.embeddings
  ∧ Forall (λ name, Demo.kw_tenant !! name = None)
           ["query"; "limit"; "vector"; "additional"]
  ∧ ∃ q,
      (@similarity_search_with_score Demo.weaviate
         (Demo.store (Some Demo.embeddings)) "cats" 4 Demo.kw_tenant
         Demo.world0).2 =
        {| calls := calls Demo.world0 ++ [QueryDo q];
           uuids_drawn := uuids_drawn Demo.world0 |}
      ∧ with_additional (VList [VStr "score"]) ∈ q_calls q.
Proof.
  assert (Forall (λ name, Demo.kw_tenant !! name = None)
                 ["query"; "limit"; "vector"; "additional"]) as Hkw
    by (by repeat constructor).
  split_and!; [reflexivity|exact Hkw|].
  destruct (@with_score_requests_the_score Demo.weaviate
              (Demo.store (Some Demo.embeddings)) Demo.embeddings "cats" 4
              Demo.kw_tenant Demo.world0 eq_refl Hkw)
    as (q & Hq & _ & _ & _ & Hscore).
  exists q. split; [exact Hq|exact Hscore].
Defined.

(** X18.  When the first record of the service's answer carries no
    [_additional] entry (the service returned no vectors),
    [max_marginal_relevance_search_by_vector] raises
    [KeyError("_additional")]; it returns no document. *)
Theorem mmr_search_without_vectors `{Weaviate} (self : WeaviateVectorStore)
    (embedding : list Q) (k fetch_k : Z) (lambda_mult : Q)
    (kw : gmap string pyval) (w : world) (response : gmap string pyval)
    (m : gmap string pyval) (records : list pyval) :
  (∀ q, svc_fault (calls w) (QueryDo q) = None) →
  (∀ q, svc_do (calls w) q = response) →
  response_payload self response = inr (VList (VDict m :: records)) →
  m !! "_additional" = None →
  (max_marginal_relevance_search_by_vector self embedding k fetch_k
     lambda_mult kw w).1 = inl (KeyError "_additional").
Proof.
  intros Hfault Hanswer Hpayload Hnone.
  unfold max_marginal_relevance_search_by_vector.
  rewrite _build_query_obj_eq, lift_inr_run.
  rewrite bind_run, do_run, Hfault, Hanswer. unfold lift. simpl.
  rewrite Hpayload. simpl. by rewrite Hnone.
Qed.

Lemma mmr_search_without_vectors_witness :
  response_payload Outage.store_plain Outage.response_plain
    = inr (VList (VDict Outage.plain_record :: []))
  ∧ Outage.plain_record !! "_additional" = None
  ∧ (@max_marginal_relevance_search_by_vector Outage.plain_weaviate
       Outage.store_plain [1%Q; 0%Q] 2 3 (1 # 2) ∅ Demo.world0).1
    = inl (KeyError "_additional").
Proof.
  split_and!; [reflexivity|reflexivity|].
  apply (@mmr_search_without_vectors Outage.plain_weaviate
           Outage.store_plain [1%Q; 0%Q] 2 3 (1 # 2) ∅ Demo.world0
           Outage.response_plain Outage.plain_record []); reflexivity.
Defined.

(** X19.  [similarity_search_by_vector] needs no embedding function: for
    every store, vector, limit and keyword arguments, when the service
    answers without errors with the records [ms], each of which holds the
    text field, it returns for every record in order the document whose
    content is the text field and whose metadata is the rest of the
    record, as [similarity_search] does. *)
Theorem similarity_search_by_vector_decodes `{Weaviate}
    (self : WeaviateVectorStore) (embedding : list Q) (k : Z)
    (kw : gmap string pyval) (w : world) (response : gmap string pyval)
    (ms : list (gmap string pyval)) :
  (∀ q, svc_fault (calls w) (QueryDo q) = None) →
  (∀ q, svc_do (calls w) q = response) →
  response !! "errors" = None →
  response_payload self response = inr (VList (VDict <$> ms)) →
  (∀ m, m ∈ ms → is_Some (m !! _text_key self)) →
  (similarity_search_by_vector self embedding k kw w).1
  = inr ((λ m, {| page_content := default VNone (m !! _text_key self);
                  metadata := VDict (delete (_text_key self) m) |}) <$> ms).
Proof.
  intros Hfault Hanswer Herrors Hpayload Htext.
  unfold similarity_search_by_vector.
  rewrite _build_query_obj_eq, lift_inr_run.
  rewrite bind_run, do_run, Hfault, Hanswer, Herrors. unfold lift. simpl.
  rewrite Hpayload. simpl. by rewrite mapM_decode.
Qed.

Lemma similarity_search_by_vector_decodes_witness :
  (∀ m, m ∈ Demo.records → is_Some (m !! "text"))
  ∧ (@similarity_search_by_vector Demo.weaviate (Demo.store None)
       [1%Q; 0%Q] 2 Demo.kw_tenant Demo.world0).1
    = inr ((λ m, {| page_content := default VNone (m !! "text");
                    metadata := VDict (delete "text" m) |})
             <$> Demo.records).
Proof.
  assert (∀ m, m ∈ Demo.records → is_Some (m !! "text")) as Htext.
  { intros m Hm. unfold Demo.records in Hm.
    repeat (apply elem_of_cons in Hm as [->|Hm]);
      [by eexists..|by apply elem_of_nil in Hm]. }
  split; [exact Htext|].
  apply (@similarity_search_by_vector_decodes Demo.weaviate (Demo.store None)
           [1%Q; 0%Q] 2 Demo.kw_tenant Demo.world0 Demo.response
           Demo.records); [reflexivity..|exact Htext].
Defined.
